(** * skuid-cli: retrieval, extraction and JSON merging

    A shallow embedding of [cmd/retrieve.go] (package [cmd]) and of the
    archive builder of package [ziputils], with the properties of the
    retrieval core stated and proved over it.

    Layout of the development:
    - Part I   Go values: errors, results, paths ([strings], [path/filepath]).
    - Part II  JSON documents: lexemes, syntax trees, values, the merge
               engine's collaborators ([jsonpatch], [jsoniter], [encoding/json]).
    - Part III Effects: the calls the program makes to its environment, and
               programs as finite trees of such calls.
    - Part IV  The source functions of [retrieve.go] and [ziputils].
    - Part V   An in-memory environment used to run scenarios.
    - Part VI  Notions and tactics of the proofs.
    - Part VII Lemmas and theorems. *)

From stdpp Require Import base option list strings gmap fin_maps sorting pretty.
From Stdlib Require Import Ascii String NArith.

Set Default Proof Using "Type".
#[global] Set Warnings "-register-all,-clear-no-such-hyp".
Open Scope string_scope.
Open Scope list_scope.

(* ================================================================== *)
(** * Part I. Go values *)
(* ================================================================== *)

(** Go's [error] values. Only their identity matters to the program: it
    compares them with [nil] and hands them on. *)
Inductive error : Type :=
| ErrOS (op path : string)      (* os.PathError and friends *)
| ErrIO (what : string)         (* a failed read or write on a stream *)
| ErrZip                        (* zip: not a valid zip file *)
| ErrBadJSONDoc                 (* jsonpatch: invalid JSON document *)
| ErrBadJSONPatch               (* jsonpatch: invalid JSON patch *)
| ErrSyntax.                    (* encoding/json: SyntaxError *)

(** A Go pair [(T, error)]. *)
Inductive result (A : Type) : Type :=
| Ok (a : A)
| Err (e : error).
Arguments Ok {A} a.
Arguments Err {A} e.

(** [os.FileMode] is a [uint32]; [os.ModeDir] is its top bit. *)
Definition FileMode : Type := N.
Definition ModeDir_bit : N := 31%N.
Definition FileMode_IsDir (m : FileMode) : bool := N.testbit m ModeDir_bit.
Definition mode_0755 : FileMode := 493%N.
Definition mode_0644 : FileMode := 420%N.

(** ** Package [strings] *)

(** [strings.Split(s, sep)] for a one-byte separator: always at least one
    element, [n+1] elements for [n] separators. *)
Fixpoint strings_Split (s : string) (sep : ascii) : list string :=
  match s with
  | EmptyString => [EmptyString]
  | String a s' =>
      if Ascii.eqb a sep then EmptyString :: strings_Split s' sep
      else match strings_Split s' sep with
           | h :: t => String a h :: t
           | [] => [String a EmptyString]
           end
  end.

(** [strings.Join(elems, sep)]. *)
Fixpoint strings_Join (elems : list string) (sep : string) : string :=
  match elems with
  | [] => ""
  | [e] => e
  | e :: rest => e +:+ sep +:+ strings_Join rest sep
  end.

(** ** Package [path/filepath], on a Unix host *)

Definition Separator : ascii := "/"%char.
Definition SeparatorS : string := String Separator EmptyString.
Definition ListSeparator : ascii := ":"%char.

(** [filepath.FromSlash]: the identity where the separator is the slash. *)
Definition filepath_FromSlash (p : string) : string := p.

Definition rooted (p : string) : bool :=
  match p with
  | String a _ => Ascii.eqb a Separator
  | EmptyString => false
  end.

(** One step of [filepath.Clean] over the elements of a path; [out] is the
    cleaned prefix, innermost element first. Empty and [.] elements vanish,
    [..] removes the element before it, or stays when there is none to
    remove and the path is not rooted. *)
Definition clean_step (isRooted : bool) (out : list string) (e : string) : list string :=
  if String.eqb e "" then out
  else if String.eqb e "." then out
  else if String.eqb e ".." then
    match out with
    | top :: below => if String.eqb top ".." then e :: out else below
    | [] => if isRooted then out else [e]
    end
  else e :: out.

Definition filepath_Clean (p : string) : string :=
  let elems := foldl (clean_step (rooted p)) [] (strings_Split p Separator) in
  let body := strings_Join (rev elems) SeparatorS in
  let out := if rooted p then SeparatorS +:+ body else body in
  if String.eqb out "" then "." else out.

(** [filepath.Join]: empty elements before the first non-empty one are
    dropped, the rest is joined and cleaned; all empty gives the empty
    string. *)
Fixpoint filepath_Join (elem : list string) : string :=
  match elem with
  | [] => ""
  | e :: rest =>
      if String.eqb e "" then filepath_Join rest
      else filepath_Clean (strings_Join elem SeparatorS)
  end.

(** [path.Join] agrees with [filepath.Join] where the separator is the slash. *)
Definition path_Join (elem : list string) : string := filepath_Join elem.

(** [filepath.Dir]: everything up to the last separator, cleaned. *)
Definition filepath_Dir (p : string) : string :=
  match rev (strings_Split p Separator) with
  | _ :: [] => filepath_Clean ""
  | _ :: before => filepath_Clean (strings_Join (rev before) SeparatorS +:+ SeparatorS)
  | [] => filepath_Clean ""
  end.

(** [filepath.SplitList]: splits a PATH-like list on the list separator;
    the empty string gives no element. *)
Definition filepath_SplitList (p : string) : list string :=
  if String.eqb p "" then [] else strings_Split p ListSeparator.

(* ================================================================== *)
(** * Part II. JSON documents *)
(* ================================================================== *)

(** ** Byte strings, seen through the JSON lexer

    File contents, archive entries and merge results are byte strings.
    The program never looks at single bytes: it hands them to the JSON
    libraries and writes back what they return. A byte string is therefore
    kept as its sequence of lexemes: punctuation, literals, the four white
    space bytes, and [LJunk] for a byte that starts no JSON lexeme (binary
    assets, stray characters). [LStr s] is a string literal denoting [s],
    [LNum n] a number literal with text [n]. *)
Inductive lexeme : Type :=
| LBrace | RBrace | LBrack | RBrack | Colon | Comma
| LStr (s : string) | LNum (n : string) | LTrue | LFalse | LNull
| LSpace | LTab | LNewline | LReturn
| LJunk (b : ascii).

Abbreviation bytes := (list lexeme).

Definition is_space (t : lexeme) : bool :=
  match t with
  | LSpace | LTab | LNewline | LReturn => true
  | _ => false
  end.

Definition is_close (t : lexeme) : bool :=
  match t with
  | RBrace | RBrack => true
  | _ => false
  end.

(** White space between lexemes carries no meaning. *)
Definition strip (b : bytes) : bytes := filter (λ t, is_space t = false) b.

(** ** Syntax trees: a document as it is written, members in order *)
Inductive syntax : Type :=
| SNull
| SBool (b : bool)
| SNum (n : string)
| SStr (s : string)
| SArr (items : list syntax)
| SObj (members : list (string * syntax)).

(** Modelled from the spec: the JSON decoders ([encoding/json] and
    [github.com/skuid/json-iterator-go]) are not part of the sources;
    section 4.1 only asks for "valid JSON". This is the JSON grammar read
    by recursive descent over the lexemes that are not white space.
    [fuel] bounds the depth of calls; the length of the input is always
    enough. *)
Fixpoint parse_value (fuel : nat) (ts : bytes) : option (syntax * bytes) :=
  match fuel with
  | O => None
  | S fuel =>
      match ts with
      | LNull :: r => Some (SNull, r)
      | LTrue :: r => Some (SBool true, r)
      | LFalse :: r => Some (SBool false, r)
      | LNum n :: r => Some (SNum n, r)
      | LStr s :: r => Some (SStr s, r)
      | LBrack :: RBrack :: r => Some (SArr [], r)
      | LBrack :: r =>
          match parse_items fuel r with
          | Some (vs, r') => Some (SArr vs, r')
          | None => None
          end
      | LBrace :: RBrace :: r => Some (SObj [], r)
      | LBrace :: r =>
          match parse_members fuel r with
          | Some (ms, r') => Some (SObj ms, r')
          | None => None
          end
      | _ => None
      end
  end
with parse_items (fuel : nat) (ts : bytes) : option (list syntax * bytes) :=
  match fuel with
  | O => None
  | S fuel =>
      match parse_value fuel ts with
      | Some (v, Comma :: r) =>
          match parse_items fuel r with
          | Some (vs, r') => Some (v :: vs, r')
          | None => None
          end
      | Some (v, RBrack :: r) => Some ([v], r)
      | _ => None
      end
  end
with parse_members (fuel : nat) (ts : bytes) : option (list (string * syntax) * bytes) :=
  match fuel with
  | O => None
  | S fuel =>
      match ts with
      | LStr k :: Colon :: r =>
          match parse_value fuel r with
          | Some (v, Comma :: r') =>
              match parse_members fuel r' with
              | Some (ms, r'') => Some ((k, v) :: ms, r'')
              | None => None
              end
          | Some (v, RBrace :: r') => Some ([(k, v)], r')
          | _ => None
          end
      | _ => None
      end
  end.

(** A byte string is a JSON document when its lexemes, white space apart,
    are exactly one value. *)
Definition parse (b : bytes) : option syntax :=
  match parse_value (S (List.length b)) (strip b) with
  | Some (v, []) => Some v
  | _ => None
  end.

Definition json_Valid (b : bytes) : bool :=
  match parse b with Some _ => true | None => false end.

(** Elements separated by commas. *)
Fixpoint commas (parts : list bytes) : bytes :=
  match parts with
  | [] => []
  | [p] => p
  | p :: rest => p ++ Comma :: commas rest
  end.

(** The compact text of a syntax tree: no white space at all. *)
Fixpoint compact (v : syntax) : bytes :=
  match v with
  | SNull => [LNull]
  | SBool true => [LTrue]
  | SBool false => [LFalse]
  | SNum n => [LNum n]
  | SStr s => [LStr s]
  | SArr items => LBrack :: commas (map compact items) ++ [RBrack]
  | SObj members =>
      LBrace :: commas (map (λ '(k, v), LStr k :: Colon :: compact v) members) ++ [RBrace]
  end.

(** ** Values: what a document denotes

    An object is a finite map from keys to values, as Go's
    [map[string]...] that the libraries decode objects into. *)
Inductive json : Type :=
| JNull
| JBool (b : bool)
| JNum (n : string)
| JStr (s : string)
| JArr (items : list json)
| JObj (fields : gmap string json).

(** Modelled from the spec: the decoders are not part of the sources.
    Decoding the members of an object into a Go map, in the order they
    are written: a key written twice keeps its last value. *)
Fixpoint insert_members {A B} (f : A → B) (members : list (string * A))
    (acc : gmap string B) : gmap string B :=
  match members with
  | [] => acc
  | (k, x) :: rest => insert_members f rest (<[k := f x]> acc)
  end.

Fixpoint value_of (v : syntax) : json :=
  match v with
  | SNull => JNull
  | SBool b => JBool b
  | SNum n => JNum n
  | SStr s => JStr s
  | SArr items => JArr (map value_of items)
  | SObj members => JObj (insert_members value_of members ∅)
  end.

(** The size of a value, for induction over values. *)
Fixpoint jsize (v : json) : nat :=
  match v with
  | JArr items => S (foldr (λ x acc, jsize x + acc) 0 items)
  | JObj fields => S (map_fold (λ _ x acc, jsize x + acc) 0 fields)
  | _ => 1
  end.

Definition is_object (v : json) : bool :=
  match v with
  | JObj _ => true
  | _ => false
  end.

Definition json_Unmarshal (b : bytes) : option json := value_of <$> parse b.

(** ** The key sorter of retrieve.go, lines 266-284 *)

(** [func (sorter *nameFirstKeySorter) Sort(keyA string, keyB string) bool] *)
Definition nameFirstKeySorter_Sort (keyA keyB : string) : bool :=
  if String.eqb keyA "name" then true
  else if String.eqb keyB "name" then false
  else String.ltb keyA keyB.

(** [Sort] as a relation on keys. *)
Definition sorts_before (a b : string) : Prop := nameFirstKeySorter_Sort a b = true.

(** [jsoniter.Config] as far as retrieve.go sets it: [SortMapKeys] and the
    sorter that the registered [nameFirstKeyExtension] hands out through
    [CreateMapKeySorter]. *)
Record jsoniter_API : Type := {
  SortMapKeys : bool;
  DisallowUnknownFields : bool;
  MapKeySorter : string → string → bool
}.

(** ** Encoding a value *)

(** Insertion into a list of members ordered by [less] on their keys. *)
Fixpoint insert_member {A} (less : string → string → bool) (x : string * A)
    (l : list (string * A)) : list (string * A) :=
  match l with
  | [] => [x]
  | y :: l' => if less x.1 y.1 then x :: l else y :: insert_member less x l'
  end.

Definition sort_members {A} (less : string → string → bool)
    (l : list (string * A)) : list (string * A) :=
  foldr (insert_member less) [] l.

(** Modelled from the spec: the encoder of [github.com/skuid/json-iterator-go]
    is not part of the sources. Following section 4.1 ("within any object
    ... at every nesting level"), the members of every object are written
    in the order of the configured key sorter. *)
Fixpoint marshal (less : string → string → bool) (v : json) : syntax :=
  match v with
  | JNull => SNull
  | JBool b => SBool b
  | JNum n => SNum n
  | JStr s => SStr s
  | JArr items => SArr (map (marshal less) items)
  | JObj fields => SObj (sort_members less (map_to_list (marshal less <$> fields)))
  end.

(** Without [SortMapKeys] the members keep the order in which the map
    lists them. *)
Definition json_Marshal (api : jsoniter_API) (v : json) : bytes :=
  compact (marshal (if SortMapKeys api then MapKeySorter api else λ _ _, true) v).

(** ** The merge patch *)

Definition fields_of (target : option json) : gmap string json :=
  match target with
  | Some (JObj fields) => fields
  | _ => ∅
  end.

(** Modelled from the spec: the sources of [github.com/skuid/json-patch]
    are not part of the repository. Section 4.1 asks for a JSON Merge
    Patch: every field of the patch overwrites the same field of the
    target, an explicit null removes the field, objects on both sides are
    merged recursively, and any other patch value replaces the target's.
    A target that is absent or not an object counts as the empty object. *)
Fixpoint merge_patch (target : option json) (patch : json) : json :=
  match patch with
  | JObj pfields =>
      let tfields := fields_of target in
      JObj (map_fold
              (λ k v acc,
                 match v with
                 | JNull => delete k acc
                 | _ => <[k := merge_patch (tfields !! k) v]> acc
                 end)
              tfields pfields)
  | _ => patch
  end.

(** Modelled from the spec: [jsonpatch.MergePatch], with the encoder set by
    [jsonpatch.SetAPI]. Section 4.1: it fails when either input is not
    valid JSON or is not an object at the top level; the result is encoded
    with the configured key order. *)
Definition jsonpatch_MergePatch (api : jsoniter_API) (docData patchData : bytes) : result bytes :=
  match json_Unmarshal docData with
  | Some (JObj doc) =>
      match json_Unmarshal patchData with
      | Some (JObj patch) => Ok (json_Marshal api (merge_patch (Some (JObj doc)) (JObj patch)))
      | _ => Err ErrBadJSONPatch
      end
  | _ => Err ErrBadJSONDoc
  end.

(** ** [json.Indent] of Go's [encoding/json]

    Modelled from the spec: Go's standard library is not part of the
    sources; section 4.1 asks for "one tab per nesting level". The model
    follows the loop of [json.Indent], which re-lays out a document byte
    by byte: white space outside literals is dropped, every opening
    bracket of a non-empty container and every comma is followed by a
    new line, every closing bracket of a non-empty container is preceded
    by one, every colon is followed by one space. A line starts with
    [prefix] and [depth] copies of [indent]. *)
Definition newline (prefix indent : bytes) (depth : nat) : bytes :=
  LNewline :: prefix ++ List.concat (replicate depth indent).
Arguments newline : simpl never.

Fixpoint indent_go (prefix indent : bytes) (needIndent : bool) (depth : nat)
    (src : bytes) : bytes :=
  match src with
  | [] => []
  | c :: rest =>
      if is_space c then indent_go prefix indent needIndent depth rest
      else
        let fresh := needIndent && negb (is_close c) in
        let depth1 := if fresh then S depth else depth in
        let needIndent1 := if fresh then false else needIndent in
        (if fresh then newline prefix indent depth1 else []) ++
        match c with
        | LBrace | LBrack =>
            c :: indent_go prefix indent true depth1 rest
        | Comma =>
            c :: newline prefix indent depth1 ++ indent_go prefix indent needIndent1 depth1 rest
        | Colon =>
            c :: LSpace :: indent_go prefix indent needIndent1 depth1 rest
        | RBrace | RBrack =>
            if needIndent1 then c :: indent_go prefix indent false depth1 rest
            else newline prefix indent (pred depth1)
                   ++ c :: indent_go prefix indent false (pred depth1) rest
        | _ => c :: indent_go prefix indent needIndent1 depth1 rest
        end
  end.

(** The scanner of [json.Indent] rejects a source that is not a JSON
    document; nothing is written then. On a document the depth never
    falls below zero, so a natural number holds it. *)
Definition json_Indent (src prefix indent : bytes) : result bytes :=
  if json_Valid src then Ok (indent_go prefix indent false 0 src) else Err ErrSyntax.

(** ** What section 4.1 asks of the output

    The key order: "if a key named [name] is present, it sorts first; all
    remaining keys sort in ascending lexicographic order", here for the
    keys of one object in the order they are written. *)
Definition name_first (keys : list string) : Prop :=
  ("name" ∈ keys → head keys = Some "name") ∧
  StronglySorted (λ a b, String.ltb a b = true) (filter (λ k, k ≠ "name") keys).

(** The key order at every nesting level of a document. *)
Inductive ordered : syntax → Prop :=
| ordered_null : ordered SNull
| ordered_bool b : ordered (SBool b)
| ordered_num n : ordered (SNum n)
| ordered_str s : ordered (SStr s)
| ordered_arr items : Forall ordered items → ordered (SArr items)
| ordered_obj members :
    name_first members.*1 → Forall (λ kv, ordered kv.2) members → ordered (SObj members).

(** The layout of a text with one tab per nesting level, read lexeme by
    lexeme. [depth] counts the containers that are open. A line starts
    with as many tabs as containers are open around its first lexeme; a
    closing bracket counts as outside the container it closes. A new
    line follows every comma and the opening bracket of every container
    that is not empty, and comes before the closing bracket of such a
    container; a colon is followed by one space; there is no other white
    space. *)
Inductive place : Type :=
| Inline
| AfterOpen
| AfterComma
| AfterColon
| LineStart (tabs : nat) (closing : bool).

Fixpoint laid_out_from (depth : nat) (p : place) (b : bytes) : bool :=
  match b with
  | [] => match p with Inline => true | _ => false end
  | t :: rest =>
      match p with
      | LineStart tabs closing =>
          match t with
          | LTab => laid_out_from depth (LineStart (S tabs) closing) rest
          | RBrace | RBrack =>
              closing && Nat.eqb (S tabs) depth && laid_out_from (pred depth) Inline rest
          | LBrace | LBrack =>
              negb closing && Nat.eqb tabs depth && laid_out_from (S depth) AfterOpen rest
          | LStr _ | LNum _ | LTrue | LFalse | LNull =>
              negb closing && Nat.eqb tabs depth && laid_out_from depth Inline rest
          | _ => false
          end
      | AfterOpen =>
          match t with
          | RBrace | RBrack => laid_out_from (pred depth) Inline rest
          | LNewline => laid_out_from depth (LineStart 0 false) rest
          | _ => false
          end
      | AfterComma =>
          match t with
          | LNewline => laid_out_from depth (LineStart 0 false) rest
          | _ => false
          end
      | AfterColon =>
          match t with
          | LSpace => laid_out_from depth Inline rest
          | _ => false
          end
      | Inline =>
          match t with
          | LNewline => laid_out_from depth (LineStart 0 true) rest
          | Comma => laid_out_from depth AfterComma rest
          | Colon => laid_out_from depth AfterColon rest
          | LBrace | LBrack => laid_out_from (S depth) AfterOpen rest
          | LStr _ | LNum _ | LTrue | LFalse | LNull => laid_out_from depth Inline rest
          | _ => false
          end
      end
  end.

Definition tab_indented (b : bytes) : bool := laid_out_from 0 Inline b.

(** The text of a syntax tree with one tab per nesting level, written
    out directly. *)
Definition tabs (depth : nat) : bytes := replicate depth LTab.
Arguments tabs : simpl never.

(** The state of [json.Indent] around a value: [needIndent] is set right
    after an opening bracket, and the first value of the container then
    goes one level deeper, on a line of its own. *)
Definition lead (needIndent : bool) (depth : nat) : bytes :=
  if needIndent then LNewline :: tabs (S depth) else [].
Definition level (needIndent : bool) (depth : nat) : nat :=
  if needIndent then S depth else depth.

Fixpoint tab_lines (depth : nat) (parts : list bytes) : bytes :=
  match parts with
  | [] => []
  | [p] => p
  | p :: rest => p ++ Comma :: LNewline :: tabs depth ++ tab_lines depth rest
  end.

Fixpoint tab_text (v : syntax) (depth : nat) : bytes :=
  match v with
  | SNull => [LNull]
  | SBool true => [LTrue]
  | SBool false => [LFalse]
  | SNum n => [LNum n]
  | SStr s => [LStr s]
  | SArr [] => [LBrack; RBrack]
  | SArr items =>
      LBrack :: LNewline :: tabs (S depth)
        ++ tab_lines (S depth) (map (λ x, tab_text x (S depth)) items)
        ++ LNewline :: tabs depth ++ [RBrack]
  | SObj [] => [LBrace; RBrace]
  | SObj members =>
      LBrace :: LNewline :: tabs (S depth)
        ++ tab_lines (S depth)
             (map (λ '(k, x), LStr k :: Colon :: LSpace :: tab_text x (S depth)) members)
        ++ LNewline :: tabs depth ++ [RBrace]
  end.

(** ** What section 4.1 asks of the merge, field by field

    [patched target patch result]: [result] is [target] patched with
    [patch]. A field that the patch does not name is kept; a field that
    the patch sets to null is absent from the result; any other field of
    the patch is in the result, patched in its turn. A patch that is not
    an object replaces the target. *)
Inductive patched : option json → json → json → Prop :=
| patched_object target pfields rfields :
    (∀ k, patched_field (fields_of target !! k) (pfields !! k) (rfields !! k)) →
    patched target (JObj pfields) (JObj rfields)
| patched_replace target patch :
    is_object patch = false → patched target patch patch
with patched_field : option json → option json → option json → Prop :=
| field_kept old : patched_field old None old
| field_removed old : patched_field old (Some JNull) None
| field_patched old v r :
    v ≠ JNull → patched old v r → patched_field old (Some v) (Some r).

(* ================================================================== *)
(** * Part III. Effects *)
(* ================================================================== *)

(** An [io.ReadCloser] over the content of an archive entry or over a
    buffer: the bytes it yields, and the error a read ends with, if any. *)
Record Reader : Type := {
  r_data : bytes;
  r_err : option error
}.

(** [ioutil.ReadAll] *)
Definition ioutil_ReadAll (r : Reader) : result bytes :=
  match r_err r with
  | Some err => Err err
  | None => Ok (r_data r)
  end.

(** [ioutil.NopCloser(bytes.NewReader(b))] *)
Definition NopCloser_NewReader (b : bytes) : Reader := {| r_data := b; r_err := None |}.

(** [zip.File]: the header fields the program reads and what [Open] gives. *)
Record File : Type := {
  Name : string;
  Mode : FileMode;
  Open : result Reader
}.

(** [file.FileInfo().IsDir()] is [file.Mode().IsDir()]. *)
Definition File_IsDir (file : File) : bool := FileMode_IsDir (Mode file).

(** An archive payload, the body of one HTTP response: the entries of the
    ZIP container its bytes form ([None] when they form none), and the
    error that reading the body ends with, if any. *)
Record ReadCloser : Type := {
  rc_zip : option (list File);
  rc_err : option error
}.

(** One call of [filepath.Walk] on its callback. *)
Record visit : Type := {
  v_path : string;
  v_isDir : bool;
  v_err : option error
}.

(** The calls the program makes to the operating system and to the
    libraries that do input and output for it. *)
Inductive call : Type :=
| os_Args (i : nat)
| filepath_Abs (path : string)
| os_RemoveAll (path : string)
| ioutil_TempFile (dir pattern : string)
| io_Copy_body (tmpfile : string) (data : ReadCloser)   (* io.Copy into the temporary file *)
| body_Close (data : ReadCloser)                        (* Close on the body *)
| os_Remove (name : string)
| zip_OpenReader (name : string)
| os_Stat (path : string)
| os_MkdirAll (path : string) (perm : FileMode)
| os_OpenFile (path : string) (perm : FileMode)         (* O_CREATE|O_WRONLY|O_TRUNC *)
| io_Copy_file (path : string) (src : Reader)           (* io.Copy(targetFile, fileReader) *)
| file_Close (path : string)
| ioutil_ReadFile (path : string)
| reader_Close (r : Reader)
| filepath_Walk (root : string)                         (* the visits of the walk, in order *)
| filepath_Rel (basepath targpath : string)
| os_Open (path : string)
| zipWriter_Create (name : string)
| io_Copy_zip (name path : string)                      (* io.Copy(zipFileWriter, file) *)
| zipWriter_Close.

(** What each call returns. *)
Definition reply (c : call) : Type :=
  match c with
  | os_Args _ => string
  | filepath_Abs _ => result string
  | os_RemoveAll _ => option error
  | ioutil_TempFile _ _ => result string
  | io_Copy_body _ _ => option error
  | body_Close _ => option error
  | os_Remove _ => option error
  | zip_OpenReader _ => result (list File)
  | os_Stat _ => option error
  | os_MkdirAll _ _ => option error
  | os_OpenFile _ _ => option error
  | io_Copy_file _ _ => option error
  | file_Close _ => option error
  | ioutil_ReadFile _ => result bytes
  | reader_Close _ => option error
  | filepath_Walk _ => list visit
  | filepath_Rel _ _ => result string
  | os_Open _ => option error
  | zipWriter_Create _ => option error
  | io_Copy_zip _ _ => option error
  | zipWriter_Close => option error
  end.

(** A program: it returns, or makes a call and goes on with the reply. *)
Inductive Prog (A : Type) : Type :=
| Ret (a : A)
| Do (c : call) (k : reply c → Prog A).
Arguments Ret {A} a.
Arguments Do {A} c k.

Fixpoint bind {A B} (p : Prog A) (f : A → Prog B) : Prog B :=
  match p with
  | Ret a => f a
  | Do c k => Do c (λ r, bind (k r) f)
  end.

Definition perform (c : call) : Prog (reply c) := Do c Ret.

(** Programs form a monad; [x ← p; q] and [p;; q] are its sequencing. *)
#[global] Instance Prog_ret : MRet Prog := @Ret.
#[global] Instance Prog_bind : MBind Prog := λ A B f p, bind p f.

(** One step of a run: the call made and the reply received. *)
Record event : Type := Ev {
  ev_call : call;
  ev_reply : reply ev_call
}.

(** An environment answers every call from its state. *)
Definition handler (W : Type) : Type := ∀ c : call, W → reply c * W.

(** Running a program in an environment: its result, the final state and
    the calls made, in order. *)
Fixpoint run {W A} (h : handler W) (p : Prog A) (w : W) : A * W * list event :=
  match p with
  | Ret a => (a, w, [])
  | Do c k =>
      let '(r, w1) := h c w in
      let '(a, w2, tr) := run h (k r) w1 in
      (a, w2, Ev c r :: tr)
  end.

Definition result_of {W A} (x : A * W * list event) : A := x.1.1.
Definition world_of {W A} (x : A * W * list event) : W := x.1.2.
Definition trace_of {W A} (x : A * W * list event) : list event := x.2.
Definition calls_of {W A} (x : A * W * list event) : list call := ev_call <$> x.2.

(* ================================================================== *)
(** * Part IV. The source functions *)
(* ================================================================== *)

(** Console output ([fmt.Println] under [verbose], the closing
    [fmt.Printf]) is left out: it takes no part in what is read, written
    or returned. *)

(** ** retrieve.go, lines 245-247: the injected capabilities *)
Definition FileCreator : Type := Reader → string → Prog (option error).
Definition DirectoryCreator : Type := string → FileMode → Prog (option error).
Definition FileReader : Type := string → Prog (result bytes).

(** ** retrieve.go, lines 235-243 *)
Definition createDirectory : DirectoryCreator := λ path fileMode,
  err ← perform (os_Stat path);
  match err with
  | Some _ => perform (os_MkdirAll path fileMode)
  | None => mret None
  end.

(** ** retrieve.go, lines 249-260. [targetFile.Close()] is deferred: it
    runs once the file was opened, whatever the copy returned. *)
Definition writeNewFile : FileCreator := λ fileReader path,
  err ← perform (os_OpenFile path mode_0644);
  match err with
  | Some e => mret (Some e)
  | None =>
      err ← perform (io_Copy_file path fileReader);
      _ ← perform (file_Close path);
      match err with
      | Some e => mret (Some e)
      | None => mret None
      end
  end.

(** ** retrieve.go, lines 262-264 *)
Definition readExistingFile : FileReader := λ path,
  perform (ioutil_ReadFile path).

(** ** retrieve.go, lines 296-303: the encoder configuration *)
Definition jsonConfig : jsoniter_API := {|
  SortMapKeys := true;
  DisallowUnknownFields := false;
  MapKeySorter := nameFirstKeySorter_Sort
|}.

(** ** retrieve.go, lines 305-316: the merge engine's contract
    [merge(existing, incoming)], the part of [combineJSONFile] that works
    on the two byte strings once they are read. *)
Definition combineJSON (existingBytes newBytes : bytes) : result bytes :=
  match jsonpatch_MergePatch jsonConfig existingBytes newBytes with
  | Err err => Err err
  | Ok combined => json_Indent combined [] [LTab]
  end.

(** ** retrieve.go, lines 286-319 *)
Definition combineJSONFile (newFileReader : Reader) (existingFileReader : FileReader)
    (path : string) : Prog (result Reader) :=
  r ← existingFileReader path;
  match r with
  | Err err => mret (Err err)
  | Ok existingBytes =>
      match ioutil_ReadAll newFileReader with
      | Err err => mret (Err err)
      | Ok newBytes =>
          match combineJSON existingBytes newBytes with
          | Err err => mret (Err err)
          | Ok indented => mret (Ok (NopCloser_NewReader indented))
          end
      end
  end.

(** ** retrieve.go, lines 204-232: the rest of
    [readFileFromZipAndWriteToFilesystem] once the intermediate directory
    is there. [fileReader.Close()] is deferred on the reader that [Open]
    returned. *)
Definition writeEntry (file : File) (fullPath : string) (fileAlreadyWritten : bool)
    (fileCreator : FileCreator) (directoryCreator : DirectoryCreator)
    (existingFileReader : FileReader) : Prog (option error) :=
  if File_IsDir file then directoryCreator fullPath (Mode file)
  else
    match Open file with
    | Err err => mret (Some err)
    | Ok fileReader =>
        err ← (if fileAlreadyWritten then
                 r ← combineJSONFile fileReader existingFileReader fullPath;
                 match r with
                 | Err err => mret (Some err)
                 | Ok combined => fileCreator combined fullPath
                 end
               else fileCreator fileReader fullPath);
        _ ← perform (reader_Close fileReader);
        match err with
        | Some e => mret (Some e)
        | None => mret None
        end
    end.

(** The directory part that line 191 computes for [fullPath]. *)
Definition intermediatePath_of (fullPath : string) : string :=
  let pathParts := strings_Split fullPath Separator in
  let pathParts := take (List.length pathParts - 1) pathParts in
  filepath_Join [strings_Join pathParts SeparatorS].

(** ** retrieve.go, lines 183-233 *)
Definition readFileFromZipAndWriteToFilesystem (file : File) (fullPath : string)
    (fileAlreadyWritten : bool) (fileCreator : FileCreator)
    (directoryCreator : DirectoryCreator) (existingFileReader : FileReader)
    : Prog (option error) :=
  let pathParts := strings_Split fullPath Separator in
  if Nat.ltb 0 (List.length pathParts) then
    let intermediatePath := intermediatePath_of fullPath in
    if negb (String.eqb intermediatePath "") then
      err ← directoryCreator intermediatePath mode_0755;
      match err with
      | Some e => mret (Some e)
      | None =>
          writeEntry file fullPath fileAlreadyWritten fileCreator directoryCreator
            existingFileReader
      end
    else mret None
  else
    writeEntry file fullPath fileAlreadyWritten fileCreator directoryCreator
      existingFileReader.

(** ** retrieve.go, line 171: where an entry goes *)
Definition entry_path (targetLocation : string) (file : File) : string :=
  filepath_Join [targetLocation; filepath_FromSlash (Name file)].
Arguments entry_path : simpl never.

(** ** retrieve.go, lines 172-176: "Check to see if we've already written
    to this file in this retrieve". The map is shared with the caller and
    updated in place, so the new map is handed back with the answer. *)
Definition registerPath (pathMap : gmap string bool) (path : string)
    : bool * gmap string bool :=
  let fileAlreadyWritten := bool_decide (is_Some (pathMap !! path)) in
  (fileAlreadyWritten,
   if negb fileAlreadyWritten then <[path := true]> pathMap else pathMap).
Arguments registerPath : simpl never.

(** ** retrieve.go, lines 170-178: the loop of [unzip]. The value that
    [readFileFromZipAndWriteToFilesystem] returns is dropped, as on
    line 177. *)
Fixpoint unzip_entries (files : list File) (targetLocation : string)
    (pathMap : gmap string bool) (fileCreator : FileCreator)
    (directoryCreator : DirectoryCreator) (existingFileReader : FileReader)
    : Prog (gmap string bool) :=
  match files with
  | [] => mret pathMap
  | file :: rest =>
      let path := entry_path targetLocation file in
      let registered := registerPath pathMap path in
      _ ← readFileFromZipAndWriteToFilesystem file path registered.1 fileCreator
            directoryCreator existingFileReader;
      unzip_entries rest targetLocation registered.2 fileCreator directoryCreator
        existingFileReader
  end.

(** The decisions of that loop, apart from the work done on each entry:
    the destination of every entry with the answer of the registry for it,
    and the registry at the end. *)
Fixpoint schedule (files : list File) (targetLocation : string)
    (pathMap : gmap string bool) : list (File * string * bool) :=
  match files with
  | [] => []
  | file :: rest =>
      let path := entry_path targetLocation file in
      let registered := registerPath pathMap path in
      (file, path, registered.1) :: schedule rest targetLocation registered.2
  end.

Fixpoint registry_after (files : list File) (targetLocation : string)
    (pathMap : gmap string bool) : gmap string bool :=
  match files with
  | [] => pathMap
  | file :: rest =>
      registry_after rest targetLocation
        (registerPath pathMap (entry_path targetLocation file)).2
  end.

(** The work done on the entries of a schedule, one after the other. *)
Fixpoint perform_schedule (steps : list (File * string * bool)) (fileCreator : FileCreator)
    (directoryCreator : DirectoryCreator) (existingFileReader : FileReader) : Prog unit :=
  match steps with
  | [] => mret tt
  | (file, path, fileAlreadyWritten) :: rest =>
      _ ← readFileFromZipAndWriteToFilesystem file path fileAlreadyWritten fileCreator
            directoryCreator existingFileReader;
      perform_schedule rest fileCreator directoryCreator existingFileReader
  end.

(** ** retrieve.go, lines 155-181 *)
Definition unzip (sourceFileLocation targetLocation : string) (pathMap : gmap string bool)
    (fileCreator : FileCreator) (directoryCreator : DirectoryCreator)
    (existingFileReader : FileReader) : Prog (gmap string bool * option error) :=
  r ← perform (zip_OpenReader sourceFileLocation);
  match r with
  | Err err => mret (pathMap, Some err)
  | Ok reader_File =>
      err ← (if negb (String.eqb targetLocation "")
             then directoryCreator targetLocation mode_0755
             else mret None);
      match err with
      | Some e => mret (pathMap, Some e)
      | None =>
          pathMap ← unzip_entries reader_File targetLocation pathMap fileCreator
                      directoryCreator existingFileReader;
          mret (pathMap, None)
      end
  end.

(** ** retrieve.go, lines 140-152. Closing [data] is deferred once the
    temporary file exists. *)
Definition createTemporaryZipFile (data : ReadCloser) : Prog (result string) :=
  r ← perform (ioutil_TempFile "" "skuid");
  match r with
  | Err err => mret (Err err)
  | Ok tmpfile =>
      err ← perform (io_Copy_body tmpfile data);
      _ ← perform (body_Close data);
      match err with
      | Some e => mret (Err e)
      | None => mret (Ok tmpfile)
      end
  end.

(** ** retrieve.go, lines 78-88 *)
Definition getFriendlyURL (targetDir : string) : Prog (result string) :=
  if String.eqb targetDir "" then
    arg0 ← perform (os_Args 0);
    r ← perform (filepath_Abs (filepath_Dir arg0));
    match r with
    | Err err => mret (Err err)
    | Ok friendlyResult => mret (Ok friendlyResult)
    end
  else mret (Ok targetDir).

Section writeResultsToDisk.

(** The package variable [targetDir] (set from the command line) and the
    directory names of [types.GetMetadataTypeDirNames()]; neither is
    declared in retrieve.go. *)
Context (targetDir : string) (GetMetadataTypeDirNames : list string).
Context (fileCreator : FileCreator) (directoryCreator : DirectoryCreator)
  (existingFileReader : FileReader).

(** retrieve.go, lines 105-111 *)
Fixpoint removeMetadataDirs (dirNames : list string) : Prog unit :=
  match dirNames with
  | [] => mret tt
  | dirName :: rest =>
      let dirPath := filepath_Join [targetDir; dirName] in
      _ ← perform (os_RemoveAll dirPath);
      removeMetadataDirs rest
  end.

(** retrieve.go, lines 117-133. [deferred] holds the names whose
    [os.Remove] was deferred so far, the latest first; the loop returns it
    with the error that ends it, if any. *)
Fixpoint processResults (results : list ReadCloser) (pathMap : gmap string bool)
    (deferred : list string) : Prog (option error * gmap string bool * list string) :=
  match results with
  | [] => mret (None, pathMap, deferred)
  | result :: rest =>
      r ← createTemporaryZipFile result;
      match r with
      | Err err => mret (Some err, pathMap, deferred)
      | Ok tmpFileName =>
          u ← unzip tmpFileName targetDir pathMap fileCreator directoryCreator
                existingFileReader;
          let deferred := tmpFileName :: deferred in
          match u.2 with
          | Some err => mret (Some err, u.1, deferred)
          | None => processResults rest u.1 deferred
          end
      end
  end.

(** The deferred calls run when the function returns, last deferred first. *)
Fixpoint runDeferred (deferred : list string) : Prog unit :=
  match deferred with
  | [] => mret tt
  | tmpFileName :: rest =>
      _ ← perform (os_Remove tmpFileName);
      runDeferred rest
  end.

(** ** retrieve.go, lines 90-138 *)
Definition writeResultsToDisk (results : list ReadCloser) : Prog (option error) :=
  r ← getFriendlyURL targetDir;
  match r with
  | Err err => mret (Some err)
  | Ok targetDirFriendly =>
      _ ← removeMetadataDirs GetMetadataTypeDirNames;
      let pathMap : gmap string bool := ∅ in
      out ← processResults results pathMap [];
      _ ← runDeferred out.2;
      mret out.1.1
  end.

End writeResultsToDisk.

(** ** ziputils: the callback that [Archive] hands to [filepath.Walk],
    lines 462-489. [file.Close()] is deferred once the file is open. *)
Definition Archive_visit (basePath : string) (v : visit) : Prog (option error) :=
  if bool_decide (is_Some (v_err v)) || v_isDir v then mret (v_err v)
  else
    r ← perform (filepath_Rel basePath (v_path v));
    match r with
    | Err err => mret (Some err)
    | Ok relativeFilePath =>
        let archivePath := path_Join (filepath_SplitList relativeFilePath) in
        e ← perform (os_Open (v_path v));
        match e with
        | Some err => mret (Some err)
        | None =>
            e ← perform (zipWriter_Create archivePath);
            err ← match e with
                  | Some err => mret (Some err)
                  | None => perform (io_Copy_zip archivePath (v_path v))
                  end;
            _ ← perform (file_Close (v_path v));
            mret err
        end
    end.

(** [filepath.Walk] calls the function on every visit, in order, and
    stops at the first error it returns. *)
Fixpoint walk (walkFn : visit → Prog (option error)) (visits : list visit)
    : Prog (option error) :=
  match visits with
  | [] => mret None
  | v :: rest =>
      err ← walkFn v;
      match err with
      | Some e => mret (Some e)
      | None => walk walkFn rest
      end
  end.

Definition filepath_Walk_with (root : string) (walkFn : visit → Prog (option error))
    : Prog (option error) :=
  visits ← perform (filepath_Walk root);
  walk walkFn visits.

(** ** ziputils.Archive, lines 457-495 ([zip.NewWriter] allocates the
    writer and makes no call to the environment). *)
Definition Archive (inFilePath : string) : Prog (option error) :=
  let basePath := filepath_Dir inFilePath in
  err ← filepath_Walk_with inFilePath (Archive_visit basePath);
  match err with
  | Some e => mret (Some e)
  | None => perform zipWriter_Close
  end.

(** ** ziputils.CreateTestZip, lines 417-448

    [CreateTestZip] builds its archive in a buffer in memory: its
    writer makes no call to the environment of the functions above.
    The steps of that writer are kept as calls of their own, so that a
    run shows which of them were made and what each returned. *)

(** [TestFile], lines 417-420; the body is kept as the bytes that
    [[]byte(file.Body)] hands to the writer. *)
Module TestFile.
Record t : Type := mk { Name : string; Body : bytes }.
End TestFile.

Inductive zip_call : Type :=
| zw_Create (name : string)               (* zipWriter.Create(file.Name) *)
| zw_Write (name : string) (p : bytes)    (* zipFile.Write, on the entry created for name *)
| zw_Close.                               (* zipWriter.Close() *)

(** Each of these calls returns an error or nil. *)
Inductive ZipProg (A : Type) : Type :=
| ZRet (a : A)
| ZDo (c : zip_call) (k : option error → ZipProg A).
Arguments ZRet {A} a.
Arguments ZDo {A} c k.

Fixpoint zip_bind {A B} (p : ZipProg A) (f : A → ZipProg B) : ZipProg B :=
  match p with
  | ZRet a => f a
  | ZDo c k => ZDo c (λ r, zip_bind (k r) f)
  end.

Definition zip_perform (c : zip_call) : ZipProg (option error) := ZDo c ZRet.

#[global] Instance ZipProg_ret : MRet ZipProg := @ZRet.
#[global] Instance ZipProg_bind : MBind ZipProg := λ A B f p, zip_bind p f.

(** A writer answers every call from its state; a run gives the result,
    the final state and the calls made with what they returned. *)
Definition zip_handler (Z : Type) : Type := zip_call → Z → option error * Z.

Fixpoint zip_run {Z A} (h : zip_handler Z) (p : ZipProg A) (z : Z)
    : A * Z * list (zip_call * option error) :=
  match p with
  | ZRet a => (a, z, [])
  | ZDo c k =>
      let '(r, z1) := h c z in
      let '(a, z2, tr) := zip_run h (k r) z1 in
      (a, z2, (c, r) :: tr)
  end.

(** Lines 430-439: the loop over the files. *)
Fixpoint CreateTestZip_files (files : list TestFile.t) : ZipProg (option error) :=
  match files with
  | [] => mret None
  | file :: rest =>
      err ← zip_perform (zw_Create (TestFile.Name file));
      match err with
      | Some e => mret (Some e)
      | None =>
          err ← zip_perform (zw_Write (TestFile.Name file) (TestFile.Body file));
          match err with
          | Some e => mret (Some e)
          | None => CreateTestZip_files rest
          end
      end
  end.

(** Lines 423-448. With a nil error the function returns a reader of the
    buffer, which is in the state of the writer; with an error it
    returns no reader. *)
Definition CreateTestZip (files : list TestFile.t) : ZipProg (option error) :=
  err ← CreateTestZip_files files;
  match err with
  | Some e => mret (Some e)
  | None => zip_perform zw_Close
  end.

(* ================================================================== *)
(** * Part V. An in-memory environment *)
(* ================================================================== *)

(** A small file system held in memory, in the manner of the fakes that
    the injected capabilities exist for. It stands in for the operating
    system in the scenarios below; the general theorems quantify over
    every environment and do not depend on it. *)
Record MemFS : Type := {
  files : gmap string bytes;                  (* regular files and their content *)
  dirs : gset string;                         (* directories *)
  spool : gmap string (option (list File));   (* temporary files: the archive each holds *)
  tmpCount : nat;                             (* temporary files created so far *)
  faulty : gset string;                       (* paths on which opening fails *)
  zw_entries : list (string * bytes);         (* entries of the archive being built *)
  zw_closed : bool                            (* whether the archive was finalized *)
}.

Definition with_files (f : gmap string bytes → gmap string bytes) (w : MemFS) : MemFS :=
  {| files := f (files w); dirs := dirs w; spool := spool w; tmpCount := tmpCount w;
     faulty := faulty w; zw_entries := zw_entries w; zw_closed := zw_closed w |}.
Definition with_dirs (f : gset string → gset string) (w : MemFS) : MemFS :=
  {| files := files w; dirs := f (dirs w); spool := spool w; tmpCount := tmpCount w;
     faulty := faulty w; zw_entries := zw_entries w; zw_closed := zw_closed w |}.
Definition with_spool (f : gmap string (option (list File)) → gmap string (option (list File)))
    (w : MemFS) : MemFS :=
  {| files := files w; dirs := dirs w; spool := f (spool w); tmpCount := tmpCount w;
     faulty := faulty w; zw_entries := zw_entries w; zw_closed := zw_closed w |}.
Definition with_tmpCount (n : nat) (w : MemFS) : MemFS :=
  {| files := files w; dirs := dirs w; spool := spool w; tmpCount := n;
     faulty := faulty w; zw_entries := zw_entries w; zw_closed := zw_closed w |}.
Definition with_zw (es : list (string * bytes)) (closed : bool) (w : MemFS) : MemFS :=
  {| files := files w; dirs := dirs w; spool := spool w; tmpCount := tmpCount w;
     faulty := faulty w; zw_entries := es; zw_closed := closed |}.

Definition empty_fs : MemFS :=
  {| files := ∅; dirs := ∅; spool := ∅; tmpCount := 0; faulty := ∅;
     zw_entries := []; zw_closed := false |}.

(** [p] is [root] or lies below it. *)
Definition under (root p : string) : bool :=
  String.eqb p root || String.prefix (root +:+ SeparatorS) p.

(** [path] and the directories above it, as [os.MkdirAll] creates them. *)
Definition ancestors (path : string) : list string :=
  let parts := strings_Split path Separator in
  filter (λ p, p ≠ "")
    ((λ n, strings_Join (take n parts) SeparatorS) <$> seq 1 (List.length parts)).

Definition exists_at (w : MemFS) (path : string) : bool :=
  bool_decide (is_Some (files w !! path)) || bool_decide (path ∈ dirs w).

Definition append_entry (name : string) (data : bytes) (es : list (string * bytes))
    : list (string * bytes) :=
  (λ e, if String.eqb e.1 name then (e.1, e.2 ++ data) else e) <$> es.

Definition mem_handler : handler MemFS := λ c,
  match c as c0 return MemFS → reply c0 * MemFS with
  | os_Args _ => λ w, ("/usr/local/bin/skuid", w)
  | filepath_Abs path => λ w,
      (Ok (if rooted path then filepath_Clean path else filepath_Join ["/work"; path]), w)
  | os_RemoveAll path => λ w,
      (None,
       with_files (filter (λ kv, under path kv.1 = false))
         (with_dirs (filter (λ p, under path p = false)) w))
  | ioutil_TempFile dir pattern => λ w,
      let name := filepath_Join [if String.eqb dir "" then "/tmp" else dir;
                                 pattern +:+ pretty (tmpCount w)] in
      if bool_decide (name ∈ faulty w) then (Err (ErrOS "open" name), w)
      else (Ok name, with_tmpCount (S (tmpCount w)) (with_spool (<[name := None]>) w))
  | io_Copy_body tmpfile data => λ w,
      match rc_err data with
      | Some e => (Some e, w)
      | None => (None, with_spool (<[tmpfile := rc_zip data]>) w)
      end
  | body_Close _ => λ w, (None, w)
  | os_Remove name => λ w,
      if exists_at w name || bool_decide (is_Some (spool w !! name))
      then (None, with_spool (delete name)
                    (with_files (delete name) (with_dirs (λ d, d ∖ {[name]}) w)))
      else (Some (ErrOS "remove" name), w)
  | zip_OpenReader name => λ w,
      match spool w !! name with
      | Some (Some entries) => (Ok entries, w)
      | Some None => (Err ErrZip, w)
      | None => (Err (ErrOS "open" name), w)
      end
  | os_Stat path => λ w,
      (if exists_at w path then None else Some (ErrOS "stat" path), w)
  | os_MkdirAll path _ => λ w,
      if existsb (λ p, bool_decide (is_Some (files w !! p))) (ancestors path)
      then (Some (ErrOS "mkdir" path), w)
      else (None, with_dirs (λ d, d ∪ list_to_set (ancestors path)) w)
  | os_OpenFile path _ => λ w,
      if bool_decide (path ∈ faulty w) || bool_decide (path ∈ dirs w)
         || negb (String.eqb (filepath_Dir path) "." || bool_decide (filepath_Dir path ∈ dirs w))
      then (Some (ErrOS "open" path), w)
      else (None, with_files (<[path := []]>) w)
  | io_Copy_file path src => λ w,
      (r_err src, with_files (<[path := default [] (files w !! path) ++ r_data src]>) w)
  | file_Close _ => λ w, (None, w)
  | ioutil_ReadFile path => λ w,
      match files w !! path with
      | Some b => (Ok b, w)
      | None => (Err (ErrOS "open" path), w)
      end
  | reader_Close _ => λ w, (None, w)
  | filepath_Walk root => λ w,
      if exists_at w root then
        ((λ p, {| v_path := p; v_isDir := bool_decide (p ∈ dirs w); v_err := None |}) <$>
           merge_sort String.le
             (filter (λ p, under root p = true) (elements (dom (files w) ∪ dirs w))), w)
      else ([ {| v_path := root; v_isDir := false; v_err := Some (ErrOS "lstat" root) |} ], w)
  | filepath_Rel basepath targpath => λ w,
      (if String.eqb basepath "." then Ok targpath
       else if String.prefix (basepath +:+ SeparatorS) targpath
            then Ok (String.substring (S (String.length basepath))
                       (String.length targpath - S (String.length basepath)) targpath)
            else Err (ErrOS "rel" targpath), w)
  | os_Open path => λ w,
      (if bool_decide (path ∈ faulty w) || negb (bool_decide (is_Some (files w !! path)))
       then Some (ErrOS "open" path) else None, w)
  | zipWriter_Create name => λ w,
      if zw_closed w then (Some (ErrIO "zip: write to closed archive"), w)
      else (None, with_zw (zw_entries w ++ [(name, [])]) false w)
  | io_Copy_zip name path => λ w,
      (None, with_zw (append_entry name (default [] (files w !! path)) (zw_entries w))
               (zw_closed w) w)
  | zipWriter_Close => λ w, (None, with_zw (zw_entries w) true w)
  end.

Definition with_faulty (f : gset string) (w : MemFS) : MemFS :=
  {| files := files w; dirs := dirs w; spool := spool w; tmpCount := tmpCount w;
     faulty := f; zw_entries := zw_entries w; zw_closed := zw_closed w |}.

(** ** Scenarios *)

(** A regular archive entry with the given content, and a payload that
    reads without error and holds the given entries. *)
Definition entry (name : string) (content : bytes) : File :=
  {| Name := name; Mode := mode_0644; Open := Ok {| r_data := content; r_err := None |} |}.

Definition archive (entries : list File) : ReadCloser :=
  {| rc_zip := Some entries; rc_err := None |}.


(** [{"name":"Foo","id":1}] and [{"id":2,"extra":true}] *)
Definition doc_foo_1 : bytes :=
  [LBrace; LStr "name"; Colon; LStr "Foo"; Comma; LStr "id"; Colon; LNum "1"; RBrace].
Definition doc_foo_2 : bytes :=
  [LBrace; LStr "id"; Colon; LNum "2"; Comma; LStr "extra"; Colon; LTrue; RBrace].

(** The merged document, as [json.Indent] lays it out with one tab. *)
Definition doc_foo_merged : bytes :=
  [LBrace; LNewline;
   LTab; LStr "name"; Colon; LSpace; LStr "Foo"; Comma; LNewline;
   LTab; LStr "extra"; Colon; LSpace; LTrue; Comma; LNewline;
   LTab; LStr "id"; Colon; LSpace; LNum "2"; LNewline;
   RBrace].


(** A file system holding a page and its directory. *)
Definition fs_with_page : MemFS :=
  with_files (<["pages/Foo.xml.json" := [LBrace; RBrace]]>)
    (with_dirs (λ d, d ∪ {["pages"]}) empty_fs).

(** Two pages in one archive, spooled to a temporary file; the first
    page's destination cannot be opened for writing. *)
Definition page_a : File := entry "pages/A.json" [LBrace; LStr "name"; Colon; LStr "A"; RBrace].
Definition page_b : File := entry "pages/B.json" [LBrace; LStr "name"; Colon; LStr "B"; RBrace].

Definition fs_first_page_locked : MemFS :=
  with_spool (<["/tmp/skuid0" := Some [page_a; page_b]]>)
    (with_faulty {["out/pages/A.json"]} empty_fs).

(** A binary asset that was already written in this run, and an archive
    that brings it again, followed by a page. *)
Definition logo : File := entry "files/logo.png" [LJunk "137"%char; LJunk "P"%char].

Definition fs_logo_written : MemFS :=
  with_spool (<["/tmp/skuid1" := Some [logo; page_b]]>)
    (with_files (<["out/files/logo.png" := [LJunk "137"%char; LJunk "P"%char]]>)
       (with_dirs (λ d, d ∪ {["out"]} ∪ {["out/files"]}) empty_fs)).

(** A payload whose body breaks off while it is read. *)
Definition broken_body : ReadCloser :=
  {| rc_zip := Some [page_a]; rc_err := Some (ErrIO "unexpected EOF") |}.

(** An archive whose only entry sits at its top level. *)
Definition root_txt : File := entry "root.txt" [LStr "hello"].

(** A directory to archive, one of whose files cannot be opened. *)
Definition fs_site_unreadable : MemFS :=
  with_faulty {["site/b.json"]}
    (with_files (λ m, <["site/a.json" := [LBrace; RBrace]]> (<["site/b.json" := [LBrace; RBrace]]> m))
       (with_dirs (λ d, d ∪ {["site"]}) empty_fs)).

(** ** An archive writer in memory

    The entries of the archive being built and whether it was
    finalized. [Create] fails on the names in [refused], for runs in
    which a step of the writer fails. *)
Record MemZip : Type := {
  mz_entries : list (string * bytes);
  mz_closed : bool
}.

Definition mem_zip_handler (refused : gset string) : zip_handler MemZip := λ c z,
  match c with
  | zw_Create name =>
      if bool_decide (name ∈ refused) then (Some (ErrIO "zip: entry refused"), z)
      else (None, {| mz_entries := mz_entries z ++ [(name, [])]; mz_closed := mz_closed z |})
  | zw_Write name p =>
      (None, {| mz_entries := append_entry name p (mz_entries z); mz_closed := mz_closed z |})
  | zw_Close => (None, {| mz_entries := mz_entries z; mz_closed := true |})
  end.

Definition empty_zip : MemZip := {| mz_entries := []; mz_closed := false |}.

(* ================================================================== *)
(** * Part VI. Notions and tactics of the proofs *)
(* ================================================================== *)

(** Members in the order of their keys. *)
Abbreviation key_sorted less :=
  (StronglySorted (λ x y : string * _, less x.1 y.1 = true)).

(** A lexeme that can start the text of a value. *)
Definition starts_value (t : lexeme) : bool :=
  match t with
  | LBrace | LBrack | LStr _ | LNum _ | LTrue | LFalse | LNull => true
  | _ => false
  end.

(** [f] gives the compact text of a part of a document and [g] its text
    with tabs: [json.Indent] turns the one into the other, in either
    state. *)
Abbreviation indents f g x :=
  (∀ b d rest,
     indent_go [] [LTab] b d (f x ++ rest) =
     lead b d ++ g x (level b d) ++ indent_go [] [LTab] false (level b d) rest).

(** The text [g x depth] is laid out when it starts a line at that depth. *)
Abbreviation on_own_line g x :=
  (∀ depth rest,
     laid_out_from depth (LineStart depth false) (g x depth ++ rest) =
     laid_out_from depth Inline rest).

(** Brings nested appends into right-nested form. *)
Ltac norm_app := repeat first [rewrite <-app_assoc | progress (cbn [app])].

(** ** Reading a run *)

(** Every call that the program makes, in whatever environment, is one
    that [P] allows. *)
Definition only {A} (P : call → Prop) (p : Prog A) : Prop :=
  ∀ (W : Type) (h : handler W) (w : W), Forall P (calls_of (run h p w)).

(** The temporary file that a step of a run filled: [io.Copy] of a body
    into it returned nil. *)
Definition spooled_file (ev : event) : option string :=
  match ev with
  | Ev c r =>
      match c as c0 return reply c0 → option string with
      | io_Copy_body tmpfile _ => λ r, match r with None => Some tmpfile | Some _ => None end
      | _ => λ _, None
      end r
  end.

(** The name that a call of [os.Remove] removes. *)
Definition removed_file (c : call) : option string :=
  match c with
  | os_Remove name => Some name
  | _ => None
  end.

(** The file that a step of a run opened for reading: [os.Open] returned
    nil. *)
Definition opened_file (ev : event) : option string :=
  match ev with
  | Ev c r =>
      match c as c0 return reply c0 → option string with
      | os_Open path => λ r, match r with None => Some path | Some _ => None end
      | _ => λ _, None
      end r
  end.

(** The file that a call of [Close] closes. *)
Definition closed_file (c : call) : option string :=
  match c with
  | file_Close path => Some path
  | _ => None
  end.

(** ** Reading a path *)

(** The elements of a name that [filepath.Clean] keeps when none of them
    is [..]: those that are neither empty nor [.]. *)
Definition kept (name : string) : list string :=
  filter (λ e, e ≠ "" ∧ e ≠ ".") (strings_Split name Separator).

(** An element that [filepath.Clean] keeps on its stack: not empty, not
    [.], and not the separator alone. *)
Definition stack_element (x : string) : Prop := x ≠ "" ∧ x ≠ "." ∧ x ≠ SeparatorS.

(** The path of the elements [elems] below the cleaned directory [dir]. *)
Definition descend (dir : string) (elems : list string) : string :=
  match elems with
  | [] => dir
  | _ =>
      if String.eqb dir "." then strings_Join elems SeparatorS
      else if String.eqb dir SeparatorS then SeparatorS +:+ strings_Join elems SeparatorS
      else dir +:+ SeparatorS +:+ strings_Join elems SeparatorS
  end.

(** A path without directory part: it has no separator, or its only
    separator is the first character. *)
Definition no_directory_part (p : string) : bool :=
  match strings_Split p Separator with
  | [_] => true
  | [first; _] => String.eqb first ""
  | _ => false
  end.

(** ** Kinds of calls *)

(** The calls of an extraction with the capabilities of retrieve.go:
    the archive is opened, directories are looked up and made, files are
    opened for writing with mode 0644, written and closed, existing
    files are read, readers are closed. *)
Definition extracts (c : call) : Prop :=
  match c with
  | os_OpenFile _ perm => perm = mode_0644
  | zip_OpenReader _ | os_Stat _ | os_MkdirAll _ _
  | io_Copy_file _ _ | file_Close _ | ioutil_ReadFile _ | reader_Close _ => True
  | _ => False
  end.

(** The reader that a call of [Close] closes. *)
Definition closed_reader (c : call) : option Reader :=
  match c with
  | reader_Close r => Some r
  | _ => None
  end.

(** A call that neither fills a temporary file nor removes anything. *)
Definition spares (c : call) : Prop :=
  match c with
  | os_Remove _ | os_RemoveAll _ | io_Copy_body _ _ => False
  | _ => True
  end.

(** A file reader that finds nothing, for runs that must not read. *)
Definition no_FileReader : FileReader := λ path, mret (Err (ErrOS "open" path)).

(** A temporary file that holds no archive. *)
Definition fs_spool_no_archive : MemFS :=
  with_spool (<["/tmp/skuid0" := None]>) empty_fs.

(** An environment in which the working directory cannot be found, so
    that [filepath.Abs] fails on relative paths; otherwise the in-memory
    one. *)
Definition lost_cwd_handler : handler MemFS := λ c,
  match c as c0 return MemFS → reply c0 * MemFS with
  | filepath_Abs path => λ w,
      (if rooted path then Ok (filepath_Clean path) else Err (ErrOS "getwd" "."), w)
  | os_Args _ => λ w, ("skuid", w)
  | c0 => mem_handler c0
  end.

(** What an earlier retrieval into [out] left behind. *)
Definition fs_earlier_retrieval : MemFS :=
  with_files (<["out/pages/Old.json" := [LBrace; RBrace]]>)
    (with_dirs (λ d, d ∪ {["out"]} ∪ {["out/pages"]}) empty_fs).

(** The calls of an archive builder that walks [root] and names the
    entries relative to [basePath]: the walk of [root], relative paths
    taken from [basePath], files opened for reading and closed, entries
    created and filled, the writer closed. *)
Definition archives (root basePath : string) (c : call) : Prop :=
  match c with
  | filepath_Walk walked => walked = root
  | filepath_Rel basepath _ => basepath = basePath
  | os_Open _ | zipWriter_Create _ | io_Copy_zip _ _ | file_Close _ | zipWriter_Close => True
  | _ => False
  end.

(** The file whose content a call copies into the archive. *)
Definition copied_file (c : call) : option string :=
  match c with
  | io_Copy_zip _ path => Some path
  | _ => None
  end.

(** An element of a path that is a name: not empty, neither [.] nor
    [..], and free of separators. *)
Definition plain (e : string) : Prop :=
  e ≠ "" ∧ e ≠ "." ∧ e ≠ ".." ∧ strings_Split e Separator = [e].

(** A directory to archive, all of whose files can be read. *)
Definition fs_site : MemFS :=
  with_files (λ m, <["site/a.json" := [LBrace; RBrace]]> (<["site/b.json" := [LBrace; RBrace]]> m))
    (with_dirs (λ d, d ∪ {["site"]}) empty_fs).

(** A directory entry of an archive, as [zip] records it: the name ends
    with a slash and the mode has the directory bit. *)
Definition pages_dir : File :=
  {| Name := "pages/"; Mode := (2 ^ 31 + 493)%N; Open := Err ErrZip |}.

(** ** Reading a run of the archive writer *)

(** The steps that [CreateTestZip] takes for its files when none fails. *)
Definition zip_steps (files : list TestFile.t) : list zip_call :=
  flat_map (λ file, [zw_Create (TestFile.Name file);
                     zw_Write (TestFile.Name file) (TestFile.Body file)]) files.

(** Calls that all returned nil. *)
Definition succeeded (calls : list zip_call) : list (zip_call * option error) :=
  (λ c, (c, None)) <$> calls.

(** The payload whose body a call closes. *)
Definition closed_body (c : call) : option ReadCloser :=
  match c with
  | body_Close data => Some data
  | _ => None
  end.

(** A tree of directories only. *)
Definition fs_empty_site : MemFS :=
  with_dirs (λ d, d ∪ {["site"]} ∪ {["site/pages"]}) empty_fs.


(* ================================================================== *)
(** * Part VII. Lemmas and theorems *)
(* ================================================================== *)

(** ** Paths *)

Example strings_Split_path :
  strings_Split "pages/Foo.xml.json" Separator = ["pages"; "Foo.xml.json"].
Proof. reflexivity. Qed.

Example filepath_Join_target :
  filepath_Join ["out"; "pages/Foo.xml.json"] = "out/pages/Foo.xml.json".
Proof. reflexivity. Qed.

Example filepath_Join_empty_target : filepath_Join [""; "root.txt"] = "root.txt".
Proof. reflexivity. Qed.

Example filepath_Clean_elements : filepath_Clean "a//b/./c/../d/" = "a/b/d".
Proof. reflexivity. Qed.

Example filepath_Clean_rooted : filepath_Clean "/../a/.." = "/".
Proof. reflexivity. Qed.

Example filepath_Dir_nested : filepath_Dir "a/b/c" = "a/b".
Proof. reflexivity. Qed.

(** ** Running programs *)

Section run.
Context {W : Type} (h : handler W).

Lemma run_bind {A B} (p : Prog A) (f : A → Prog B) (w : W) :
  run h (p ≫= f) w =
  let r1 := run h p w in
  let r2 := run h (f r1.1.1) r1.1.2 in
  (r2.1.1, r2.1.2, r1.2 ++ r2.2).
Proof.
  unfold mbind, Prog_bind. revert w.
  induction p as [a|c k IH]; intros w; simpl.
  - by destruct (run h (f a) w) as [[??]?].
  - destruct (h c w) as [r w1]. rewrite IH. simpl.
    by destruct (run h (k r) w1) as [[??]?].
Qed.

Lemma run_ret {A} (a : A) (w : W) : run h (mret a) w = (a, w, []).
Proof. reflexivity. Qed.

Lemma run_Do {A} (c : call) (k : reply c → Prog A) (w : W) :
  run h (Do c k) w =
  let r := run h (k (h c w).1) (h c w).2 in
  (r.1.1, r.1.2, Ev c (h c w).1 :: r.2).
Proof. simpl. destruct (h c w) as [r w1]. simpl. by destruct (run h (k r) w1) as [[??]?]. Qed.

Lemma calls_of_bind {A B} (p : Prog A) (f : A → Prog B) (w : W) :
  calls_of (run h (p ≫= f) w) =
  calls_of (run h p w) ++ calls_of (run h (f (result_of (run h p w))) (world_of (run h p w))).
Proof. rewrite run_bind. unfold calls_of, result_of, world_of. simpl. by rewrite fmap_app. Qed.

End run.

(** ** createDirectory *)

Lemma run_createDirectory {W} (h : handler W) (w : W) path fileMode :
  run h (createDirectory path fileMode) w =
  match (h (os_Stat path) w).1 with
  | Some e =>
      let w1 := (h (os_Stat path) w).2 in
      ((h (os_MkdirAll path fileMode) w1).1, (h (os_MkdirAll path fileMode) w1).2,
       [Ev (os_Stat path) (Some e);
        Ev (os_MkdirAll path fileMode) (h (os_MkdirAll path fileMode) w1).1])
  | None => (None, (h (os_Stat path) w).2, [Ev (os_Stat path) None])
  end.
Proof.
  unfold createDirectory. simpl.
  destruct (h (os_Stat path) w) as [[e|] w1]; simpl; [|done].
  by destruct (h (os_MkdirAll path fileMode) w1) as [r w2].
Qed.

(** C10. When [os.Stat] finds something at the path, be it a directory
    or a regular file, [createDirectory] returns nil and its only call is
    that [os.Stat]: nothing is created or changed. [os.MkdirAll] is
    called only when [os.Stat] returned an error, and then on that path
    with that mode. *)
Theorem createDirectory_existing_untouched :
  ∀ (W : Type) (h : handler W) (w : W) (path : string) (fileMode : FileMode),
    (h (os_Stat path) w).1 = None →
    let r := run h (createDirectory path fileMode) w in
    result_of r = None ∧
    calls_of r = [os_Stat path] ∧
    world_of r = (h (os_Stat path) w).2 ∧
    (∀ (w0 : W) p m,
       os_MkdirAll p m ∈ calls_of (run h (createDirectory path fileMode) w0) →
       (h (os_Stat path) w0).1 ≠ None ∧ p = path ∧ m = fileMode).
Proof.
  intros W h w path fileMode Hstat r. subst r.
  rewrite run_createDirectory, Hstat. split_and!; try reflexivity.
  intros w0 p m. rewrite run_createDirectory.
  destruct (h (os_Stat path) w0).1 as [e|] eqn:E; unfold calls_of; simpl.
  - intros Hin. split; [done|].
    apply elem_of_cons in Hin as [Hin|Hin]; [discriminate|].
    apply list_elem_of_singleton in Hin. by injection Hin.
  - intros Hin. apply list_elem_of_singleton in Hin. discriminate.
Qed.


(** The in-memory file system reports a regular file and a directory as
    existing; on both [createDirectory] leaves it as it was. *)
Lemma createDirectory_existing_untouched_witness :
  (let r := run mem_handler (createDirectory "pages/Foo.xml.json" mode_0755) fs_with_page in
   result_of r = None ∧ calls_of r = [os_Stat "pages/Foo.xml.json"] ∧ world_of r = fs_with_page) ∧
  (let r := run mem_handler (createDirectory "pages" mode_0755) fs_with_page in
   result_of r = None ∧ calls_of r = [os_Stat "pages"] ∧ world_of r = fs_with_page).
Proof.
  split.
  - pose proof (createDirectory_existing_untouched MemFS mem_handler fs_with_page
                  "pages/Foo.xml.json" mode_0755 eq_refl) as (H1 & H2 & H3 & _).
    split_and!; [exact H1 | exact H2 | exact H3].
  - pose proof (createDirectory_existing_untouched MemFS mem_handler fs_with_page
                  "pages" mode_0755 eq_refl) as (H1 & H2 & H3 & _).
    split_and!; [exact H1 | exact H2 | exact H3].
Defined.

(** ** ziputils.Archive *)

Lemma Archive_visit_never_closes {W} (h : handler W) (w : W) basePath v :
  zipWriter_Close ∉ calls_of (run h (Archive_visit basePath v) w).
Proof.
  unfold Archive_visit, calls_of.
  destruct (bool_decide (is_Some (v_err v)) || v_isDir v); simpl;
    [apply not_elem_of_nil|].
  destruct (h (filepath_Rel basePath (v_path v)) w) as [[rel|e] w1]; simpl.
  2: { intros Hin. apply list_elem_of_singleton in Hin. discriminate. }
  destruct (h (os_Open (v_path v)) w1) as [[e|] w2]; simpl.
  { intros Hin. repeat (apply elem_of_cons in Hin as [Hin|Hin]; [discriminate|]).
    by apply not_elem_of_nil in Hin. }
  destruct (h (zipWriter_Create _) w2) as [[e|] w3]; simpl.
  - destruct (h (file_Close (v_path v)) w3) as [r w4]; simpl.
    intros Hin. repeat (apply elem_of_cons in Hin as [Hin|Hin]; [discriminate|]).
    by apply not_elem_of_nil in Hin.
  - destruct (h (io_Copy_zip _ _) w3) as [r w4]; simpl.
    destruct (h (file_Close (v_path v)) w4) as [r' w5]; simpl.
    intros Hin. repeat (apply elem_of_cons in Hin as [Hin|Hin]; [discriminate|]).
    by apply not_elem_of_nil in Hin.
Qed.

Lemma walk_never_closes {W} (h : handler W) basePath visits (w : W) :
  zipWriter_Close ∉ calls_of (run h (walk (Archive_visit basePath) visits) w).
Proof.
  revert w. induction visits as [|v visits IH]; intros w; simpl.
  - apply not_elem_of_nil.
  - change (zipWriter_Close ∉ calls_of (run h
      (Archive_visit basePath v ≫= λ err,
         match err with
         | Some e => mret (Some e)
         | None => walk (Archive_visit basePath) visits
         end) w)).
    rewrite calls_of_bind. rewrite not_elem_of_app. split.
    + apply Archive_visit_never_closes.
    + destruct (result_of _); [apply not_elem_of_nil | apply IH].
Qed.

Lemma filepath_Walk_with_never_closes {W} (h : handler W) root basePath (w : W) :
  zipWriter_Close ∉ calls_of (run h (filepath_Walk_with root (Archive_visit basePath)) w).
Proof.
  unfold filepath_Walk_with. rewrite calls_of_bind, not_elem_of_app. split.
  - unfold perform, calls_of. simpl. destruct (h (filepath_Walk root) w). simpl.
    intros Hin. apply list_elem_of_singleton in Hin. discriminate.
  - apply walk_never_closes.
Qed.

(** C7, as amended. [Archive] returns the first error of the directory
    walk and then makes no call to close the archive writer; it closes
    the writer, as its last call, exactly when the walk ended without
    error, and returns what closing returned. *)
Theorem Archive_closes_after_complete_walk :
  ∀ (W : Type) (h : handler W) (w : W) (inFilePath : string),
    let walked :=
      run h (filepath_Walk_with inFilePath (Archive_visit (filepath_Dir inFilePath))) w in
    let r := run h (Archive inFilePath) w in
    match result_of walked with
    | Some e =>
        result_of r = Some e ∧ world_of r = world_of walked ∧
        calls_of r = calls_of walked ∧ zipWriter_Close ∉ calls_of r
    | None =>
        result_of r = (h zipWriter_Close (world_of walked)).1 ∧
        world_of r = (h zipWriter_Close (world_of walked)).2 ∧
        calls_of r = calls_of walked ++ [zipWriter_Close]
    end.
Proof.
  intros W h w inFilePath walked r. subst r. unfold Archive.
  rewrite run_bind. fold walked. cbn zeta.
  pose proof (filepath_Walk_with_never_closes h inFilePath (filepath_Dir inFilePath) w) as Hno.
  fold walked in Hno.
  unfold result_of, world_of, calls_of in *.
  destruct walked as [[[e|] w1] tr]; simpl in *.
  - rewrite app_nil_r. done.
  - destruct (h zipWriter_Close w1) as [r w2]; simpl.
    by rewrite fmap_app.
Qed.

(** C7, the claim as stated fails: a file of the tree cannot be opened,
    the walk stops there, and [Archive] returns the error with the
    archive writer left open. *)
Lemma Archive_walk_failure_leaves_writer_open :
  let r := run mem_handler (Archive "site") fs_site_unreadable in
  result_of r = Some (ErrOS "open" "site/b.json") ∧
  zw_entries (world_of r) = [("site/a.json", [LBrace; RBrace])] ∧
  zw_closed (world_of r) = false ∧
  ¬ (zipWriter_Close ∈ calls_of r).
Proof.
  vm_compute. split_and!; try reflexivity.
  intros Hin. repeat (apply elem_of_cons in Hin as [Hin|Hin]; [discriminate|]).
  by apply not_elem_of_nil in Hin.
Qed.


(** ** The path registry *)

Lemma registerPath_answer (pathMap : gmap string bool) path :
  (registerPath pathMap path).1 = bool_decide (path ∈ dom pathMap).
Proof.
  unfold registerPath. simpl. apply bool_decide_ext. by rewrite elem_of_dom.
Qed.

Lemma registerPath_dom (pathMap : gmap string bool) path :
  dom (registerPath pathMap path).2 = dom pathMap ∪ {[path]}.
Proof.
  unfold registerPath. simpl. case_bool_decide as Hin; simpl.
  - apply elem_of_dom in Hin. set_solver.
  - rewrite dom_insert_L. set_solver.
Qed.

Lemma registry_after_app files1 files2 tl (pm : gmap string bool) :
  registry_after (files1 ++ files2) tl pm = registry_after files2 tl (registry_after files1 tl pm).
Proof. revert pm. induction files1 as [|f files1 IH]; intros pm; simpl; [done|]. apply IH. Qed.

Lemma registry_after_dom files tl (pm : gmap string bool) :
  dom (registry_after files tl pm) = dom pm ∪ list_to_set (entry_path tl <$> files).
Proof.
  revert pm. induction files as [|f files IH]; intros pm; cbn [registry_after fmap list_fmap].
  - set_solver.
  - rewrite IH, registerPath_dom. set_solver.
Qed.

Lemma run_unzip_entries {W} (h : handler W) (w : W) files tl pm fc dc fr :
  run h (unzip_entries files tl pm fc dc fr) w =
  let r := run h (perform_schedule (schedule files tl pm) fc dc fr) w in
  (registry_after files tl pm, r.1.2, r.2).
Proof.
  revert pm w. induction files as [|f files IH]; intros pm w; [done|].
  cbn [unzip_entries schedule perform_schedule registry_after].
  rewrite !run_bind. cbn zeta. rewrite IH. reflexivity.
Qed.

(** What the work on a regular entry that opens comes to, by the answer
    of the registry. *)
Lemma writeEntry_fresh file rd path fc dc fr :
  File_IsDir file = false → Open file = Ok rd →
  writeEntry file path false fc dc fr =
  (err ← fc rd path;
   _ ← perform (reader_Close rd);
   match err with Some e => mret (Some e) | None => mret None end).
Proof. intros Hd Ho. unfold writeEntry. by rewrite Hd, Ho. Qed.

Lemma writeEntry_merge file rd path fc dc fr :
  File_IsDir file = false → Open file = Ok rd →
  writeEntry file path true fc dc fr =
  (err ← (r ← combineJSONFile rd fr path;
          match r with
          | Err err => mret (Some err)
          | Ok combined => fc combined path
          end);
   _ ← perform (reader_Close rd);
   match err with Some e => mret (Some e) | None => mret None end).
Proof. intros Hd Ho. unfold writeEntry. by rewrite Hd, Ho. Qed.


(** ** unzip *)

(** C1, the code at two failing inputs. First: the destination of the
    first of two pages cannot be opened; the work on that entry returns
    the error, [unzip] goes on, writes the second page and returns nil.
    Second: a binary asset written earlier in the run comes again; the
    merge fails on the existing file, which is no JSON, and again [unzip]
    goes on to the next entry and returns nil. *)
Theorem unzip_drops_entry_errors :
  (let r := run mem_handler
              (unzip "/tmp/skuid0" "out" ∅ writeNewFile createDirectory readExistingFile)
              fs_first_page_locked in
   result_of (run mem_handler
                (readFileFromZipAndWriteToFilesystem page_a "out/pages/A.json" false
                   writeNewFile createDirectory readExistingFile) fs_first_page_locked)
     = Some (ErrOS "open" "out/pages/A.json") ∧
   (result_of r).2 = None ∧
   files (world_of r) !! "out/pages/A.json" = None ∧
   files (world_of r) !! "out/pages/B.json"
     = Some [LBrace; LStr "name"; Colon; LStr "B"; RBrace]) ∧
  (let r := run mem_handler
              (unzip "/tmp/skuid1" "out" {["out/files/logo.png" := true]} writeNewFile
                 createDirectory readExistingFile)
              fs_logo_written in
   result_of (run mem_handler
                (readFileFromZipAndWriteToFilesystem logo "out/files/logo.png" true
                   writeNewFile createDirectory readExistingFile) fs_logo_written)
     = Some ErrBadJSONDoc ∧
   (result_of r).2 = None ∧
   files (world_of r) !! "out/pages/B.json"
     = Some [LBrace; LStr "name"; Colon; LStr "B"; RBrace]).
Proof. vm_compute. split_and!; reflexivity. Qed.

(** ** writeResultsToDisk *)

Lemma removeMetadataDirs_calls {W} (h : handler W) (w : W) targetDir dirNames :
  calls_of (run h (removeMetadataDirs targetDir dirNames) w) =
  (λ dirName, os_RemoveAll (filepath_Join [targetDir; dirName])) <$> dirNames.
Proof.
  revert w. induction dirNames as [|d ds IH]; intros w; [done|].
  cbn [removeMetadataDirs]. rewrite calls_of_bind, IH.
  unfold perform, calls_of. rewrite run_Do. reflexivity.
Qed.

Lemma removeMetadataDirs_empty_fs targetDir dirNames :
  world_of (run mem_handler (removeMetadataDirs targetDir dirNames) empty_fs) = empty_fs.
Proof.
  induction dirNames as [|d ds IH]; [done|].
  cbn [removeMetadataDirs]. unfold world_of in *. rewrite run_bind. cbn zeta.
  unfold perform. rewrite run_Do. cbn [fst snd run mem_handler].
  exact IH.
Qed.

(** C8, the code at a failing input: the body of the payload breaks off
    while it is copied to the temporary file. [writeResultsToDisk]
    returns the error; the temporary file was created, no call removes
    it, and it is still there at the end. *)
Theorem spool_failure_leaves_temporary_file :
  ∀ dirNames : list string,
    let r := run mem_handler
               (writeResultsToDisk "out" dirNames writeNewFile createDirectory
                  readExistingFile [broken_body]) empty_fs in
    result_of r = Some (ErrIO "unexpected EOF") ∧
    ioutil_TempFile "" "skuid" ∈ calls_of r ∧
    is_Some (spool (world_of r) !! "/tmp/skuid0") ∧
    (∀ name, os_Remove name ∉ calls_of r).
Proof.
  intros dirNames r. subst r. unfold writeResultsToDisk.
  change (getFriendlyURL "out") with (mret (M := Prog) (Ok "out")).
  rewrite run_bind, run_ret. cbn [fst snd]. cbn zeta.
  unfold result_of, world_of, calls_of. rewrite run_bind. cbn zeta. cbn [fst snd].
  pose proof (removeMetadataDirs_empty_fs "out" dirNames) as Hw.
  pose proof (removeMetadataDirs_calls mem_handler empty_fs "out" dirNames) as Hc.
  unfold world_of, calls_of in Hw, Hc. rewrite Hw. cbn [app]. rewrite fmap_app, Hc.
  split_and!.
  - vm_compute. reflexivity.
  - apply elem_of_app. right. vm_compute. apply list_elem_of_here.
  - vm_compute. eauto.
  - intros name Hin. apply elem_of_app in Hin as [Hin|Hin].
    + apply list_elem_of_fmap in Hin as (? & ? & _). discriminate.
    + vm_compute in Hin.
      repeat (apply elem_of_cons in Hin as [Hin|Hin]; [discriminate|]).
      by apply not_elem_of_nil in Hin.
Qed.

(** ** readFileFromZipAndWriteToFilesystem: entries without a directory *)

Lemma strings_Split_head_rooted s :
  rooted s = true → ∃ rest, strings_Split s Separator = "" :: rest.
Proof.
  destruct s as [|a s]; [done|]. simpl. intros ->. eauto.
Qed.

Lemma single_element_not_rooted s :
  strings_Split s Separator = [s] → rooted s = false.
Proof.
  intros Hs. destruct (rooted s) eqn:Hr; [|done].
  destruct (strings_Split_head_rooted s Hr) as [rest Hrest].
  rewrite Hrest in Hs. injection Hs as <- _. discriminate.
Qed.

Lemma skip_without_intermediate_path file fullPath flag fc dc fr :
  intermediatePath_of fullPath = "" →
  readFileFromZipAndWriteToFilesystem file fullPath flag fc dc fr = mret None.
Proof.
  intros Hi. unfold readFileFromZipAndWriteToFilesystem. rewrite Hi.
  assert (Nat.ltb 0 (List.length (strings_Split fullPath Separator)) = true) as ->; [|done].
  destruct fullPath as [|a s]; [done|]. simpl.
  destruct (Ascii.eqb a Separator); [done|].
  by destruct (strings_Split s Separator).
Qed.


(** ** The order of keys *)

Lemma ltb_leb (a b : string) : String.ltb a b = true ↔ String.leb a b = true ∧ a ≠ b.
Proof.
  unfold String.ltb, String.leb.
  destruct (String.compare a b) eqn:E; split; try done.
  - intros [_ H]. by apply String.compare_eq_iff in E.
  - intros _. split; [done|]. intros ->.
    pose proof (String.compare_antisym b b) as Hb. rewrite E in Hb. discriminate.
  - by intros [? _].
Qed.

Lemma ltb_irrefl (a : string) : String.ltb a a = false.
Proof.
  destruct (String.ltb a a) eqn:E; [|done]. apply ltb_leb in E as [_ ?]. done.
Qed.

Lemma ltb_trans (a b c : string) :
  String.ltb a b = true → String.ltb b c = true → String.ltb a c = true.
Proof.
  rewrite !ltb_leb. intros [Hab Hne1] [Hbc Hne2].
  assert (String.le a b) as Lab by by apply Is_true_true.
  assert (String.le b c) as Lbc by by apply Is_true_true.
  split.
  - apply Is_true_true. by etrans.
  - intros ->. apply Hne1. by apply (anti_symm String.le).
Qed.

Lemma ltb_total (a b : string) :
  a ≠ b → String.ltb a b = true ∨ String.ltb b a = true.
Proof.
  intros Hne. destruct (String.leb_total a b) as [H|H].
  - left. by apply ltb_leb.
  - right. apply ltb_leb. by split.
Qed.

(** [name] sorts before every key, and no other key sorts before it. *)
Lemma Sort_name_first (k : string) :
  nameFirstKeySorter_Sort "name" k = true ∧
  (k ≠ "name" → nameFirstKeySorter_Sort k "name" = false).
Proof.
  split; [done|]. intros Hk. unfold nameFirstKeySorter_Sort.
  apply String.eqb_neq in Hk. by rewrite Hk.
Qed.

(** Apart from [name], [Sort] is the order of strings. *)
Lemma Sort_lexicographic (a b : string) :
  a ≠ "name" → b ≠ "name" → nameFirstKeySorter_Sort a b = String.ltb a b.
Proof.
  intros Ha Hb. unfold nameFirstKeySorter_Sort.
  apply String.eqb_neq in Ha, Hb. by rewrite Ha, Hb.
Qed.

Lemma Sort_total (a b : string) :
  a ≠ b → nameFirstKeySorter_Sort a b = true ∨ nameFirstKeySorter_Sort b a = true.
Proof.
  intros Hne. destruct (decide (a = "name")) as [->|Ha]; [by left|].
  destruct (decide (b = "name")) as [->|Hb]; [by right|].
  rewrite !Sort_lexicographic by done. by apply ltb_total.
Qed.

Lemma Sort_trans (a b c : string) :
  nameFirstKeySorter_Sort a b = true → nameFirstKeySorter_Sort b c = true →
  nameFirstKeySorter_Sort a c = true.
Proof.
  destruct (decide (a = "name")) as [->|Ha]; [done|].
  destruct (decide (b = "name")) as [->|Hb].
  { by rewrite (proj2 (Sort_name_first a) Ha). }
  destruct (decide (c = "name")) as [->|Hc].
  { by rewrite (proj2 (Sort_name_first b) Hb). }
  rewrite !Sort_lexicographic by done. apply ltb_trans.
Qed.

(** ** Sorting the members of an object *)

Section sort_members.
Context {A : Type} (less : string → string → bool).
Context (less_total : ∀ a b, a ≠ b → less a b = true ∨ less b a = true).
Context (less_trans : ∀ a b c, less a b = true → less b c = true → less a c = true).

Lemma insert_member_Permutation (x : string * A) l :
  insert_member less x l ≡ₚ x :: l.
Proof.
  induction l as [|y l IH]; simpl; [done|].
  destruct (less x.1 y.1); [done|]. rewrite IH. apply Permutation_swap.
Qed.

Lemma sort_members_Permutation (l : list (string * A)) : sort_members less l ≡ₚ l.
Proof.
  induction l as [|x l IH]; simpl; [done|].
  unfold sort_members in *. simpl. by rewrite insert_member_Permutation, IH.
Qed.

Lemma insert_member_sorted (x : string * A) l :
  x.1 ∉ l.*1 → key_sorted less l → key_sorted less (insert_member less x l).
Proof using less_total less_trans.
  induction l as [|y l IH]; simpl; intros Hx Hs.
  - repeat constructor.
  - apply StronglySorted_cons in Hs as [Hy Hs].
    destruct (less x.1 y.1) eqn:E.
    + apply StronglySorted_cons. split; [|by apply StronglySorted_cons].
      constructor; [done|].
      eapply Forall_impl; [exact Hy|]. intros z Hz. simpl in *. eauto.
    + apply StronglySorted_cons. split.
      * rewrite insert_member_Permutation. constructor; [|done].
        assert (x.1 ≠ y.1) as Hne.
        { intros Heq. apply Hx. simpl. rewrite Heq. left. }
        destruct (less_total _ _ Hne) as [H|H]; [congruence|done].
      * apply IH; [|done]. intros ?. apply Hx. simpl. by right.
Qed.

Lemma sort_members_sorted (l : list (string * A)) :
  NoDup l.*1 → key_sorted less (sort_members less l).
Proof using less_total less_trans.
  induction l as [|x l IH]; simpl; intros Hnd.
  - constructor.
  - apply NoDup_cons in Hnd as [Hx Hnd]. unfold sort_members in *. simpl.
    apply insert_member_sorted; [|by apply IH].
    fold (sort_members less l).
    by rewrite (sort_members_Permutation l).
Qed.

End sort_members.

(** Keys in the order of [Sort] are in the order that section 4.1 asks for. *)
Lemma sorted_name_first (keys : list string) :
  StronglySorted sorts_before keys → name_first keys.
Proof.
  intros Hs. split.
  - destruct keys as [|k rest]; [by intros ?%not_elem_of_nil|].
    apply StronglySorted_cons in Hs as [Hk _]. simpl.
    intros Hin. destruct (decide (k = "name")) as [->|Hne]; [done|].
    apply elem_of_cons in Hin as [?|Hin]; [done|].
    rewrite Forall_forall in Hk. specialize (Hk _ Hin).
    unfold sorts_before in Hk. by rewrite (proj2 (Sort_name_first k) Hne) in Hk.
  - induction Hs as [|k rest Hs IH Hk]; [constructor|].
    rewrite filter_cons. case_decide as Hne; [|done].
    apply StronglySorted_cons. split; [|done].
    apply Forall_forall. intros z Hz. apply list_elem_of_filter in Hz as [Hzn Hz].
    rewrite Forall_forall in Hk. specialize (Hk _ Hz). unfold sorts_before in Hk.
    by rewrite Sort_lexicographic in Hk.
Qed.


(** ** Syntax trees: induction, text and parsing *)

Lemma syntax_ind' (P : syntax → Prop) :
  P SNull → (∀ b, P (SBool b)) → (∀ n, P (SNum n)) → (∀ s, P (SStr s)) →
  (∀ items, Forall P items → P (SArr items)) →
  (∀ members, Forall (λ kv, P kv.2) members → P (SObj members)) →
  ∀ v, P v.
Proof.
  intros Hnull Hbool Hnum Hstr Harr Hobj. fix IH 1.
  intros [| b | n | s | items | members]; [done..| |].
  - apply Harr. revert items. fix IHl 1. intros [|x l]; constructor; [apply IH | apply IHl].
  - apply Hobj. revert members. fix IHl 1.
    intros [|[k x] l]; constructor; [apply IH | apply IHl].
Qed.

Lemma compact_head (v : syntax) :
  ∃ t r, compact v = t :: r ∧ starts_value t = true.
Proof. destruct v as [|[]| | | |]; simpl; eauto. Qed.

Lemma parse_value_array fuel (x rest : bytes) :
  (∃ t r, x = t :: r ∧ starts_value t = true) →
  parse_value (S fuel) (LBrack :: x ++ rest) =
  match parse_items fuel (x ++ rest) with
  | Some (vs, r') => Some (SArr vs, r')
  | None => None
  end.
Proof. intros (t & r & -> & Ht). by destruct t. Qed.

Lemma parse_value_object fuel (x rest : bytes) :
  (∃ k r, x = LStr k :: r) →
  parse_value (S fuel) (LBrace :: x ++ rest) =
  match parse_members fuel (x ++ rest) with
  | Some (ms, r') => Some (SObj ms, r')
  | None => None
  end.
Proof. by intros (k & r & ->). Qed.

Lemma commas_cons (p : bytes) (parts : list bytes) :
  parts ≠ [] → commas (p :: parts) = p ++ Comma :: commas parts.
Proof. by destruct parts. Qed.

Lemma parse_items_compact (items : list syntax) :
  Forall (λ v, ∀ (fuel : nat) rest, (List.length (compact v) ≤ fuel)%nat →
                parse_value fuel (compact v ++ rest) = Some (v, rest)) items →
  items ≠ [] →
  ∀ (fuel : nat) rest,
    (S (List.length (commas (map compact items))) ≤ fuel)%nat →
    parse_items fuel (commas (map compact items) ++ RBrack :: rest) = Some (items, rest).
Proof.
  induction 1 as [|v items Hv _ IH]; [done|]. intros _ fuel rest Hfuel.
  destruct fuel as [|fuel]; [lia|].
  destruct items as [|v' items].
  - simpl in *. rewrite Hv by (clear -Hfuel; lia). done.
  - rewrite map_cons, commas_cons in Hfuel |- * by done.
    rewrite length_app in Hfuel. cbn [List.length] in Hfuel.
    cbn [parse_items]. rewrite <-app_assoc. rewrite Hv by (clear -Hfuel; lia).
    cbn [app]. rewrite IH; [done..|clear -Hfuel; lia].
Qed.

Lemma parse_members_compact (members : list (string * syntax)) :
  Forall (λ kv, ∀ (fuel : nat) rest, (List.length (compact kv.2) ≤ fuel)%nat →
                 parse_value fuel (compact kv.2 ++ rest) = Some (kv.2, rest)) members →
  members ≠ [] →
  ∀ (fuel : nat) rest,
    (S (List.length (commas (map (λ '(k, v), LStr k :: Colon :: compact v) members))) ≤ fuel)%nat →
    parse_members fuel
      (commas (map (λ '(k, v), LStr k :: Colon :: compact v) members) ++ RBrace :: rest)
    = Some (members, rest).
Proof.
  induction 1 as [|[k v] members Hv _ IH]; [done|]. intros _ fuel rest Hfuel.
  destruct fuel as [|fuel]; [lia|]. simpl in Hv.
  destruct members as [|kv' members].
  - simpl in *. rewrite Hv by (clear -Hfuel; lia). done.
  - rewrite map_cons, commas_cons in Hfuel |- * by done.
    rewrite length_app in Hfuel. cbn [List.length] in Hfuel.
    cbn [parse_members app]. rewrite <-app_assoc. rewrite Hv by (clear -Hfuel; lia).
    cbn [app]. rewrite IH; [done..|clear -Hfuel; lia].
Qed.

(** Parsing the compact text of a tree gives the tree back. *)
Lemma parse_value_compact (v : syntax) :
  ∀ (fuel : nat) rest, (List.length (compact v) ≤ fuel)%nat →
    parse_value fuel (compact v ++ rest) = Some (v, rest).
Proof.
  induction v as [| b | n | s | items IH | members IH] using syntax_ind';
    intros fuel rest Hfuel;
    (destruct fuel as [|fuel];
     [match type of Hfuel with (List.length (compact ?v) ≤ _)%nat =>
        destruct (compact_head v) as (? & ? & Hc & _); rewrite Hc in Hfuel;
        simpl in Hfuel; lia
      end|]).
  - done.
  - by destruct b.
  - done.
  - done.
  - destruct items as [|v items]; [done|].
    cbn [compact] in *. rewrite length_cons, length_app in Hfuel. cbn [List.length] in Hfuel.
    cbn [app]. rewrite <-app_assoc. cbn [app].
    rewrite parse_value_array.
    + rewrite parse_items_compact; [done..|clear -Hfuel; lia].
    + destruct (compact_head v) as (t & r & Hv & Ht).
      destruct items; simpl; rewrite Hv; eauto.
  - destruct members as [|[k v] members]; [done|].
    cbn [compact] in *. rewrite length_cons, length_app in Hfuel. cbn [List.length] in Hfuel.
    cbn [app]. rewrite <-app_assoc. cbn [app].
    rewrite parse_value_object.
    + rewrite parse_members_compact; [done..|clear -Hfuel; lia].
    + destruct members; simpl; eauto.
Qed.

(** The compact text has no white space. *)
Lemma strip_app (a b : bytes) : strip (a ++ b) = strip a ++ strip b.
Proof. apply filter_app. Qed.

Lemma strip_cons (t : lexeme) (b : bytes) :
  strip (t :: b) = if is_space t then strip b else t :: strip b.
Proof.
  unfold strip. rewrite filter_cons. destruct (is_space t); by case_decide.
Qed.

Lemma strip_commas (parts : list bytes) :
  Forall (λ p, strip p = p) parts → strip (commas parts) = commas parts.
Proof.
  induction 1 as [|p parts Hp _ IH]; [done|].
  destruct parts as [|p' parts]; [done|].
  rewrite commas_cons by done. rewrite strip_app, Hp, strip_cons. cbn [is_space].
  by rewrite IH.
Qed.

Lemma strip_compact (v : syntax) : strip (compact v) = compact v.
Proof.
  induction v as [| b | n | s | items IH | members IH] using syntax_ind'; try done.
  - by destruct b.
  - cbn [compact]. rewrite strip_cons. cbn [is_space]. f_equal.
    rewrite strip_app, strip_commas; [done|]. by apply Forall_fmap.
  - cbn [compact]. rewrite strip_cons. cbn [is_space]. f_equal.
    rewrite strip_app, strip_commas; [done|]. apply Forall_fmap.
    eapply Forall_impl; [exact IH|]. intros [k v] Hv. simpl in *.
    rewrite !strip_cons. cbn [is_space]. by rewrite Hv.
Qed.

Lemma parse_compact (v : syntax) : parse (compact v) = Some v.
Proof.
  unfold parse. rewrite strip_compact.
  rewrite <-(app_nil_r (compact v)) at 2.
  rewrite parse_value_compact; [done|lia].
Qed.


(** ** json.Indent on compact text *)



Lemma newline_tabs (depth : nat) : newline [] [LTab] depth = LNewline :: tabs depth.
Proof.
  unfold newline, tabs. f_equal. simpl.
  induction depth as [|n IH]; [done|]. simpl. by rewrite IH.
Qed.

Lemma commas_concat (p : bytes) (parts : list bytes) :
  commas (p :: parts) = p ++ List.concat (map (λ q, Comma :: q) parts).
Proof.
  revert p. induction parts as [|q parts IH]; intros p.
  - simpl. by rewrite app_nil_r.
  - rewrite commas_cons by done. rewrite IH. done.
Qed.

Lemma tab_lines_concat (depth : nat) (p : bytes) (parts : list bytes) :
  tab_lines depth (p :: parts) =
  p ++ List.concat (map (λ q, Comma :: LNewline :: tabs depth ++ q) parts).
Proof.
  revert p. induction parts as [|q parts IH]; intros p.
  - simpl. by rewrite app_nil_r.
  - change (tab_lines depth (p :: q :: parts))
      with (p ++ Comma :: LNewline :: tabs depth ++ tab_lines depth (q :: parts)).
    rewrite IH. simpl. by rewrite <-app_assoc.
Qed.

Section indent_container.
Context {X : Type} (f : X → bytes) (g : X → nat → bytes) (close : lexeme).
Context (Hclose : is_close close = true).

Lemma indent_go_close d rest :
  indent_go [] [LTab] false (S d) (close :: rest) =
  LNewline :: tabs d ++ close :: indent_go [] [LTab] false d rest.
Proof using Hclose.
  destruct close; try done; cbn [indent_go is_space is_close negb andb app pred];
    by rewrite newline_tabs.
Qed.

Lemma indent_go_more (more : list X) d rest :
  Forall (λ x, indents f g x) more →
  indent_go [] [LTab] false (S d)
    (List.concat (map (λ x, Comma :: f x) more) ++ close :: rest) =
  List.concat (map (λ x, Comma :: LNewline :: tabs (S d) ++ g x (S d)) more)
    ++ LNewline :: tabs d ++ close :: indent_go [] [LTab] false d rest.
Proof using Hclose.
  induction 1 as [|x more Hx _ IH].
  - simpl. apply indent_go_close.
  - cbn [map List.concat].  rewrite <-?app_assoc. cbn [app].
    cbn [indent_go is_space is_close negb andb]. 
    rewrite newline_tabs. cbn [app]. rewrite <-?app_assoc.
    rewrite Hx. cbn [lead level app]. rewrite IH. 
    by rewrite <-?app_assoc.
Qed.

Lemma indent_go_container (xs : list X) d rest :
  Forall (λ x, indents f g x) xs → xs ≠ [] →
  indent_go [] [LTab] true d (commas (map f xs) ++ close :: rest) =
  LNewline :: tabs (S d) ++ tab_lines (S d) (map (λ x, g x (S d)) xs)
    ++ LNewline :: tabs d ++ close :: indent_go [] [LTab] false d rest.
Proof using Hclose.
  intros Hxs Hne. destruct xs as [|x more]; [done|].
  apply Forall_cons in Hxs as [Hx Hmore].
  rewrite !map_cons, commas_concat, tab_lines_concat, !map_map.
  rewrite <-?app_assoc. rewrite Hx. cbn [lead level app].
  rewrite indent_go_more by done. by rewrite <-?app_assoc.
Qed.

End indent_container.

(** On the compact text of a tree, [json.Indent] writes the tree with
    one tab per nesting level. *)
Lemma indent_go_compact (v : syntax) :
  ∀ b d rest,
    indent_go [] [LTab] b d (compact v ++ rest) =
    lead b d ++ tab_text v (level b d) ++ indent_go [] [LTab] false (level b d) rest.
Proof.
  induction v as [| x | n | s | items IH | members IH] using syntax_ind';
    intros b d rest.
  - destruct b; cbn [indent_go is_space is_close negb andb app pred lead level tab_text compact];
      by rewrite ?newline_tabs.
  - destruct b, x; cbn [indent_go is_space is_close negb andb app pred lead level tab_text compact];
      by rewrite ?newline_tabs.
  - destruct b; cbn [indent_go is_space is_close negb andb app pred lead level tab_text compact];
      by rewrite ?newline_tabs.
  - destruct b; cbn [indent_go is_space is_close negb andb app pred lead level tab_text compact];
      by rewrite ?newline_tabs.
  - cbn [compact]. cbn [app]. rewrite <-app_assoc. cbn [app].
    assert (indent_go [] [LTab] b d
              (LBrack :: commas (map compact items) ++ RBrack :: rest)
            = lead b d ++ LBrack :: indent_go [] [LTab] true (level b d)
                (commas (map compact items) ++ RBrack :: rest)) as ->.
    { destruct b; cbn [indent_go is_space is_close negb andb app pred lead level];
        by rewrite ?newline_tabs. }
    f_equal. destruct items as [|x items]; [done|].
    rewrite (indent_go_container compact tab_text RBrack eq_refl) by done.
    cbn [tab_text]. by norm_app.
  - cbn [compact]. cbn [app]. rewrite <-app_assoc. cbn [app].
    assert (indent_go [] [LTab] b d
              (LBrace :: commas (map (λ '(k, v), LStr k :: Colon :: compact v) members)
                 ++ RBrace :: rest)
            = lead b d ++ LBrace :: indent_go [] [LTab] true (level b d)
                (commas (map (λ '(k, v), LStr k :: Colon :: compact v) members)
                   ++ RBrace :: rest)) as ->.
    { destruct b; cbn [indent_go is_space is_close negb andb app pred lead level];
        by rewrite ?newline_tabs. }
    f_equal. destruct members as [|x members]; [done|].
    rewrite (indent_go_container (λ '(k, v), LStr k :: Colon :: compact v)
               (λ '(k, v) depth, LStr k :: Colon :: LSpace :: tab_text v depth)
               RBrace eq_refl); [| |done].
    + cbn [tab_text]. norm_app.
      match goal with
      | |- context [map ?g1 (x :: members)] =>
          rewrite (map_ext g1
                     (λ '(k, y), LStr k :: Colon :: LSpace :: tab_text y (S (level b d))))
            by (by intros [??])
      end.
      done.
    + eapply Forall_impl; [exact IH|]. intros [k v] Hv b' d' rest'. simpl in Hv.
      cbn [app]. destruct b'; cbn [indent_go is_space is_close negb andb lead level app];
        rewrite ?newline_tabs; cbn [app]; rewrite Hv; done.
Qed.

Lemma json_Indent_compact (v : syntax) :
  json_Indent (compact v) [] [LTab] = Ok (tab_text v 0).
Proof.
  unfold json_Indent, json_Valid. rewrite parse_compact. f_equal.
  rewrite <-(app_nil_r (compact v)). rewrite indent_go_compact. simpl.
  by rewrite app_nil_r.
Qed.


(** ** The text with tabs: its lexemes and its layout *)

Lemma strip_tabs (depth : nat) : strip (tabs depth) = [].
Proof.
  unfold tabs. induction depth as [|n IH]; [done|].
  cbn [replicate]. by rewrite strip_cons.
Qed.

Lemma strip_newline (depth : nat) : strip (newline [] [LTab] depth) = [].
Proof. by rewrite newline_tabs, strip_cons, strip_tabs. Qed.

(** [json.Indent] changes white space only. *)
Lemma strip_indent_go (src : bytes) :
  ∀ b d, strip (indent_go [] [LTab] b d src) = strip src.
Proof.
  induction src as [|c src IH]; intros b d; [done|].
  rewrite (strip_cons c). cbn [indent_go].
  destruct (is_space c) eqn:Hsp; [apply IH|].
  destruct c, b; try discriminate Hsp;
    cbn [is_close negb andb app pred];
    rewrite ?strip_app, ?strip_newline, ?strip_cons, ?strip_app, ?strip_newline;
    cbn [is_space app]; rewrite ?strip_cons; cbn [is_space]; by rewrite ?IH.
Qed.

Lemma strip_tab_text (v : syntax) : strip (tab_text v 0) = compact v.
Proof.
  pose proof (indent_go_compact v false 0 []) as H.
  rewrite app_nil_r in H. cbn [lead level app indent_go] in H. rewrite app_nil_r in H.
  by rewrite <-H, strip_indent_go, strip_compact.
Qed.

Lemma length_strip (b : bytes) : (List.length (strip b) ≤ List.length b)%nat.
Proof. apply length_filter. Qed.

(** The text with tabs is a JSON document, and reading it gives the
    tree back. *)
Lemma parse_tab_text (v : syntax) : parse (tab_text v 0) = Some v.
Proof.
  unfold parse. rewrite strip_tab_text.
  rewrite <-(app_nil_r (compact v)) at 1.
  rewrite parse_value_compact; [done|].
  rewrite <-(strip_tab_text v) at 1.
  pose proof (length_strip (tab_text v 0)). lia.
Qed.

Lemma laid_out_tabs (depth tabs_seen n : nat) (closing : bool) (rest : bytes) :
  laid_out_from depth (LineStart tabs_seen closing) (tabs n ++ rest) =
  laid_out_from depth (LineStart (tabs_seen + n) closing) rest.
Proof.
  unfold tabs. revert tabs_seen. induction n as [|n IH]; intros k.
  - by rewrite Nat.add_0_r.
  - cbn [replicate app laid_out_from]. rewrite IH. by rewrite Nat.add_succ_r.
Qed.

Section layout_container.
Context {X : Type} (g : X → nat → bytes) (close : lexeme).
Context (Hclose : is_close close = true).

Lemma laid_out_close (d : nat) (rest : bytes) :
  laid_out_from (S d) Inline (LNewline :: tabs d ++ close :: rest) =
  laid_out_from d Inline rest.
Proof using Hclose.
  cbn [laid_out_from]. rewrite laid_out_tabs. cbn [Nat.add].
  destruct close; try done; cbn [laid_out_from andb pred]; by rewrite Nat.eqb_refl.
Qed.

Lemma laid_out_more (more : list X) (d : nat) (rest : bytes) :
  Forall (λ x, on_own_line g x) more →
  laid_out_from (S d) Inline
    (List.concat (map (λ x, Comma :: LNewline :: tabs (S d) ++ g x (S d)) more)
       ++ LNewline :: tabs d ++ close :: rest) =
  laid_out_from d Inline rest.
Proof using Hclose.
  induction 1 as [|x more Hx _ IH].
  - apply laid_out_close.
  - cbn [map List.concat]. norm_app. cbn [laid_out_from].
    rewrite laid_out_tabs. cbn [Nat.add]. rewrite Hx. apply IH.
Qed.

Lemma laid_out_container (xs : list X) (d : nat) (rest : bytes) :
  Forall (λ x, on_own_line g x) xs → xs ≠ [] →
  laid_out_from (S d) AfterOpen
    (LNewline :: tabs (S d) ++ tab_lines (S d) (map (λ x, g x (S d)) xs)
       ++ LNewline :: tabs d ++ close :: rest) =
  laid_out_from d Inline rest.
Proof using Hclose.
  intros Hxs Hne. destruct xs as [|x more]; [done|].
  apply Forall_cons in Hxs as [Hx Hmore].
  rewrite map_cons, tab_lines_concat, map_map. norm_app. cbn [laid_out_from].
  rewrite laid_out_tabs. cbn [Nat.add]. rewrite Hx. by apply laid_out_more.
Qed.

End layout_container.

(** A value written with tabs is laid out as section 4.1 asks, whether
    it starts a line or follows a colon. *)
Lemma laid_out_tab_text (v : syntax) :
  ∀ depth rest,
    laid_out_from depth (LineStart depth false) (tab_text v depth ++ rest) =
      laid_out_from depth Inline rest ∧
    laid_out_from depth Inline (tab_text v depth ++ rest) =
      laid_out_from depth Inline rest.
Proof.
  induction v as [| x | n | s | items IH | members IH] using syntax_ind';
    intros depth rest.
  - cbn [tab_text app laid_out_from negb andb]. by rewrite Nat.eqb_refl.
  - destruct x; cbn [tab_text app laid_out_from negb andb]; by rewrite Nat.eqb_refl.
  - cbn [tab_text app laid_out_from negb andb]. by rewrite Nat.eqb_refl.
  - cbn [tab_text app laid_out_from negb andb]. by rewrite Nat.eqb_refl.
  - destruct items as [|x items].
    { cbn [tab_text app laid_out_from negb andb pred]. by rewrite Nat.eqb_refl. }
    assert (laid_out_from (S depth) AfterOpen
              (LNewline :: tabs (S depth)
                 ++ tab_lines (S depth) (map (λ y, tab_text y (S depth)) (x :: items))
                 ++ LNewline :: tabs depth ++ RBrack :: rest)
            = laid_out_from depth Inline rest) as Hin.
    { apply (laid_out_container tab_text RBrack eq_refl); [|done].
      eapply Forall_impl; [exact IH|]. intros y Hy d r. apply Hy. }
    cbn [tab_text]. norm_app. cbn [laid_out_from negb andb].
    rewrite Nat.eqb_refl. cbn [andb]. cbn [laid_out_from] in Hin. by split.
  - destruct members as [|x members].
    { cbn [tab_text app laid_out_from negb andb pred]. by rewrite Nat.eqb_refl. }
    assert (laid_out_from (S depth) AfterOpen
              (LNewline :: tabs (S depth)
                 ++ tab_lines (S depth)
                      (map (λ '(k, y), LStr k :: Colon :: LSpace :: tab_text y (S depth))
                         (x :: members))
                 ++ LNewline :: tabs depth ++ RBrace :: rest)
            = laid_out_from depth Inline rest) as Hin.
    { rewrite (map_ext _ (λ kv, (λ '(k, y) d, LStr k :: Colon :: LSpace :: tab_text y d)
                                  kv (S depth))) by (by intros [??]).
      apply (laid_out_container
               (λ '(k, y) d, LStr k :: Colon :: LSpace :: tab_text y d) RBrace eq_refl);
        [|done].
      eapply Forall_impl; [exact IH|]. intros [k y] Hy d r. simpl in Hy.
      cbn [app laid_out_from negb andb]. rewrite Nat.eqb_refl. cbn [andb].
      apply Hy. }
    cbn [tab_text]. norm_app. cbn [laid_out_from negb andb].
    rewrite Nat.eqb_refl. cbn [andb]. cbn [laid_out_from] in Hin. by split.
Qed.

Lemma tab_indented_tab_text (v : syntax) : tab_indented (tab_text v 0) = true.
Proof.
  unfold tab_indented. rewrite <-(app_nil_r (tab_text v 0)).
  by rewrite (proj2 (laid_out_tab_text v 0 [])).
Qed.


(** ** Values: induction *)

Lemma jsize_item (items : list json) (x : json) :
  x ∈ items → jsize x < jsize (JArr items).
Proof.
  cbn [jsize]. induction items as [|y items IH]; [by intros ?%not_elem_of_nil|].
  intros [->|Hin]%elem_of_cons; cbn [foldr]; [lia|]. specialize (IH Hin). lia.
Qed.

Lemma jsize_field (fields : gmap string json) (k : string) (x : json) :
  fields !! k = Some x → jsize x < jsize (JObj fields).
Proof.
  intros Hk. cbn [jsize].
  rewrite (map_fold_delete_L _ _ k x fields); [lia| |done].
  intros. lia.
Qed.

Lemma json_ind' (P : json → Prop) :
  P JNull → (∀ b, P (JBool b)) → (∀ n, P (JNum n)) → (∀ s, P (JStr s)) →
  (∀ items, Forall P items → P (JArr items)) →
  (∀ fields, map_Forall (λ _ x, P x) fields → P (JObj fields)) →
  ∀ v, P v.
Proof.
  intros Hnull Hbool Hnum Hstr Harr Hobj v.
  remember (jsize v) as size eqn:Hsize. revert v Hsize.
  induction size as [size IH] using lt_wf_ind. intros v ->.
  destruct v as [| b | n | s | items | fields]; [done..| |].
  - apply Harr. apply Forall_forall. intros x Hx.
    apply (IH (jsize x)); [by apply jsize_item|done].
  - apply Hobj. intros k x Hk.
    apply (IH (jsize x)); [by eapply jsize_field|done].
Qed.

(** ** Decoding what was encoded *)

Lemma insert_members_list_to_map {A B} (f : A → B) (members : list (string * A))
    (acc : gmap string B) :
  NoDup members.*1 →
  insert_members f members acc = list_to_map (prod_map id f <$> members) ∪ acc.
Proof.
  revert acc. induction members as [|[k x] members IH]; intros acc Hnd.
  - cbn. by rewrite (left_id_L ∅ (∪)).
  - apply NoDup_cons in Hnd as [Hk Hnd]. cbn [insert_members].
    rewrite IH by done. cbn [fmap list_fmap prod_map fst snd id list_to_map foldr].
    rewrite <-insert_union_l. rewrite insert_union_r; [done|].
    apply not_elem_of_list_to_map_1.
    rewrite <-list_fmap_compose.
    erewrite list_fmap_ext; [exact Hk|]. by intros ? [??].
Qed.

Lemma marshal_keys_NoDup (less : string → string → bool) (fields : gmap string json) :
  NoDup (sort_members less (map_to_list (marshal less <$> fields))).*1.
Proof.
  rewrite (sort_members_Permutation less _). apply NoDup_fst_map_to_list.
Qed.

(** Whatever the key order, decoding the encoded value gives it back. *)
Lemma value_of_marshal (less : string → string → bool) (v : json) :
  value_of (marshal less v) = v.
Proof.
  induction v as [| b | n | s | items IH | fields IH] using json_ind'; [done..| |].
  - cbn [marshal value_of]. f_equal. rewrite map_map.
    induction IH as [|x items Hx _ IHitems]; [done|]. cbn [map]. by rewrite Hx, IHitems.
  - cbn [marshal value_of]. f_equal.
    rewrite insert_members_list_to_map by apply marshal_keys_NoDup.
    rewrite (right_id_L ∅ (∪)).
    rewrite (list_to_map_proper _ (prod_map id value_of <$> map_to_list (marshal less <$> fields))).
    + rewrite list_to_map_fmap, list_to_map_to_list.
      apply map_eq. intros k. rewrite !lookup_fmap.
      destruct (fields !! k) as [x|] eqn:Hk; [|done]. cbn. f_equal. by eapply IH.
    + rewrite <-list_fmap_compose.
      erewrite list_fmap_ext; [apply marshal_keys_NoDup|]. by intros ? [??].
    + by rewrite (sort_members_Permutation less _).
Qed.

Lemma json_Unmarshal_tab_text (less : string → string → bool) (v : json) :
  json_Unmarshal (tab_text (marshal less v) 0) = Some v.
Proof. unfold json_Unmarshal. rewrite parse_tab_text. cbn. by rewrite value_of_marshal. Qed.

(** ** The encoded value has its keys in order at every level *)

Lemma ordered_marshal (v : json) : ordered (marshal nameFirstKeySorter_Sort v).
Proof.
  induction v as [| b | n | s | items IH | fields IH] using json_ind'; try by constructor.
  - cbn [marshal]. constructor. apply Forall_forall. intros x Hx.
    apply list_elem_of_fmap in Hx as (y & -> & Hy).
    rewrite Forall_forall in IH. by apply IH.
  - cbn [marshal]. constructor.
    + apply sorted_name_first.
      pose proof (sort_members_sorted nameFirstKeySorter_Sort Sort_total Sort_trans
                    (map_to_list (marshal nameFirstKeySorter_Sort <$> fields))
                    (NoDup_fst_map_to_list _)) as Hs.
      eapply (StronglySorted_fmap fst) in Hs; [exact Hs|]. by intros [??] [??].
    + apply Forall_forall. intros [k x] Hx.
      rewrite (sort_members_Permutation nameFirstKeySorter_Sort _) in Hx.
      apply elem_of_map_to_list in Hx. rewrite lookup_fmap in Hx.
      destruct (fields !! k) as [y|] eqn:Hk; [|done]. injection Hx as <-.
      cbn. by eapply IH.
Qed.

(** ** The merge patch, field by field *)

Lemma merge_patch_object (target : option json) (pfields : gmap string json) :
  merge_patch target (JObj pfields) =
  JObj (map_fold
          (λ k v acc,
             match v with
             | JNull => delete k acc
             | _ => <[k := merge_patch (fields_of target !! k) v]> acc
             end)
          (fields_of target) pfields).
Proof. reflexivity. Qed.

Lemma merge_patch_lookup (target : option json) (pfields : gmap string json) (k : string) :
  fields_of (Some (merge_patch target (JObj pfields))) !! k =
  match pfields !! k with
  | None => fields_of target !! k
  | Some JNull => None
  | Some v => Some (merge_patch (fields_of target !! k) v)
  end.
Proof.
  rewrite merge_patch_object. cbn [fields_of]. revert k.
  apply (map_fold_weak_ind
           (λ r m, ∀ k, r !! k = match m !! k with
                                 | None => fields_of target !! k
                                 | Some JNull => None
                                 | Some v => Some (merge_patch (fields_of target !! k) v)
                                 end)).
  - intros k. by rewrite lookup_empty.
  - intros i x m r Hi IH k. destruct (decide (i = k)) as [->|Hne].
    + rewrite lookup_insert_eq.
      destruct x; by rewrite ?lookup_delete_eq, ?lookup_insert_eq.
    + rewrite lookup_insert_ne by done. rewrite <-IH.
      destruct x; by rewrite ?lookup_delete_ne, ?lookup_insert_ne.
Qed.

Lemma merge_patch_not_object (target : option json) (patch : json) :
  is_object patch = false → merge_patch target patch = patch.
Proof. by destruct patch. Qed.

Lemma merge_patch_patched (patch : json) :
  ∀ target, patched target patch (merge_patch target patch).
Proof.
  induction patch as [| b | n | s | items _ | pfields IH] using json_ind'; intros target;
    try (rewrite merge_patch_not_object by done; by apply patched_replace).
  destruct (merge_patch target (JObj pfields)) as [| | | | |rfields] eqn:Hr; try done.
  apply patched_object. intros k.
  pose proof (merge_patch_lookup target pfields k) as Hk.
  rewrite Hr in Hk. cbn [fields_of] in Hk. rewrite Hk.
  destruct (pfields !! k) as [v|] eqn:Hv; [|constructor].
  specialize (IH k v Hv (fields_of target !! k)).
  destruct v; [constructor|..]; (constructor; [done|exact IH]).
Qed.

(** Patching again with the same patch changes nothing. *)
Lemma merge_patch_idempotent (patch : json) :
  ∀ target, merge_patch (Some (merge_patch target patch)) patch = merge_patch target patch.
Proof.
  induction patch as [| b | n | s | items _ | pfields IH] using json_ind'; intros target;
    try by rewrite !merge_patch_not_object.
  destruct (merge_patch target (JObj pfields)) as [| | | | |rfields] eqn:Hr; try done.
  destruct (merge_patch (Some (JObj rfields)) (JObj pfields)) as [| | | | |rfields'] eqn:Hr';
    try done.
  f_equal. apply map_eq. intros k.
  pose proof (merge_patch_lookup target pfields k) as Hk.
  pose proof (merge_patch_lookup (Some (JObj rfields)) pfields k) as Hk'.
  rewrite Hr in Hk. rewrite Hr' in Hk'. cbn [fields_of] in Hk, Hk'.
  rewrite Hk'. clear Hk'.
  destruct (pfields !! k) as [v|] eqn:Hv; [|done].
  specialize (IH k v Hv (fields_of target !! k)).
  destruct v; rewrite Hk; try done; f_equal; exact IH.
Qed.


(** ** The merge engine *)

(** When the merge succeeds and what it returns. *)
Lemma combineJSON_Ok (existing incoming out : bytes) :
  combineJSON existing incoming = Ok out ↔
  ∃ a b : gmap string json,
    json_Unmarshal existing = Some (JObj a) ∧
    json_Unmarshal incoming = Some (JObj b) ∧
    out = tab_text (marshal nameFirstKeySorter_Sort
                      (merge_patch (Some (JObj a)) (JObj b))) 0.
Proof.
  unfold combineJSON, jsonpatch_MergePatch, json_Marshal. cbn [jsonConfig SortMapKeys MapKeySorter].
  destruct (json_Unmarshal existing) as [[| | | | |a]|]; try (split; [done|by intros (?&?&?&?)]).
  destruct (json_Unmarshal incoming) as [[| | | | |b]|];
    try (split; [done|by intros (?&?&?&?&?)]).
  rewrite json_Indent_compact. split.
  - intros [= <-]. eauto.
  - intros (a' & b' & [= <-] & [= <-] & ->). done.
Qed.

(** C3. For inputs that are JSON documents with an object at the top,
    the merge succeeds; its output is a JSON document whose value is the
    existing object patched with the incoming one, at every depth: a
    field that the patch does not name is kept, a field that the patch
    sets to null is absent, a field whose patch value is neither null
    nor an object has that value, and a field whose patch value is an
    object is that object merged, in the same way, onto what was there. *)
Theorem merge_is_json_merge_patch :
  ∀ (existing incoming : bytes) (a b : gmap string json),
    json_Unmarshal existing = Some (JObj a) →
    json_Unmarshal incoming = Some (JObj b) →
    ∃ (out : bytes) (r : gmap string json),
      combineJSON existing incoming = Ok out ∧
      json_Unmarshal out = Some (JObj r) ∧
      patched (Some (JObj a)) (JObj b) (JObj r) ∧
      (∀ k, b !! k = None → r !! k = a !! k) ∧
      (∀ k, b !! k = Some JNull → r !! k = None) ∧
      (∀ k v, b !! k = Some v → v ≠ JNull → is_object v = false → r !! k = Some v) ∧
      (∀ k pb, b !! k = Some (JObj pb) →
                ∃ rk, r !! k = Some (JObj rk) ∧ patched (a !! k) (JObj pb) (JObj rk)).
Proof.
  intros existing incoming a b Ha Hb.
  destruct (merge_patch (Some (JObj a)) (JObj b)) as [| | | | |r] eqn:Hr; try done.
  exists (tab_text (marshal nameFirstKeySorter_Sort (JObj r)) 0), r.
  assert (∀ k, r !! k = match b !! k with
                        | None => a !! k
                        | Some JNull => None
                        | Some v => Some (merge_patch (a !! k) v)
                        end) as Hlookup.
  { intros k. pose proof (merge_patch_lookup (Some (JObj a)) b k) as Hk.
    by rewrite Hr in Hk. }
  split_and!.
  - apply combineJSON_Ok. exists a, b. by rewrite Hr.
  - apply json_Unmarshal_tab_text.
  - rewrite <-Hr. apply merge_patch_patched.
  - intros k Hk. by rewrite Hlookup, Hk.
  - intros k Hk. by rewrite Hlookup, Hk.
  - intros k v Hk Hnn Hobj. rewrite Hlookup, Hk.
    rewrite merge_patch_not_object by done. by destruct v.
  - intros k pb Hk. rewrite Hlookup, Hk.
    pose proof (merge_patch_patched (JObj pb) (a !! k)) as Hp.
    destruct (merge_patch (a !! k) (JObj pb)) as [| | | | |rk] eqn:Hrk; try done.
    eauto.
Qed.

Lemma merge_is_json_merge_patch_witness :
  ∃ (out : bytes) (r : gmap string json),
    combineJSON doc_foo_1 doc_foo_2 = Ok out ∧
    json_Unmarshal out = Some (JObj r) ∧
    r !! "name" = Some (JStr "Foo") ∧
    r !! "id" = Some (JNum "2") ∧
    r !! "extra" = Some (JBool true).
Proof.
  destruct (merge_is_json_merge_patch doc_foo_1 doc_foo_2
              (<["name" := JStr "Foo"]> (<["id" := JNum "1"]> ∅))
              (<["id" := JNum "2"]> (<["extra" := JBool true]> ∅))
              eq_refl eq_refl)
    as (out & r & Hout & Hr & _ & Hkept & _ & Hset & _).
  exists out, r. split_and!; [done..| | |].
  - by rewrite Hkept.
  - by apply Hset.
  - by apply Hset.
Defined.

(** C9. When the merge of [A] and [B] succeeds, merging [B] onto its
    output succeeds too and gives the same bytes: applying the same
    patch again changes nothing. *)
Theorem merge_idempotent :
  ∀ (A B out : bytes),
    combineJSON A B = Ok out →
    combineJSON out B = Ok out.
Proof.
  intros A B out (a & b & Ha & Hb & ->)%combineJSON_Ok.
  destruct (merge_patch (Some (JObj a)) (JObj b)) as [| | | | |r] eqn:Hr; try done.
  apply combineJSON_Ok. exists r, b. split_and!; [|done|].
  - apply json_Unmarshal_tab_text.
  - by rewrite <-Hr, merge_patch_idempotent.
Qed.

Lemma merge_idempotent_witness :
  combineJSON doc_foo_1 doc_foo_2 = Ok doc_foo_merged ∧
  combineJSON doc_foo_merged doc_foo_2 = Ok doc_foo_merged.
Proof.
  assert (combineJSON doc_foo_1 doc_foo_2 = Ok doc_foo_merged) as H by reflexivity.
  split; [exact H|]. exact (merge_idempotent doc_foo_1 doc_foo_2 doc_foo_merged H).
Defined.

(** C4. The output of every merge that succeeds is a JSON document, is
    laid out with exactly one tab per nesting level, and has in every
    object, at every nesting level, the key [name] first when it is
    there and the other keys in ascending order. *)
Theorem merge_output_ordered_and_indented :
  ∀ (existing incoming out : bytes),
    combineJSON existing incoming = Ok out →
    json_Valid out = true ∧
    tab_indented out = true ∧
    ∃ s : syntax, parse out = Some s ∧ ordered s.
Proof.
  intros existing incoming out (a & b & _ & _ & ->)%combineJSON_Ok.
  split_and!.
  - unfold json_Valid. by rewrite parse_tab_text.
  - apply tab_indented_tab_text.
  - eexists. split; [apply parse_tab_text|apply ordered_marshal].
Qed.

Lemma merge_output_ordered_and_indented_witness :
  json_Valid doc_foo_merged = true ∧
  tab_indented doc_foo_merged = true ∧
  ∃ s : syntax, parse doc_foo_merged = Some s ∧ ordered s.
Proof.
  exact (merge_output_ordered_and_indented doc_foo_1 doc_foo_2 doc_foo_merged eq_refl).
Defined.

(** A level that the patch does not touch is copied through from the
    existing document, and its keys come out in order all the same. *)
Example copied_level_is_ordered :
  combineJSON
    [LBrace; LStr "z"; Colon;
       LBrace; LStr "b"; Colon; LNum "1"; Comma; LStr "name"; Colon; LStr "n"; Comma;
               LStr "a"; Colon; LNum "2"; RBrace;
     RBrace]
    [LBrace; LStr "y"; Colon; LNull; RBrace]
  = Ok [LBrace; LNewline;
        LTab; LStr "z"; Colon; LSpace; LBrace; LNewline;
        LTab; LTab; LStr "name"; Colon; LSpace; LStr "n"; Comma; LNewline;
        LTab; LTab; LStr "a"; Colon; LSpace; LNum "2"; Comma; LNewline;
        LTab; LTab; LStr "b"; Colon; LSpace; LNum "1"; LNewline;
        LTab; RBrace; LNewline;
        RBrace].
Proof. reflexivity. Qed.


(** ** Further properties of the source functions *)

(** X1. The key sorter of retrieve.go: [name] sorts before every key and
    no other key sorts before [name]; two keys other than [name] sort as
    strings do; of two different keys one sorts before the other, and
    the order is transitive. *)
Theorem Sort_orders_name_first :
  ∀ a b c : string,
    nameFirstKeySorter_Sort "name" b = true ∧
    (a ≠ "name" → nameFirstKeySorter_Sort a "name" = false) ∧
    (a ≠ "name" → b ≠ "name" → nameFirstKeySorter_Sort a b = String.ltb a b) ∧
    (a ≠ b → nameFirstKeySorter_Sort a b = true ∨ nameFirstKeySorter_Sort b a = true) ∧
    (nameFirstKeySorter_Sort a b = true → nameFirstKeySorter_Sort b c = true →
     nameFirstKeySorter_Sort a c = true).
Proof.
  intros a b c. split_and!.
  - apply Sort_name_first.
  - apply Sort_name_first.
  - apply Sort_lexicographic.
  - apply Sort_total.
  - apply Sort_trans.
Qed.

(** X4. What [unzip] returns, in every environment and with every
    capability: the error of opening the archive; else, for a target
    directory that is not the empty path, what creating it returned;
    else nil. *)
Theorem unzip_returns_open_or_target_error :
  ∀ (W : Type) (h : handler W) (w : W) (sourceFileLocation targetLocation : string)
    (pathMap : gmap string bool) (fileCreator : FileCreator)
    (directoryCreator : DirectoryCreator) (existingFileReader : FileReader),
    (result_of (run h (unzip sourceFileLocation targetLocation pathMap fileCreator
                         directoryCreator existingFileReader) w)).2 =
    match (h (zip_OpenReader sourceFileLocation) w).1 with
    | Err e => Some e
    | Ok _ =>
        if negb (String.eqb targetLocation "") then
          result_of (run h (directoryCreator targetLocation mode_0755)
                       (h (zip_OpenReader sourceFileLocation) w).2)
        else None
    end.
Proof.
  intros W h w src tl pm fc dc fr.
  unfold unzip, result_of. rewrite run_bind. cbn zeta.
  unfold perform. rewrite run_Do. cbn [fst snd run].
  destruct (h (zip_OpenReader src) w) as [[fs|e] w1]; cbn [fst snd]; [|done].
  rewrite run_bind. cbn zeta.
  destruct (negb (String.eqb tl "")).
  - destruct (run h (dc tl mode_0755) w1) as [[[e|] w2] tr]; cbn [fst snd]; [done|].
    rewrite run_bind. cbn zeta. by rewrite run_unzip_entries.
  - rewrite run_ret. cbn [fst snd]. rewrite run_bind. cbn zeta.
    by rewrite run_unzip_entries.
Qed.

(** The deferred removals are made in the order of the list. *)
Lemma runDeferred_calls {W} (h : handler W) (w : W) (deferred : list string) :
  calls_of (run h (runDeferred deferred) w) = os_Remove <$> deferred.
Proof.
  revert w. induction deferred as [|name rest IH]; intros w; [done|].
  cbn [runDeferred]. rewrite calls_of_bind, IH.
  unfold perform, calls_of. rewrite run_Do. reflexivity.
Qed.

(** X7. Once a payload is spooled, the removal of its temporary file is
    deferred whatever [unzip] returns: in every environment and with
    every capability, when [createTemporaryZipFile] returned the name of
    the temporary file, the loop of [writeResultsToDisk] hands that name
    to the deferred removals, and the last call of the deferred
    removals is the removal of the file that was spooled first. *)
Theorem spooled_file_removal_deferred :
  ∀ (W : Type) (h : handler W) (w : W) (targetDir : string) (fileCreator : FileCreator)
    (directoryCreator : DirectoryCreator) (existingFileReader : FileReader)
    (data : ReadCloser) (rest : list ReadCloser) (pathMap : gmap string bool)
    (tmpFileName : string),
    result_of (run h (createTemporaryZipFile data) w) = Ok tmpFileName →
    let out := result_of (run h (processResults targetDir fileCreator directoryCreator
                                   existingFileReader (data :: rest) pathMap []) w) in
    last out.2 = Some tmpFileName ∧
    ∀ w' : W, last (calls_of (run h (runDeferred out.2) w')) = Some (os_Remove tmpFileName).
Proof.
  intros W h w targetDir fc dc fr data rest pm name Hspool out.
  assert (∀ results deferred w0 pm0,
            last deferred = Some name →
            last (run h (processResults targetDir fc dc fr results pm0 deferred) w0).1.1.2
            = Some name) as Hkeep.
  { induction results as [|d results IH]; intros deferred w0 pm0 Hd; [done|].
    cbn [processResults]. rewrite run_bind. cbn zeta.
    destruct (run h (createTemporaryZipFile d) w0) as [[[tmp|e] w1] tr1]; cbn [fst snd];
      [|by rewrite run_ret].
    rewrite run_bind. cbn zeta. cbn [fst snd].
    destruct (run h (unzip tmp targetDir pm0 fc dc fr) w1) as [[[pm1 [e|]] w2] tr2];
      cbn [fst snd].
    - rewrite run_ret. cbn [fst snd]. by rewrite last_cons, Hd.
    - apply IH. by rewrite last_cons, Hd. }
  assert (last out.2 = Some name) as Hlast.
  { subst out. unfold result_of in *. cbn [processResults]. rewrite run_bind. cbn zeta.
    rewrite Hspool. cbn [fst snd]. rewrite run_bind. cbn zeta. cbn [fst snd].
    destruct (run h (unzip name targetDir pm fc dc fr) _) as [[[pm1 [e|]] w2] tr2];
      cbn [fst snd].
    - by rewrite run_ret.
    - by apply Hkeep. }
  split; [done|]. intros w'. rewrite runDeferred_calls.
  by rewrite fmap_last, Hlast.
Qed.

Lemma spooled_file_removal_deferred_witness :
  let out := result_of (run mem_handler
                          (processResults "out" writeNewFile createDirectory readExistingFile
                             [archive [page_a]; archive [page_b]] ∅ []) empty_fs) in
  last out.2 = Some "/tmp/skuid0" ∧
  ∀ w' : MemFS,
    last (calls_of (run mem_handler (runDeferred out.2) w')) = Some (os_Remove "/tmp/skuid0").
Proof.
  exact (spooled_file_removal_deferred MemFS mem_handler empty_fs "out" writeNewFile
           createDirectory readExistingFile (archive [page_a]) [archive [page_b]] ∅
           "/tmp/skuid0" eq_refl).
Defined.


(** ** Splitting, joining and cleaning paths *)

Lemma strings_Split_nonempty s sep : strings_Split s sep ≠ [].
Proof.
  destruct s as [|a s]; [done|]. simpl.
  destruct (Ascii.eqb a sep); [done|]. by destruct (strings_Split s sep).
Qed.

Lemma strings_Split_cons_other a s sep :
  Ascii.eqb a sep = false →
  ∃ h t, strings_Split s sep = h :: t ∧ strings_Split (String a s) sep = String a h :: t.
Proof.
  intros Ha. simpl. rewrite Ha.
  destruct (strings_Split s sep) as [|h t] eqn:E; [by apply strings_Split_nonempty in E|].
  eauto.
Qed.

Lemma strings_Split_app a b sep :
  strings_Split (a +:+ String sep b) sep = strings_Split a sep ++ strings_Split b sep.
Proof.
  induction a as [|c a IH]; simpl.
  - by rewrite Ascii.eqb_refl.
  - destruct (Ascii.eqb c sep); [by rewrite IH|].
    rewrite IH.
    destruct (strings_Split a sep) as [|h t] eqn:E; [by apply strings_Split_nonempty in E|].
    done.
Qed.

Lemma strings_Join_cons_char c h t sep :
  strings_Join (String c h :: t) sep = String c (strings_Join (h :: t) sep).
Proof. by destruct t. Qed.

Lemma strings_Join_cons e e' rest sep :
  strings_Join (e :: e' :: rest) sep = e +:+ sep +:+ strings_Join (e' :: rest) sep.
Proof. done. Qed.

(** Joining what was split gives the string back. *)
Lemma strings_Join_Split s sep :
  strings_Join (strings_Split s sep) (String sep "") = s.
Proof.
  induction s as [|a s IH]; [done|].
  destruct (Ascii.eqb a sep) eqn:Ha.
  - simpl. rewrite Ha. apply Ascii.eqb_eq in Ha as ->.
    destruct (strings_Split s sep) as [|h t] eqn:E; [by apply strings_Split_nonempty in E|].
    rewrite strings_Join_cons, IH. done.
  - destruct (strings_Split_cons_other a s sep Ha) as (h & t & E & ->).
    rewrite strings_Join_cons_char. rewrite E in IH. by rewrite IH.
Qed.

(** Splitting what was joined gives the elements back, when none of
    them holds the separator. *)
Lemma strings_Split_Join es sep :
  es ≠ [] → Forall (λ e, strings_Split e sep = [e]) es →
  strings_Split (strings_Join es (String sep "")) sep = es.
Proof.
  induction es as [|e es IH]; [done|]. intros _ Hall.
  apply Forall_cons in Hall as [He Hes].
  destruct es as [|e' es]; [done|].
  rewrite strings_Join_cons.
  change (String sep "" +:+ ?x) with (String sep x).
  rewrite strings_Split_app, He, IH; done.
Qed.

Lemma append_String x (a b : string) : String x a +:+ b = String x (a +:+ b).
Proof. reflexivity. Qed.

Lemma append_assoc (a b c : string) : (a +:+ b) +:+ c = a +:+ (b +:+ c).
Proof. induction a as [|x a IH]; [done|]. by rewrite !append_String, IH. Qed.

Lemma strings_Join_app es1 es2 sep :
  es1 ≠ [] → es2 ≠ [] →
  strings_Join (es1 ++ es2) sep = strings_Join es1 sep +:+ sep +:+ strings_Join es2 sep.
Proof.
  induction es1 as [|e es1 IH]; [done|]. intros _ H2.
  destruct es1 as [|e' es1].
  - destruct es2; done.
  - cbn [app]. rewrite !strings_Join_cons. cbn [app] in IH. rewrite IH by done.
    by rewrite !append_assoc.
Qed.

Lemma strings_Join_empty_iff es sep :
  Forall (λ e, e ≠ "") es → strings_Join es sep = "" → es = [].
Proof.
  destruct es as [|e es]; [done|]. intros Hall Hj.
  apply Forall_cons in Hall as [He _]. destruct es as [|e' es].
  - done.
  - rewrite strings_Join_cons in Hj. by destruct e.
Qed.

Lemma rooted_append a b : a ≠ "" → rooted (a +:+ b) = rooted a.
Proof. by destruct a. Qed.

(** ** filepath.Clean on paths without [..] *)

Lemma clean_step_no_dotdot r out e :
  e ≠ ".." →
  clean_step r out e = if bool_decide (e ≠ "" ∧ e ≠ ".") then e :: out else out.
Proof.
  intros He. unfold clean_step.
  destruct (String.eqb_spec e ""); [by rewrite bool_decide_eq_false_2 by naive_solver|].
  destruct (String.eqb_spec e "."); [by rewrite bool_decide_eq_false_2 by naive_solver|].
  destruct (String.eqb_spec e ".."); [done|].
  by rewrite bool_decide_eq_true_2.
Qed.

Lemma foldl_clean_step_no_dotdot r out es :
  ".." ∉ es →
  foldl (clean_step r) out es = rev (filter (λ e, e ≠ "" ∧ e ≠ ".") es) ++ out.
Proof.
  revert out. induction es as [|e es IH]; intros out Hno; [done|].
  apply not_elem_of_cons in Hno as [He Hes].
  cbn [foldl]. rewrite IH by done. rewrite clean_step_no_dotdot by done.
  rewrite filter_cons. case_bool_decide as Hk.
  - rewrite decide_True by done. cbn [rev]. by rewrite <-app_assoc.
  - by rewrite decide_False by done.
Qed.

Lemma strings_Split_elements s sep :
  Forall (λ e, e ≠ String sep "") (strings_Split s sep).
Proof.
  induction s as [|a s IH]; [by repeat constructor|].
  destruct (Ascii.eqb a sep) eqn:Ha.
  - simpl. rewrite Ha. by constructor.
  - destruct (strings_Split_cons_other a s sep Ha) as (h & t & E & ->).
    rewrite E in IH. apply Forall_cons in IH as [_ Ht]. constructor; [|done].
    intros [= -> _]. by rewrite Ascii.eqb_refl in Ha.
Qed.

Lemma clean_step_elements r out e :
  e ≠ SeparatorS → Forall stack_element out → Forall stack_element (clean_step r out e).
Proof.
  intros He Hout. unfold clean_step.
  destruct (String.eqb_spec e ""); [done|].
  destruct (String.eqb_spec e "."); [done|].
  destruct (String.eqb_spec e "..").
  - destruct out as [|top below].
    + destruct r; [done|]. by apply Forall_cons.
    + destruct (String.eqb top ".."); [by apply Forall_cons|].
      by apply Forall_cons in Hout as [_ ?].
  - by apply Forall_cons.
Qed.

Lemma foldl_clean_step_elements r out es :
  Forall (λ e, e ≠ SeparatorS) es → Forall stack_element out →
  Forall stack_element (foldl (clean_step r) out es).
Proof.
  revert out. induction es as [|e es IH]; intros out Hes Hout; [done|].
  apply Forall_cons in Hes as [He Hes].
  cbn [foldl]. by apply IH, clean_step_elements.
Qed.

Lemma strings_Join_stack_elements es :
  es ≠ [] → Forall stack_element es →
  strings_Join es SeparatorS ≠ "" ∧ strings_Join es SeparatorS ≠ "." ∧
  strings_Join es SeparatorS ≠ SeparatorS.
Proof.
  destruct es as [|e [|e' es]]; [done|..]; intros _ Hall;
    apply Forall_cons in Hall as [(He1 & He2 & He3) _]; [done|].
  rewrite strings_Join_cons.
  destruct e as [|c [|c' e]]; [done|..]; split_and!; done.
Qed.

(** What [filepath.Clean] has on its stack after the elements of a path. *)
Lemma clean_stack_elements r p :
  Forall stack_element (foldl (clean_step r) [] (strings_Split p Separator)).
Proof.
  apply foldl_clean_step_elements; [|done].
  apply (strings_Split_elements p Separator).
Qed.

Lemma kept_elements name : Forall stack_element (kept name).
Proof.
  unfold kept. apply Forall_forall. intros e He.
  apply list_elem_of_filter in He as [[H1 H2] Hin].
  split_and!; [done..|].
  pose proof (strings_Split_elements name Separator) as Hall.
  rewrite Forall_forall in Hall. by apply Hall.
Qed.

(** ** unzip: where an entry goes *)

(** X8. The destination of an entry (line 171) for a target directory
    that is not the empty path: when no element of the entry's name is
    [..], the destination is the cleaned target directory followed by
    the elements of the name that are neither empty nor [.]; in
    particular it is the target directory or lies below it. *)
Theorem entry_stays_below_target :
  ∀ (targetLocation : string) (file : File),
    targetLocation ≠ "" →
    ".." ∉ strings_Split (Name file) Separator →
    entry_path targetLocation file
    = descend (filepath_Clean targetLocation) (kept (Name file)).
Proof.
  intros tl file Htl Hno. unfold entry_path, filepath_FromSlash. cbn [filepath_Join].
  destruct (String.eqb_spec tl ""); [done|].
  rewrite strings_Join_cons. cbn [strings_Join].
  change (SeparatorS +:+ Name file) with (String Separator (Name file)).
  unfold filepath_Clean at 1.
  assert (rooted (tl +:+ String Separator (Name file)) = rooted tl) as ->
    by (by apply rooted_append).
  rewrite strings_Split_app, foldl_app, foldl_clean_step_no_dotdot by done.
  fold (kept (Name file)).
  pose proof (clean_stack_elements (rooted tl) tl) as HT.
  pose proof (kept_elements (Name file)) as HK.
  unfold filepath_Clean.
  set (T := foldl (clean_step (rooted tl)) [] (strings_Split tl Separator)) in *.
  set (K := kept (Name file)) in *.
  rewrite rev_app_distr, rev_involutive.
  destruct K as [|k K]; [by rewrite app_nil_r|].
  assert (Forall stack_element (rev T)) as HT'.
  { apply Forall_forall. intros x Hx. rewrite Forall_forall in HT. apply HT.
    apply list_elem_of_In. apply in_rev. by apply list_elem_of_In. }
  destruct (strings_Join_stack_elements (k :: K)) as (Hk1 & Hk2 & Hk3); [done..|].
  assert (descend_below : ∀ dir, descend dir (k :: K) =
            if String.eqb dir "." then strings_Join (k :: K) SeparatorS
            else if String.eqb dir SeparatorS
                 then SeparatorS +:+ strings_Join (k :: K) SeparatorS
                 else dir +:+ SeparatorS +:+ strings_Join (k :: K) SeparatorS) by done.
  rewrite descend_below. clear descend_below.
  destruct (rev T) as [|t T'] eqn:ET.
  - cbn [app]. set (JK := strings_Join (k :: K) SeparatorS) in *.
    change (strings_Join [] SeparatorS) with "".
    destruct (rooted tl).
    + change (SeparatorS +:+ "") with SeparatorS.
      change (String.eqb SeparatorS "") with false.
      change (String.eqb SeparatorS ".") with false.
      change (String.eqb SeparatorS SeparatorS) with true.
      change (String.eqb (SeparatorS +:+ JK) "") with false. done.
    + change (String.eqb "" "") with true.
      change (String.eqb "." ".") with true.
      by destruct (String.eqb_spec JK "").
  - destruct (strings_Join_stack_elements (t :: T')) as (Ht1 & Ht2 & Ht3); [done..|].
    rewrite strings_Join_app by done.
    set (JT := strings_Join (t :: T') SeparatorS) in *.
    set (JK := strings_Join (k :: K) SeparatorS) in *.
    assert (JT +:+ SeparatorS +:+ JK ≠ "") as Hne by (by destruct JT).
    destruct (rooted tl).
    + change (String.eqb (SeparatorS +:+ ?x) "") with false. cbn iota.
      change (String.eqb (SeparatorS +:+ JT) ".") with false. cbn iota.
      assert (String.eqb (SeparatorS +:+ JT) SeparatorS = false) as ->.
      { apply String.eqb_neq. intros [= H]. done. }
      by rewrite append_assoc.
    + destruct (String.eqb_spec (JT +:+ SeparatorS +:+ JK) ""); [done|].
      destruct (String.eqb_spec JT ""); [done|].
      destruct (String.eqb_spec JT "."); [done|].
      by destruct (String.eqb_spec JT SeparatorS).
Qed.

Lemma entry_stays_below_target_witness :
  entry_path "out" {| Name := "pages/./Foo.json"; Mode := mode_0644; Open := Err ErrZip |}
  = "out/pages/Foo.json".
Proof.
  exact (entry_stays_below_target "out"
           {| Name := "pages/./Foo.json"; Mode := mode_0644; Open := Err ErrZip |}
           ltac:(done) ltac:(vm_compute; intros H; repeat (apply elem_of_cons in H as [H|H]; [discriminate|]); by apply not_elem_of_nil in H)).
Defined.

(** Without the precondition the destination can leave the target
    directory: the program does not look at the elements of a name. *)
Example entry_path_leaves_target :
  entry_path "out" {| Name := "../../etc/passwd"; Mode := mode_0644; Open := Err ErrZip |}
  = "../etc/passwd".
Proof. reflexivity. Qed.

(** ** readFileFromZipAndWriteToFilesystem: the directory of an entry *)

Lemma filepath_Clean_nonempty p : filepath_Clean p ≠ "".
Proof.
  unfold filepath_Clean.
  by destruct (String.eqb_spec
    (if rooted p
     then SeparatorS +:+
          strings_Join (rev (foldl (clean_step (rooted p)) [] (strings_Split p Separator)))
            SeparatorS
     else strings_Join (rev (foldl (clean_step (rooted p)) [] (strings_Split p Separator)))
            SeparatorS) "").
Qed.

(** A separator at the end of a path changes nothing for [filepath.Clean]. *)
Lemma filepath_Clean_trailing_separator s :
  s ≠ "" → filepath_Clean (s +:+ SeparatorS) = filepath_Clean s.
Proof.
  intros Hs. unfold filepath_Clean. rewrite rooted_append by done.
  change (s +:+ SeparatorS) with (s +:+ String Separator "").
  by rewrite strings_Split_app, foldl_app.
Qed.

(** [filepath.Dir] in terms of the elements before the last. *)
Lemma filepath_Dir_elements p :
  filepath_Dir p =
  match take (List.length (strings_Split p Separator) - 1) (strings_Split p Separator) with
  | [] => filepath_Clean ""
  | before => filepath_Clean (strings_Join before SeparatorS +:+ SeparatorS)
  end.
Proof.
  unfold filepath_Dir.
  rewrite <-(rev_involutive (strings_Split p Separator)) at 2 3.
  destruct (rev (strings_Split p Separator)) as [|lst before]; [done|].
  cbn [rev]. rewrite length_app. cbn [List.length].
  replace (List.length (rev before) + 1 - 1)%nat with (List.length (rev before)) by lia.
  rewrite take_app_length.
  destruct before as [|b before]; [done|].
  cbn [rev]. by destruct (rev before).
Qed.

Lemma no_directory_part_spec p :
  no_directory_part p =
  String.eqb
    (strings_Join
       (take (List.length (strings_Split p Separator) - 1) (strings_Split p Separator))
       SeparatorS) "".
Proof.
  unfold no_directory_part.
  pose proof (strings_Split_nonempty p Separator) as Hne.
  destruct (strings_Split p Separator) as [|a [|b [|c rest]]]; [done|reflexivity..|].
  cbn [List.length Nat.sub take]. rewrite strings_Join_cons.
  symmetry. apply String.eqb_neq. by destruct a.
Qed.

(** The directory that lines 186-191 compute by hand is [filepath.Dir]
    of the path, whenever the path has a directory part. *)
Lemma intermediatePath_of_Dir p :
  intermediatePath_of p = if no_directory_part p then "" else filepath_Dir p.
Proof.
  rewrite no_directory_part_spec, filepath_Dir_elements. unfold intermediatePath_of.
  cbn zeta.
  set (before := take _ _).
  cbn [filepath_Join].
  destruct (String.eqb_spec (strings_Join before SeparatorS) "") as [E|E]; [done|].
  destruct before as [|b before]; [done|].
  cbn [strings_Join] in *. by rewrite filepath_Clean_trailing_separator.
Qed.

Lemma readFileFromZipAndWriteToFilesystem_steps file fullPath flag fc dc fr :
  readFileFromZipAndWriteToFilesystem file fullPath flag fc dc fr
  = if no_directory_part fullPath then mret None
    else
      err ← dc (filepath_Dir fullPath) mode_0755;
      match err with
      | Some e => mret (Some e)
      | None => writeEntry file fullPath flag fc dc fr
      end.
Proof.
  destruct (no_directory_part fullPath) eqn:Hn.
  - apply skip_without_intermediate_path. by rewrite intermediatePath_of_Dir, Hn.
  - unfold readFileFromZipAndWriteToFilesystem. cbn zeta.
    rewrite intermediatePath_of_Dir, Hn.
    assert (Nat.ltb 0 (List.length (strings_Split fullPath Separator)) = true) as ->.
    { pose proof (strings_Split_nonempty fullPath Separator).
      destruct (strings_Split fullPath Separator); done. }
    destruct (String.eqb_spec (filepath_Dir fullPath) "") as [E|E]; [|done].
    rewrite filepath_Dir_elements in E.
    destruct (take _ _); by apply filepath_Clean_nonempty in E.
Qed.

(** A path has no directory part when it is a name without separator,
    with or without one separator in front. *)
Lemma no_directory_part_iff p :
  no_directory_part p = true ↔
  ∃ name, strings_Split name Separator = [name] ∧ (p = name ∨ p = SeparatorS +:+ name).
Proof.
  unfold no_directory_part. split.
  - pose proof (strings_Join_Split p Separator) as Hp.
    destruct (strings_Split p Separator) as [|a [|b [|c rest]]] eqn:E; [done| | |done].
    + intros _. cbn in Hp. subst a. eauto.
    + intros Ha. apply String.eqb_eq in Ha as ->. exists b.
      rewrite strings_Join_cons in Hp. cbn [strings_Join] in Hp.
      change ("" +:+ String Separator "" +:+ b) with (SeparatorS +:+ b) in Hp.
      split; [|by right].
      rewrite <-Hp in E. change (SeparatorS +:+ b) with (String Separator b) in E.
      cbn [strings_Split] in E. rewrite Ascii.eqb_refl in E. by injection E.
  - intros (name & Hname & [->| ->]).
    + by rewrite Hname.
    + change (SeparatorS +:+ name) with (String Separator name).
      cbn [strings_Split]. rewrite Ascii.eqb_refl, Hname. done.
Qed.

(** X9. Which entries are skipped and which directory is made for the
    others (lines 186-202). An entry whose destination is a name
    without separator, with or without one separator in front, is
    skipped: nil is returned and nothing is done. For every other
    destination the directory creator is called on [filepath.Dir] of
    the destination with mode 0755; its error ends the work on the
    entry, otherwise the entry itself is handled. *)
Theorem entry_directory_made_first :
  ∀ (file : File) (fullPath : string) (fileAlreadyWritten : bool)
    (fileCreator : FileCreator) (directoryCreator : DirectoryCreator)
    (existingFileReader : FileReader),
    (no_directory_part fullPath = true ↔
     ∃ name, strings_Split name Separator = [name] ∧
             (fullPath = name ∨ fullPath = SeparatorS +:+ name)) ∧
    readFileFromZipAndWriteToFilesystem file fullPath fileAlreadyWritten fileCreator
      directoryCreator existingFileReader
    = if no_directory_part fullPath then mret None
      else
        err ← directoryCreator (filepath_Dir fullPath) mode_0755;
        match err with
        | Some e => mret (Some e)
        | None =>
            writeEntry file fullPath fileAlreadyWritten fileCreator directoryCreator
              existingFileReader
        end.
Proof.
  intros file p flag fc dc fr. split.
  - apply no_directory_part_iff.
  - apply readFileFromZipAndWriteToFilesystem_steps.
Qed.


(** ** Runs, piece by piece *)

Section run_parts.
Context {W : Type} (h : handler W).

Lemma run_perform (c : call) (w : W) :
  run h (perform c) w = ((h c w).1, (h c w).2, [Ev c (h c w).1]).
Proof. unfold perform. by rewrite run_Do. Qed.

End run_parts.

Lemma only_ret {A} P (a : A) : only P (mret a).
Proof. intros W h w. constructor. Qed.

Lemma only_perform P c : P c → only P (perform c).
Proof. intros Hc W h w. rewrite run_perform. by repeat constructor. Qed.

Lemma only_bind {A B} P (p : Prog A) (f : A → Prog B) :
  only P p → (∀ a, only P (f a)) → only P (p ≫= f).
Proof.
  intros Hp Hf W h w. rewrite calls_of_bind. apply Forall_app. split; [apply Hp|apply Hf].
Qed.

(** ** The calls of an extraction *)

Section extraction_calls.
Context (P : call → Prop).
Context (fileCreator : FileCreator) (directoryCreator : DirectoryCreator)
  (existingFileReader : FileReader).
Context (HfileCreator : ∀ rd path, only P (fileCreator rd path)).
Context (HdirectoryCreator : ∀ path mode, only P (directoryCreator path mode)).
Context (HexistingFileReader : ∀ path, only P (existingFileReader path)).
Context (Hclose : ∀ rd, P (reader_Close rd)).

Lemma only_combineJSONFile rd path : only P (combineJSONFile rd existingFileReader path).
Proof using HexistingFileReader.
  unfold combineJSONFile. apply only_bind; [done|].
  intros [existing|e]; [|apply only_ret].
  destruct (ioutil_ReadAll rd); [|apply only_ret].
  destruct (combineJSON _ _); apply only_ret.
Qed.

Lemma only_writeEntry file path flag :
  only P (writeEntry file path flag fileCreator directoryCreator existingFileReader).
Proof using HfileCreator HdirectoryCreator HexistingFileReader Hclose.
  unfold writeEntry. destruct (File_IsDir file); [done|].
  destruct (Open file) as [rd|e]; [|apply only_ret].
  apply only_bind.
  - destruct flag; [|done]. apply only_bind; [apply only_combineJSONFile|].
    intros [combined|e]; [done|apply only_ret].
  - intros err. apply only_bind; [by apply (only_perform P (reader_Close rd))|].
    intros _. destruct err; apply only_ret.
Qed.

Lemma only_readFileFromZipAndWriteToFilesystem file path flag :
  only P (readFileFromZipAndWriteToFilesystem file path flag fileCreator directoryCreator
            existingFileReader).
Proof using HfileCreator HdirectoryCreator HexistingFileReader Hclose.
  rewrite readFileFromZipAndWriteToFilesystem_steps.
  destruct (no_directory_part path); [apply only_ret|].
  apply only_bind; [done|]. intros [e|]; [apply only_ret|apply only_writeEntry].
Qed.

Lemma only_unzip_entries files targetLocation pathMap :
  only P (unzip_entries files targetLocation pathMap fileCreator directoryCreator
            existingFileReader).
Proof using HfileCreator HdirectoryCreator HexistingFileReader Hclose.
  revert pathMap. induction files as [|file files IH]; intros pathMap; [apply only_ret|].
  cbn [unzip_entries]. apply only_bind; [apply only_readFileFromZipAndWriteToFilesystem|].
  intros _. apply IH.
Qed.

Lemma only_unzip sourceFileLocation targetLocation pathMap :
  P (zip_OpenReader sourceFileLocation) →
  only P (unzip sourceFileLocation targetLocation pathMap fileCreator directoryCreator
            existingFileReader).
Proof using HfileCreator HdirectoryCreator HexistingFileReader Hclose.
  intros Hopen. unfold unzip.
  apply only_bind; [by apply (only_perform P (zip_OpenReader sourceFileLocation))|].
  intros [files|e]; [|apply only_ret].
  apply only_bind; [destruct (negb _); [done|apply only_ret]|].
  intros [e|]; [apply only_ret|].
  apply only_bind; [apply only_unzip_entries|]. intros ?. apply only_ret.
Qed.

End extraction_calls.

Lemma only_createDirectory P path mode :
  P (os_Stat path) → P (os_MkdirAll path mode) → only P (createDirectory path mode).
Proof.
  intros H1 H2. unfold createDirectory.
  apply only_bind; [by apply (only_perform P (os_Stat path))|].
  intros [e|]; [by apply (only_perform P (os_MkdirAll path mode))|apply only_ret].
Qed.

Lemma only_writeNewFile P rd path :
  P (os_OpenFile path mode_0644) → P (io_Copy_file path rd) → P (file_Close path) →
  only P (writeNewFile rd path).
Proof.
  intros H1 H2 H3. unfold writeNewFile.
  apply only_bind; [by apply (only_perform P (os_OpenFile path mode_0644))|].
  intros [e|]; [apply only_ret|].
  apply only_bind; [by apply (only_perform P (io_Copy_file path rd))|]. intros err.
  apply only_bind; [by apply (only_perform P (file_Close path))|].
  intros _. destruct err; apply only_ret.
Qed.

Lemma only_readExistingFile P path : P (ioutil_ReadFile path) → only P (readExistingFile path).
Proof. intros H1. by apply (only_perform P (ioutil_ReadFile path)). Qed.

Lemma unzip_extracts sourceFileLocation targetLocation pathMap :
  only extracts (unzip sourceFileLocation targetLocation pathMap writeNewFile createDirectory
                   readExistingFile).
Proof.
  apply only_unzip; try done.
  - intros. by apply only_writeNewFile.
  - intros. by apply only_createDirectory.
  - intros. by apply only_readExistingFile.
Qed.

(** X10. What an extraction does to its environment with the
    capabilities that retrieve.go passes ([writeNewFile],
    [createDirectory], [readExistingFile]): it opens the archive, looks
    up and makes directories, opens, writes and closes files, reads
    existing files and closes entry readers. It makes no other call: in
    particular it removes nothing and creates no temporary file, whatever
    the archive holds and whatever the environment answers. Every file
    it opens for writing is opened with mode 0644, whatever mode the
    archive records for the entry. *)
Theorem extraction_removes_nothing :
  ∀ (W : Type) (h : handler W) (w : W) (sourceFileLocation targetLocation : string)
    (pathMap : gmap string bool),
    let r := run h (unzip sourceFileLocation targetLocation pathMap writeNewFile
                      createDirectory readExistingFile) w in
    Forall extracts (calls_of r) ∧
    (∀ path, (os_Remove path ∉ calls_of r) ∧ (os_RemoveAll path ∉ calls_of r)) ∧
    (∀ dir pattern, ioutil_TempFile dir pattern ∉ calls_of r) ∧
    (∀ path perm, os_OpenFile path perm ∈ calls_of r → perm = mode_0644).
Proof.
  intros W h w src tl pm r.
  pose proof (unzip_extracts src tl pm W h w) as Hall. fold r in Hall.
  split; [done|]. rewrite Forall_forall in Hall.
  split_and!.
  - intros path. split; intros Hin; by apply Hall in Hin.
  - intros dir pattern Hin. by apply Hall in Hin.
  - intros path perm Hin. by apply Hall in Hin.
Qed.

(** ** Merging onto an existing file *)

(** [combineJSONFile] does nothing to its environment but what reading
    the existing file does. *)
Lemma run_combineJSONFile {W} (h : handler W) (w : W) rd fr path :
  run h (combineJSONFile rd fr path) w =
  let read := run h (fr path) w in
  (match result_of read with
   | Err e => Err e
   | Ok existingBytes =>
       match ioutil_ReadAll rd with
       | Err e => Err e
       | Ok newBytes =>
           match combineJSON existingBytes newBytes with
           | Err e => Err e
           | Ok indented => Ok (NopCloser_NewReader indented)
           end
       end
   end, world_of read, trace_of read).
Proof.
  unfold combineJSONFile. rewrite run_bind. cbn zeta.
  unfold result_of, world_of, trace_of.
  destruct (run h (fr path) w) as [[[existing|e] w1] tr]; cbn [fst snd].
  - destruct (ioutil_ReadAll rd); [|by rewrite run_ret, app_nil_r].
    destruct (combineJSON _ _); by rewrite run_ret, app_nil_r.
  - by rewrite run_ret, app_nil_r.
Qed.

(** X11. A merge that fails writes nothing (lines 214-221). For a
    regular entry whose destination was written before in the run: when
    [combineJSONFile] returns an error, be it from reading the existing
    file, from reading the entry or from the merge, the work on the
    entry returns that error, and its calls are those of reading the
    existing file followed by closing the entry's reader. The file
    creator is not called, so the file on disk stays as it was. *)
Theorem failed_merge_writes_nothing :
  ∀ (W : Type) (h : handler W) (w : W) (file : File) (fileReader : Reader)
    (fullPath : string) (fileCreator : FileCreator) (directoryCreator : DirectoryCreator)
    (existingFileReader : FileReader) (e : error),
    File_IsDir file = false →
    Open file = Ok fileReader →
    result_of (run h (combineJSONFile fileReader existingFileReader fullPath) w) = Err e →
    let read := run h (existingFileReader fullPath) w in
    let r := run h (writeEntry file fullPath true fileCreator directoryCreator
                      existingFileReader) w in
    result_of r = Some e ∧
    calls_of r = calls_of read ++ [reader_Close fileReader] ∧
    world_of r = (h (reader_Close fileReader) (world_of read)).2.
Proof.
  intros W h w file rd path fc dc fr e Hdir Hopen Hfail read r. subst r.
  rewrite (writeEntry_merge file rd path fc dc fr Hdir Hopen).
  pose proof (run_combineJSONFile h w rd fr path) as Hc. cbn zeta in Hc. fold read in Hc.
  rewrite !run_bind. cbn zeta.
  unfold result_of, world_of, calls_of, trace_of in *.
  destruct (run h (combineJSONFile rd fr path) w) as [[res w1] tr].
  cbn [fst snd] in *. subst res. injection Hc as _ -> ->.
  rewrite run_ret. cbn [fst snd]. rewrite run_bind. cbn zeta.
  rewrite (run_perform h (reader_Close rd)). cbn [fst snd].
  rewrite run_ret. cbn [fst snd].
  split_and!; [done| |done].
  by rewrite !app_nil_r, fmap_app.
Qed.

Lemma failed_merge_writes_nothing_witness :
  let r := run mem_handler
             (writeEntry logo "out/files/logo.png" true writeNewFile createDirectory
                readExistingFile) fs_logo_written in
  result_of r = Some ErrBadJSONDoc ∧
  calls_of r = [ioutil_ReadFile "out/files/logo.png";
                reader_Close {| r_data := [LJunk "137"%char; LJunk "P"%char];
                                r_err := None |}] ∧
  world_of r = fs_logo_written.
Proof.
  exact (failed_merge_writes_nothing MemFS mem_handler fs_logo_written logo
           {| r_data := [LJunk "137"%char; LJunk "P"%char]; r_err := None |}
           "out/files/logo.png" writeNewFile createDirectory readExistingFile ErrBadJSONDoc
           eq_refl eq_refl eq_refl).
Defined.

(** ** unzip: first encounters and failures *)

(** A destination met for the first time is written without a look at
    what is on disk. *)
Lemma fresh_entry_reads_nothing file path fc dc (fr fr' : FileReader) :
  readFileFromZipAndWriteToFilesystem file path false fc dc fr =
  readFileFromZipAndWriteToFilesystem file path false fc dc fr'.
Proof.
  rewrite !readFileFromZipAndWriteToFilesystem_steps. unfold writeEntry. reflexivity.
Qed.

Lemma fresh_entries_read_nothing {W} (h : handler W) files tl pm fc dc (fr fr' : FileReader) w :
  NoDup (entry_path tl <$> files) →
  (∀ file, file ∈ files → entry_path tl file ∉ dom pm) →
  run h (unzip_entries files tl pm fc dc fr) w = run h (unzip_entries files tl pm fc dc fr') w.
Proof.
  revert pm w. induction files as [|file files IH]; intros pm w Hnd Hfresh; [done|].
  cbn [unzip_entries]. rewrite !run_bind. cbn zeta.
  rewrite registerPath_answer.
  rewrite bool_decide_eq_false_2 by (apply Hfresh; apply list_elem_of_here).
  rewrite (fresh_entry_reads_nothing file _ fc dc fr fr').
  cbn [fmap list_fmap] in Hnd. apply NoDup_cons in Hnd as [Hnotin Hnd].
  rewrite IH; [done|done|].
  intros f Hf. rewrite registerPath_dom. apply not_elem_of_union. split.
  - apply Hfresh. by apply list_elem_of_further.
  - apply not_elem_of_singleton. intros Heq. apply Hnotin. rewrite <-Heq.
    by apply list_elem_of_fmap_2.
Qed.

(** X12. An archive whose entries go to destinations that differ from
    one another and were not met before in the run is extracted without
    reading any existing file: the run of [unzip] is the same whatever
    the file reader is. What lies at a destination from an earlier
    retrieval is overwritten, not merged. *)
Theorem fresh_archive_reads_no_existing_file :
  ∀ (W : Type) (h : handler W) (w : W) (sourceFileLocation targetLocation : string)
    (pathMap : gmap string bool) (fileCreator : FileCreator)
    (directoryCreator : DirectoryCreator) (existingFileReader other : FileReader)
    (entries : list File),
    (h (zip_OpenReader sourceFileLocation) w).1 = Ok entries →
    NoDup (entry_path targetLocation <$> entries) →
    (∀ file, file ∈ entries → entry_path targetLocation file ∉ dom pathMap) →
    run h (unzip sourceFileLocation targetLocation pathMap fileCreator directoryCreator
             existingFileReader) w
    = run h (unzip sourceFileLocation targetLocation pathMap fileCreator directoryCreator
               other) w.
Proof.
  intros W h w src tl pm fc dc fr fr' entries Hopen Hnd Hfresh.
  unfold unzip. rewrite !run_bind. cbn zeta.
  rewrite (run_perform h (zip_OpenReader src)). cbn [fst snd]. rewrite Hopen.
  rewrite !run_bind. cbn zeta.
  destruct (run h (if negb (String.eqb tl "") then dc tl mode_0755 else mret None) _)
    as [[[e|] w1] tr]; cbn [fst snd]; [done|].
  rewrite !run_bind. cbn zeta.
  by rewrite (fresh_entries_read_nothing h entries tl pm fc dc fr fr' w1).
Qed.

Lemma fresh_archive_reads_no_existing_file_witness :
  run mem_handler
    (unzip "/tmp/skuid0" "out" ∅ writeNewFile createDirectory readExistingFile)
    fs_first_page_locked
  = run mem_handler
      (unzip "/tmp/skuid0" "out" ∅ writeNewFile createDirectory no_FileReader)
      fs_first_page_locked.
Proof.
  apply (fresh_archive_reads_no_existing_file MemFS mem_handler fs_first_page_locked
           "/tmp/skuid0" "out" ∅ writeNewFile createDirectory readExistingFile no_FileReader
           [page_a; page_b]).
  - reflexivity.
  - apply (bool_decide_unpack _). vm_compute. exact I.
  - intros file _. rewrite dom_empty_L. apply not_elem_of_empty.
Defined.

(** X13. When [unzip] returns an error, no entry was touched: the
    registry is as it was, and the only calls were opening the archive
    and, when that succeeded, those of creating the target directory. *)
Theorem unzip_error_touches_no_entry :
  ∀ (W : Type) (h : handler W) (w : W) (sourceFileLocation targetLocation : string)
    (pathMap : gmap string bool) (fileCreator : FileCreator)
    (directoryCreator : DirectoryCreator) (existingFileReader : FileReader) (e : error),
    let r := run h (unzip sourceFileLocation targetLocation pathMap fileCreator
                      directoryCreator existingFileReader) w in
    (result_of r).2 = Some e →
    (result_of r).1 = pathMap ∧
    calls_of r =
      zip_OpenReader sourceFileLocation ::
      match (h (zip_OpenReader sourceFileLocation) w).1 with
      | Err _ => []
      | Ok _ =>
          calls_of (run h (directoryCreator targetLocation mode_0755)
                      (h (zip_OpenReader sourceFileLocation) w).2)
      end.
Proof.
  intros W h w src tl pm fc dc fr e r. subst r.
  unfold unzip, result_of, calls_of. rewrite run_bind. cbn zeta.
  rewrite (run_perform h (zip_OpenReader src)). cbn [fst snd].
  destruct (h (zip_OpenReader src) w) as [[entries|e0] w1]; cbn [fst snd];
    [|by rewrite run_ret].
  rewrite run_bind. cbn zeta.
  destruct (negb (String.eqb tl "")).
  - destruct (run h (dc tl mode_0755) w1) as [[[e1|] w2] tr]; cbn [fst snd].
    + rewrite run_ret. cbn [fst snd app]. by rewrite app_nil_r.
    + rewrite run_bind. cbn zeta. rewrite run_unzip_entries. cbn zeta. cbn [fst snd].
      by rewrite run_ret.
  - rewrite run_ret. cbn [fst snd]. rewrite run_bind. cbn zeta.
    rewrite run_unzip_entries. cbn zeta. cbn [fst snd]. by rewrite run_ret.
Qed.

Lemma unzip_error_touches_no_entry_witness :
  let r := run mem_handler
             (unzip "/tmp/skuid0" "out" {["out/pages/A.json" := true]} writeNewFile
                createDirectory readExistingFile) fs_spool_no_archive in
  (result_of r).1 = {["out/pages/A.json" := true]} ∧
  calls_of r = [zip_OpenReader "/tmp/skuid0"].
Proof.
  exact (unzip_error_touches_no_entry MemFS mem_handler fs_spool_no_archive "/tmp/skuid0"
           "out" {["out/pages/A.json" := true]} writeNewFile createDirectory
           readExistingFile ErrZip eq_refl).
Defined.

(** ** Entries: directories and readers *)

(** X5. A directory entry whose destination has a directory part is
    made in two steps, by the directory creator alone: the parent of
    the destination with mode 0755, then the destination with the mode
    that the archive records for the entry. An error of the first step
    ends the work. Nothing is opened, read, merged or written, whether
    or not the destination was met before in the run. *)
Theorem directory_entry_created_with_its_mode :
  ∀ (W : Type) (h : handler W) (w : W) (file : File) (fullPath : string)
    (fileAlreadyWritten : bool) (fileCreator : FileCreator)
    (directoryCreator : DirectoryCreator) (existingFileReader : FileReader),
    File_IsDir file = true →
    no_directory_part fullPath = false →
    let parent := run h (directoryCreator (filepath_Dir fullPath) mode_0755) w in
    let r := run h (readFileFromZipAndWriteToFilesystem file fullPath fileAlreadyWritten
                      fileCreator directoryCreator existingFileReader) w in
    match result_of parent with
    | Some e => r = (Some e, world_of parent, trace_of parent)
    | None =>
        let made := run h (directoryCreator fullPath (Mode file)) (world_of parent) in
        r = (result_of made, world_of made, trace_of parent ++ trace_of made)
    end.
Proof.
  intros W h w file p flag fc dc fr Hdir Hpart parent r. subst r.
  rewrite readFileFromZipAndWriteToFilesystem_steps, Hpart. rewrite run_bind. cbn zeta.
  fold parent. unfold result_of, world_of, trace_of.
  destruct parent as [[[e|] w1] tr1]; cbn [fst snd].
  - by rewrite run_ret, app_nil_r.
  - unfold writeEntry. rewrite Hdir.
    by destruct (run h (dc p (Mode file)) w1) as [[res w2] tr2].
Qed.

Lemma directory_entry_created_with_its_mode_witness :
  run mem_handler
    (readFileFromZipAndWriteToFilesystem pages_dir "out/pages" true writeNewFile
       createDirectory readExistingFile) empty_fs
  = (None, with_dirs (λ d, d ∪ {["out"]} ∪ {["out/pages"]}) empty_fs,
     [Ev (os_Stat "out") (Some (ErrOS "stat" "out"));
      Ev (os_MkdirAll "out" mode_0755) None;
      Ev (os_Stat "out/pages") (Some (ErrOS "stat" "out/pages"));
      Ev (os_MkdirAll "out/pages" (2 ^ 31 + 493)%N) None]).
Proof.
  exact (directory_entry_created_with_its_mode MemFS mem_handler empty_fs pages_dir
           "out/pages" true writeNewFile createDirectory readExistingFile eq_refl eq_refl).
Defined.

Lemma never_closes_writeNewFile rd path :
  only (λ c, closed_reader c = None) (writeNewFile rd path).
Proof. by apply only_writeNewFile. Qed.

Lemma never_closes_readExistingFile path :
  only (λ c, closed_reader c = None) (readExistingFile path).
Proof. by apply only_readExistingFile. Qed.

Lemma omap_closed_reader_nil (calls : list call) :
  Forall (λ c, closed_reader c = None) calls → omap closed_reader calls = [].
Proof. induction 1 as [|c calls Hc _ IH]; [done|]. cbn. by rewrite Hc. Qed.

(** X6. The reader of an entry is closed once the entry was opened
    (line 212), with the capabilities that retrieve.go passes: for a
    regular entry that [Open] gave a reader for, the last call of the
    work on the entry closes that reader, and no other reader is
    closed; this holds whether the write succeeded or failed and also
    after a merge, where the content written comes from another reader.
    What the work returns is what the merge or the write returned:
    the outcome of closing is dropped. *)
Theorem entry_reader_closed_once :
  ∀ (W : Type) (h : handler W) (w : W) (file : File) (fileReader : Reader)
    (fullPath : string) (fileAlreadyWritten : bool),
    File_IsDir file = false →
    Open file = Ok fileReader →
    let r := run h (writeEntry file fullPath fileAlreadyWritten writeNewFile createDirectory
                      readExistingFile) w in
    let written :=
      run h (if fileAlreadyWritten
             then r ← combineJSONFile fileReader readExistingFile fullPath;
                  match r with
                  | Err err => mret (Some err)
                  | Ok combined => writeNewFile combined fullPath
                  end
             else writeNewFile fileReader fullPath) w in
    last (calls_of r) = Some (reader_Close fileReader) ∧
    omap closed_reader (calls_of r) = [fileReader] ∧
    result_of r = result_of written.
Proof.
  intros W h w file rd p flag Hdir Hopen r written.
  assert (Forall (λ c, closed_reader c = None) (calls_of written)) as Hnone.
  { subst written. destruct flag; [|apply never_closes_writeNewFile].
    apply only_bind.
    - apply only_combineJSONFile. apply never_closes_readExistingFile.
    - intros [combined|e]; [apply never_closes_writeNewFile|apply only_ret]. }
  apply omap_closed_reader_nil in Hnone.
  assert (calls_of r = calls_of written ++ [reader_Close rd] ∧
          result_of r = result_of written) as [Hc Hr].
  { subst r written. unfold writeEntry. rewrite Hdir, Hopen. rewrite run_bind. cbn zeta.
    unfold result_of, calls_of.
    destruct (run h (if flag then _ else _) w) as [[res w1] tr1]. cbn [fst snd].
    rewrite run_bind. cbn zeta. rewrite (run_perform h (reader_Close rd)). cbn [fst snd].
    destruct res; rewrite run_ret; cbn [fst snd]; by rewrite app_nil_r, fmap_app. }
  split_and!; [|by rewrite Hc, omap_app, Hnone|done].
  rewrite Hc. apply last_snoc.
Qed.

Lemma entry_reader_closed_once_witness :
  let r := run mem_handler
             (writeEntry logo "out/files/logo.png" true writeNewFile createDirectory
                readExistingFile) fs_logo_written in
  last (calls_of r) = Some (reader_Close {| r_data := [LJunk "137"%char; LJunk "P"%char];
                                          r_err := None |}) ∧
  omap closed_reader (calls_of r) = [{| r_data := [LJunk "137"%char; LJunk "P"%char];
                                        r_err := None |}] ∧
  result_of r = Some ErrBadJSONDoc.
Proof.
  exact (entry_reader_closed_once MemFS mem_handler fs_logo_written logo
           {| r_data := [LJunk "137"%char; LJunk "P"%char]; r_err := None |}
           "out/files/logo.png" true eq_refl eq_refl).
Defined.


(** ** writeResultsToDisk as a whole *)

(** The four stages of [writeResultsToDisk]. *)
Lemma run_writeResultsToDisk {W} (h : handler W) (w : W) td dirNames fc dc fr results :
  run h (writeResultsToDisk td dirNames fc dc fr results) w =
  let located := run h (getFriendlyURL td) w in
  match result_of located with
  | Err e => (Some e, world_of located, trace_of located)
  | Ok _ =>
      let cleared := run h (removeMetadataDirs td dirNames) (world_of located) in
      let processed := run h (processResults td fc dc fr results ∅ []) (world_of cleared) in
      let removed := run h (runDeferred (result_of processed).2) (world_of processed) in
      ((result_of processed).1.1, world_of removed,
       trace_of located ++ trace_of cleared ++ trace_of processed ++ trace_of removed)
  end.
Proof.
  unfold writeResultsToDisk. rewrite run_bind. cbn zeta.
  unfold result_of, world_of, trace_of.
  destruct (run h (getFriendlyURL td) w) as [[[friendly|e0] w1] tr1]; cbn [fst snd];
    [|by rewrite run_ret, app_nil_r].
  rewrite run_bind. cbn zeta.
  destruct (run h (removeMetadataDirs td dirNames) w1) as [[u w2] tr2]; cbn [fst snd].
  rewrite run_bind. cbn zeta.
  destruct (run h (processResults td fc dc fr results ∅ []) w2) as [[out w3] tr3];
    cbn [fst snd].
  rewrite run_bind. cbn zeta.
  destruct (run h (runDeferred out.2) w3) as [[u' w4] tr4]; cbn [fst snd].
  rewrite run_ret. cbn [fst snd]. by rewrite app_nil_r.
Qed.

(** X14. When the place to report cannot be resolved, nothing is
    touched. With the empty path as target directory the program asks
    for the absolute directory of its executable; when that fails,
    [writeResultsToDisk] returns the error after these two calls: no
    directory is removed, no payload is read. *)
Theorem unresolved_location_touches_nothing :
  ∀ (W : Type) (h : handler W) (w : W) (dirNames : list string)
    (fileCreator : FileCreator) (directoryCreator : DirectoryCreator)
    (existingFileReader : FileReader) (results : list ReadCloser) (e : error),
    let arg0 := (h (os_Args 0) w).1 in
    (h (filepath_Abs (filepath_Dir arg0)) (h (os_Args 0) w).2).1 = Err e →
    let r := run h (writeResultsToDisk "" dirNames fileCreator directoryCreator
                      existingFileReader results) w in
    result_of r = Some e ∧
    calls_of r = [os_Args 0; filepath_Abs (filepath_Dir arg0)].
Proof.
  intros W h w dirNames fc dc fr results e arg0 Habs r. subst r arg0.
  unfold writeResultsToDisk, getFriendlyURL. cbn [String.eqb].
  unfold result_of, calls_of.
  rewrite !run_bind. cbn zeta. rewrite (run_perform h (os_Args 0)). cbn [fst snd].
  rewrite !run_bind. cbn zeta. rewrite (run_perform h (filepath_Abs _)). cbn [fst snd].
  rewrite Habs. rewrite !run_ret. cbn [fst snd]. done.
Qed.

Lemma unresolved_location_touches_nothing_witness :
  let r := run lost_cwd_handler
             (writeResultsToDisk "" ["pages"; "files"] writeNewFile createDirectory
                readExistingFile [archive [page_a]]) fs_with_page in
  result_of r = Some (ErrOS "getwd" ".") ∧
  calls_of r = [os_Args 0; filepath_Abs "."].
Proof.
  exact (unresolved_location_touches_nothing MemFS lost_cwd_handler fs_with_page
           ["pages"; "files"] writeNewFile createDirectory readExistingFile
           [archive [page_a]] (ErrOS "getwd" ".") eq_refl).
Defined.

(** X15. How a run of [writeResultsToDisk] is made up once the place
    to report is resolved: first every metadata directory of the target
    is removed, in the order of the list and whatever the removals
    return; then the payloads are processed, from an empty registry;
    last the temporary files are removed. What is returned is the error
    that ended the processing, if any. The directories removed are
    those of the target directory as it was given, not of the place
    that was resolved. With no payload at all the directories are
    removed all the same and nil is returned. *)
Theorem run_clears_then_processes_then_removes :
  ∀ (W : Type) (h : handler W) (w : W) (targetDir : string) (dirNames : list string)
    (fileCreator : FileCreator) (directoryCreator : DirectoryCreator)
    (existingFileReader : FileReader) (results : list ReadCloser) (friendly : string),
    let located := run h (getFriendlyURL targetDir) w in
    result_of located = Ok friendly →
    let cleared := run h (removeMetadataDirs targetDir dirNames) (world_of located) in
    let processed := run h (processResults targetDir fileCreator directoryCreator
                              existingFileReader results ∅ []) (world_of cleared) in
    let r := run h (writeResultsToDisk targetDir dirNames fileCreator directoryCreator
                      existingFileReader results) w in
    calls_of cleared
      = (λ dirName, os_RemoveAll (filepath_Join [targetDir; dirName])) <$> dirNames ∧
    calls_of r = calls_of located ++ calls_of cleared ++ calls_of processed
                   ++ (os_Remove <$> (result_of processed).2) ∧
    result_of r = (result_of processed).1.1 ∧
    (results = [] → result_of r = None ∧ calls_of r = calls_of located ++ calls_of cleared).
Proof.
  intros W h w td dirNames fc dc fr results friendly located Hloc cleared processed r.
  assert (calls_of r = calls_of located ++ calls_of cleared ++ calls_of processed
                         ++ (os_Remove <$> (result_of processed).2) ∧
          result_of r = (result_of processed).1.1) as [Hc Hr].
  { subst r. rewrite run_writeResultsToDisk. cbn zeta. fold located. rewrite Hloc.
    fold cleared. fold processed.
    pose proof (runDeferred_calls h (world_of processed) (result_of processed).2) as Hd.
    unfold result_of, calls_of, trace_of in *. cbn [fst snd].
    split; [|done]. by rewrite !fmap_app, Hd. }
  split_and!; [apply removeMetadataDirs_calls|done|done|].
  intros ->. rewrite Hc, Hr. subst processed. cbn [processResults].
  rewrite run_ret. unfold result_of, calls_of. cbn [fst snd fmap list_fmap].
  by rewrite !app_nil_r.
Qed.

Lemma run_clears_then_processes_then_removes_witness :
  let r := run mem_handler
             (writeResultsToDisk "out" ["pages"; "files"] writeNewFile createDirectory
                readExistingFile []) fs_earlier_retrieval in
  result_of r = None ∧
  calls_of r = [os_RemoveAll "out/pages"; os_RemoveAll "out/files"] ∧
  files (world_of r) = ∅.
Proof.
  pose proof (run_clears_then_processes_then_removes MemFS mem_handler fs_earlier_retrieval
                "out" ["pages"; "files"] writeNewFile createDirectory readExistingFile []
                "out" eq_refl)
    as (_ & _ & _ & H).
  destruct (H eq_refl) as [H1 H2]. split_and!; [exact H1|exact H2|].
  vm_compute. reflexivity.
Defined.

(** The loop over the payloads ends at the first error. *)
Lemma processResults_stops {W} (h : handler W) td fc dc fr pre post pm deferred w e :
  (result_of (run h (processResults td fc dc fr pre pm deferred) w)).1.1 = Some e →
  run h (processResults td fc dc fr (pre ++ post) pm deferred) w
  = run h (processResults td fc dc fr pre pm deferred) w.
Proof.
  revert pm deferred w. induction pre as [|d pre IH]; intros pm deferred w; [done|].
  cbn [processResults app]. rewrite !run_bind. cbn zeta. unfold result_of.
  destruct (run h (createTemporaryZipFile d) w) as [[[tmp|e0] w1] tr1]; cbn [fst snd];
    [|done].
  rewrite !run_bind. cbn zeta.
  destruct (run h (unzip tmp td pm fc dc fr) w1) as [[[pm1 [e1|]] w2] tr2]; cbn [fst snd];
    [done|].
  intros Hfail. by rewrite IH.
Qed.

(** X16. The first payload that fails ends the run: when
    [writeResultsToDisk] returns an error for some payloads, it does
    exactly the same, call for call, when more payloads follow them.
    The payloads after the failing one are never read, and their bodies
    are never closed. *)
Theorem first_failure_ends_the_run :
  ∀ (W : Type) (h : handler W) (w : W) (targetDir : string) (dirNames : list string)
    (fileCreator : FileCreator) (directoryCreator : DirectoryCreator)
    (existingFileReader : FileReader) (results later : list ReadCloser) (e : error),
    result_of (run h (writeResultsToDisk targetDir dirNames fileCreator directoryCreator
                        existingFileReader results) w) = Some e →
    run h (writeResultsToDisk targetDir dirNames fileCreator directoryCreator
             existingFileReader (results ++ later)) w
    = run h (writeResultsToDisk targetDir dirNames fileCreator directoryCreator
               existingFileReader results) w.
Proof.
  intros W h w td dirNames fc dc fr results later e.
  rewrite !run_writeResultsToDisk. cbn zeta.
  destruct (result_of (run h (getFriendlyURL td) w)) as [friendly|e0]; [|done].
  unfold result_of at 1. cbn [fst snd]. intros Hfail.
  by rewrite (processResults_stops h td fc dc fr results later ∅ [] _ e).
Qed.

Lemma first_failure_ends_the_run_witness :
  run mem_handler
    (writeResultsToDisk "out" ["pages"] writeNewFile createDirectory readExistingFile
       ([broken_body] ++ [archive [page_a]])) empty_fs
  = run mem_handler
      (writeResultsToDisk "out" ["pages"] writeNewFile createDirectory readExistingFile
         [broken_body]) empty_fs.
Proof.
  exact (first_failure_ends_the_run MemFS mem_handler empty_fs "out" ["pages"] writeNewFile
           createDirectory readExistingFile [broken_body] [archive [page_a]]
           (ErrIO "unexpected EOF") eq_refl).
Defined.

(** ** What a run removes *)

Lemma spooled_file_call (ev : event) name :
  spooled_file ev = Some name → ∃ data, ev_call ev = io_Copy_body name data.
Proof.
  destruct ev as [c r]. destruct c; try done. cbn. destruct r; [done|].
  intros [= <-]. eauto.
Qed.

Lemma spares_trace (tr : list event) :
  Forall spares (ev_call <$> tr) →
  omap spooled_file tr = [] ∧ omap removed_file (ev_call <$> tr) = [] ∧
  ∀ path, os_RemoveAll path ∉ ev_call <$> tr.
Proof.
  induction tr as [|ev tr IH]; intros Hall.
  - split_and!; [done..|]. intros path. apply not_elem_of_nil.
  - cbn [fmap list_fmap] in Hall. apply Forall_cons in Hall as [Hev Htr].
    destruct (IH Htr) as (IH1 & IH2 & IH3). cbn [omap list_omap fmap list_fmap].
    fold (omap spooled_file tr). fold (omap removed_file (ev_call <$> tr)).
    rewrite IH1, IH2.
    split_and!.
    + destruct (spooled_file ev) as [name|] eqn:E; [|done].
      apply spooled_file_call in E as [data E]. by rewrite E in Hev.
    + by destruct (ev_call ev).
    + intros path Hin. apply elem_of_cons in Hin as [Hin|Hin]; [|by apply IH3 in Hin].
      by rewrite <-Hin in Hev.
Qed.

Lemma extracts_spares c : extracts c → spares c.
Proof. by destruct c. Qed.

Lemma only_getFriendlyURL P td :
  P (os_Args 0) → (∀ path, P (filepath_Abs path)) → only P (getFriendlyURL td).
Proof.
  intros H1 H2. unfold getFriendlyURL. destruct (String.eqb td ""); [|apply only_ret].
  apply only_bind; [by apply (only_perform P (os_Args 0))|]. intros arg0.
  apply only_bind; [by apply (only_perform P (filepath_Abs _))|].
  intros [?|?]; apply only_ret.
Qed.

Lemma getFriendlyURL_spares td : only spares (getFriendlyURL td).
Proof. by apply only_getFriendlyURL. Qed.

(** What spooling one payload shows in the run: the copy of the body,
    when it succeeded, and no removal. *)
Lemma createTemporaryZipFile_trace {W} (h : handler W) (w : W) data :
  let r := run h (createTemporaryZipFile data) w in
  omap spooled_file (trace_of r) =
    match result_of r with Ok tmpfile => [tmpfile] | Err _ => [] end ∧
  omap removed_file (calls_of r) = [] ∧
  ∀ path, os_RemoveAll path ∉ calls_of r.
Proof.
  cbn zeta. unfold createTemporaryZipFile, trace_of, result_of, calls_of.
  rewrite run_bind. cbn zeta. rewrite (run_perform h (ioutil_TempFile "" "skuid")).
  cbn [fst snd].
  destruct (h (ioutil_TempFile "" "skuid") w) as [[tmpfile|e] w1]; cbn [fst snd].
  - rewrite run_bind. cbn zeta. rewrite (run_perform h (io_Copy_body tmpfile data)).
    cbn [fst snd]. rewrite run_bind. cbn zeta.
    rewrite (run_perform h (body_Close data)). cbn [fst snd].
    destruct (h (io_Copy_body tmpfile data) w1) as [[e|] w2]; cbn [fst snd];
      rewrite run_ret; cbn [fst snd app]; (split_and!; [done..|]);
      intros path Hin;
      repeat (apply elem_of_cons in Hin as [Hin|Hin]; [discriminate|]);
      by apply not_elem_of_nil in Hin.
  - rewrite run_ret. cbn [fst snd app]. split_and!; [done..|].
    intros path Hin.
    repeat (apply elem_of_cons in Hin as [Hin|Hin]; [discriminate|]);
      by apply not_elem_of_nil in Hin.
Qed.

(** The names handed to the deferred removals are those of the
    temporary files that were filled, the latest first. *)
Lemma processResults_trace {W} (h : handler W) td results pm deferred (w : W) :
  let r := run h (processResults td writeNewFile createDirectory readExistingFile results
                    pm deferred) w in
  (result_of r).2 = rev (omap spooled_file (trace_of r)) ++ deferred ∧
  omap removed_file (calls_of r) = [] ∧
  ∀ path, os_RemoveAll path ∉ calls_of r.
Proof.
  cbn zeta. revert pm deferred w.
  induction results as [|d results IH]; intros pm deferred w.
  { cbn. split_and!; [done..|]. intros path. apply not_elem_of_nil. }
  cbn [processResults]. rewrite run_bind. cbn zeta.
  pose proof (createTemporaryZipFile_trace h w d) as (Hs1 & Hr1 & Ha1). cbn zeta in *.
  unfold result_of, trace_of, calls_of in *.
  destruct (run h (createTemporaryZipFile d) w) as [[[tmp|e0] w1] tr1]; cbn [fst snd] in *.
  2: { rewrite run_ret. cbn [fst snd]. rewrite app_nil_r, Hs1. done. }
  rewrite run_bind. cbn zeta.
  pose proof (unzip_extracts tmp td pm W h w1) as Hx.
  pose proof (Forall_impl _ _ _ Hx extracts_spares) as Hsp. clear Hx.
  unfold calls_of in Hsp. apply spares_trace in Hsp as (Hs2 & Hr2 & Ha2).
  destruct (run h (unzip tmp td pm writeNewFile createDirectory readExistingFile) w1)
    as [[[pm1 err] w2] tr2]; cbn [fst snd] in *.
  assert (∀ tr3, omap spooled_file (tr1 ++ tr2 ++ tr3) = tmp :: omap spooled_file tr3) as Hs.
  { intros tr3. by rewrite !omap_app, Hs1, Hs2. }
  assert (∀ tr3, omap removed_file (ev_call <$> tr1 ++ tr2 ++ tr3)
                 = omap removed_file (ev_call <$> tr3)) as Hr.
  { intros tr3. by rewrite !fmap_app, !omap_app, Hr1, Hr2. }
  assert (∀ tr3 path, os_RemoveAll path ∉ ev_call <$> tr3 →
                      os_RemoveAll path ∉ ev_call <$> tr1 ++ tr2 ++ tr3) as Ha.
  { intros tr3 path H3. rewrite !fmap_app, !not_elem_of_app. split_and!; [apply Ha1|apply Ha2|done]. }
  destruct err as [e1|].
  - rewrite run_ret. cbn [fst snd]. rewrite Hs, Hr. cbn [omap list_omap rev app].
    split_and!; [done..|]. intros path. apply Ha, not_elem_of_nil.
  - destruct (IH pm1 (tmp :: deferred) w2) as (IH1 & IH2 & IH3).
    destruct (run h (processResults td writeNewFile createDirectory readExistingFile results
                       pm1 (tmp :: deferred)) w2) as [[out w3] tr3]; cbn [fst snd] in *.
    rewrite Hs, Hr, IH1, IH2. cbn [rev]. rewrite <-app_assoc.
    split_and!; [done..|]. intros path. apply Ha, IH3.
Qed.

Lemma omap_nil_Forall {A B} (f : A → option B) (l : list A) :
  Forall (λ x, f x = None) l → omap f l = [].
Proof.
  induction 1 as [|x l Hx _ IH]; [done|]. cbn [omap list_omap]. by rewrite Hx.
Qed.

Lemma no_copy_no_spooled (tr : list event) :
  Forall (λ c, ∀ name data, c ≠ io_Copy_body name data) (ev_call <$> tr) →
  omap spooled_file tr = [].
Proof.
  intros Hall. apply omap_nil_Forall. apply Forall_fmap in Hall.
  eapply Forall_impl; [exact Hall|]. intros ev Hev. cbn in Hev.
  destruct (spooled_file ev) as [name|] eqn:E; [|done].
  apply spooled_file_call in E as [data E]. by apply Hev in E.
Qed.

Lemma omap_removed_file_Remove (names : list string) :
  omap removed_file (os_Remove <$> names) = names.
Proof. induction names as [|n names IH]; [done|]. cbn. by rewrite IH. Qed.

(** X17. What a run of [writeResultsToDisk] removes, with the
    capabilities that retrieve.go passes, in every environment. The
    files it removes with [os.Remove] are exactly the temporary files
    that it filled (those whose copy of the body returned nil), each
    once, the latest first; a temporary file whose copy failed is not
    among them. The only trees it removes with [os.RemoveAll] are the
    metadata directories of the target. *)
Theorem run_removes_what_it_spooled :
  ∀ (W : Type) (h : handler W) (w : W) (targetDir : string) (dirNames : list string)
    (results : list ReadCloser),
    let r := run h (writeResultsToDisk targetDir dirNames writeNewFile createDirectory
                      readExistingFile results) w in
    omap removed_file (calls_of r) = rev (omap spooled_file (trace_of r)) ∧
    (∀ path, os_RemoveAll path ∈ calls_of r →
             ∃ dirName, dirName ∈ dirNames ∧ path = filepath_Join [targetDir; dirName]).
Proof.
  intros W h w td dirNames results r. subst r.
  rewrite run_writeResultsToDisk. cbn zeta.
  pose proof (getFriendlyURL_spares td W h w) as Hl.
  unfold calls_of in Hl. apply spares_trace in Hl as (Hl1 & Hl2 & Hl3).
  unfold result_of, world_of, trace_of, calls_of.
  destruct (run h (getFriendlyURL td) w) as [[[friendly|e0] w1] tr1]; cbn [fst snd] in *.
  2: { rewrite Hl1, Hl2. split; [done|]. intros path Hin. by apply Hl3 in Hin. }
  pose proof (removeMetadataDirs_calls h w1 td dirNames) as Hc.
  destruct (run h (removeMetadataDirs td dirNames) w1) as [[u w2] tr2].
  unfold calls_of, world_of, trace_of in *. cbn [fst snd] in *.
  pose proof (processResults_trace h td results ∅ [] w2) as (Hp1 & Hp2 & Hp3).
  cbn zeta in *. unfold result_of, calls_of, trace_of in *.
  destruct (run h (processResults td writeNewFile createDirectory readExistingFile results
                     ∅ []) w2) as [[out w3] tr3]; cbn [fst snd] in *.
  pose proof (runDeferred_calls h w3 out.2) as Hd. unfold calls_of in Hd.
  destruct (run h (runDeferred out.2) w3) as [[u' w4] tr4]; cbn [fst snd] in *.
  rewrite app_nil_r in Hp1.
  assert (omap spooled_file tr2 = []) as Hs2.
  { apply no_copy_no_spooled. rewrite Hc. apply Forall_fmap, Forall_true. done. }
  assert (omap spooled_file tr4 = []) as Hs4.
  { apply no_copy_no_spooled. rewrite Hd. apply Forall_fmap, Forall_true. done. }
  assert (omap removed_file (ev_call <$> tr2) = []) as Hr2.
  { rewrite Hc. apply omap_nil_Forall, Forall_fmap, Forall_true. done. }
  split.
  - rewrite !fmap_app, !omap_app, Hl1, Hl2, Hs2, Hr2, Hp2, Hs4, Hd.
    rewrite omap_removed_file_Remove. cbn [app]. by rewrite app_nil_r.
  - intros path Hin. rewrite !fmap_app, !elem_of_app in Hin.
    destruct Hin as [Hin|[Hin|[Hin|Hin]]].
    + by apply Hl3 in Hin.
    + rewrite Hc in Hin. apply list_elem_of_fmap in Hin as (dirName & Heq & Hd').
      injection Heq as ->. eauto.
    + by apply Hp3 in Hin.
    + rewrite Hd in Hin. apply list_elem_of_fmap in Hin as (? & ? & _). discriminate.
Qed.

(** ** The bodies of the payloads *)

Lemma omap_none_of {A} (P : call → Prop) (f : call → option A) (calls : list call) :
  (∀ c, P c → f c = None) → Forall P calls → omap f calls = [].
Proof.
  intros HP Hall. apply omap_nil_Forall. eapply Forall_impl; [exact Hall|done].
Qed.

Lemma createTemporaryZipFile_bodies {W} (h : handler W) (w : W) data :
  let r := run h (createTemporaryZipFile data) w in
  omap closed_body (calls_of r) =
    match (h (ioutil_TempFile "" "skuid") w).1 with Ok _ => [data] | Err _ => [] end ∧
  (∀ tmpfile, result_of r = Ok tmpfile → omap closed_body (calls_of r) = [data]).
Proof.
  cbn zeta. unfold createTemporaryZipFile, result_of, calls_of.
  rewrite run_bind. cbn zeta. rewrite (run_perform h (ioutil_TempFile "" "skuid")).
  cbn [fst snd].
  destruct (h (ioutil_TempFile "" "skuid") w) as [[tmpfile|e] w1]; cbn [fst snd].
  - rewrite run_bind. cbn zeta. rewrite (run_perform h (io_Copy_body tmpfile data)).
    cbn [fst snd]. rewrite run_bind. cbn zeta.
    rewrite (run_perform h (body_Close data)). cbn [fst snd].
    by destruct (h (io_Copy_body tmpfile data) w1) as [[e|] w2]; cbn [fst snd];
      rewrite run_ret.
  - by rewrite run_ret.
Qed.

Lemma processResults_bodies {W} (h : handler W) td results pm deferred (w : W) :
  let r := run h (processResults td writeNewFile createDirectory readExistingFile results
                    pm deferred) w in
  omap closed_body (calls_of r) `prefix_of` results ∧
  ((result_of r).1.1 = None → omap closed_body (calls_of r) = results).
Proof.
  cbn zeta. revert pm deferred w.
  induction results as [|d results IH]; intros pm deferred w.
  { cbn. done. }
  cbn [processResults]. rewrite run_bind. cbn zeta.
  pose proof (createTemporaryZipFile_bodies h w d) as (Hb & Hok). cbn zeta in *.
  unfold result_of, calls_of in *.
  destruct (run h (createTemporaryZipFile d) w) as [[[tmp|e0] w1] tr1]; cbn [fst snd] in *.
  2: { rewrite run_ret. cbn [fst snd]. rewrite app_nil_r, Hb. split; [|done].
       destruct (h (ioutil_TempFile "" "skuid") w).1.
       - by apply prefix_cons, prefix_nil.
       - apply prefix_nil. }
  specialize (Hok tmp eq_refl). clear Hb.
  rewrite run_bind. cbn zeta.
  pose proof (unzip_extracts tmp td pm W h w1) as Hx.
  apply (omap_none_of extracts closed_body) in Hx; [|intros c Hc; by destruct c].
  unfold calls_of in Hx.
  destruct (run h (unzip tmp td pm writeNewFile createDirectory readExistingFile) w1)
    as [[[pm1 err] w2] tr2]; cbn [fst snd] in *.
  destruct err as [e1|].
  - rewrite run_ret. cbn [fst snd]. rewrite app_nil_r, fmap_app, omap_app, Hok, Hx.
    split; [|done]. by apply prefix_cons, prefix_nil.
  - destruct (IH pm1 (tmp :: deferred) w2) as (IH1 & IH2).
    destruct (run h (processResults td writeNewFile createDirectory readExistingFile results
                       pm1 (tmp :: deferred)) w2) as [[out w3] tr3]; cbn [fst snd] in *.
    rewrite !fmap_app, !omap_app, Hok, Hx. cbn [app]. split.
    + by apply prefix_cons.
    + intros Hnone. by rewrite IH2.
Qed.

(** X24. Which payloads are closed, with the capabilities that
    retrieve.go passes and in every environment. The bodies that a run
    of [writeResultsToDisk] closes are those of the first payloads of
    the list, each once and in order: a payload is closed once its
    temporary file was created, and the payloads after the one that
    ended the run are left open. When the run returns nil, every
    payload was closed. *)
Theorem bodies_closed_for_a_prefix_of_the_payloads :
  ∀ (W : Type) (h : handler W) (w : W) (targetDir : string) (dirNames : list string)
    (results : list ReadCloser),
    let r := run h (writeResultsToDisk targetDir dirNames writeNewFile createDirectory
                      readExistingFile results) w in
    omap closed_body (calls_of r) `prefix_of` results ∧
    (result_of r = None → omap closed_body (calls_of r) = results).
Proof.
  intros W h w td dirNames results r. subst r.
  rewrite run_writeResultsToDisk. cbn zeta.
  pose proof (only_getFriendlyURL (λ c, closed_body c = None) td eq_refl (λ _, eq_refl) W h w)
    as Hl.
  apply omap_nil_Forall in Hl.
  unfold result_of, world_of, trace_of, calls_of in *.
  destruct (run h (getFriendlyURL td) w) as [[[friendly|e0] w1] tr1]; cbn [fst snd] in *.
  2: { rewrite Hl. split; [apply prefix_nil|done]. }
  pose proof (removeMetadataDirs_calls h w1 td dirNames) as Hc.
  destruct (run h (removeMetadataDirs td dirNames) w1) as [[u w2] tr2].
  unfold calls_of in *. cbn [fst snd] in *.
  pose proof (processResults_bodies h td results ∅ [] w2) as (Hp1 & Hp2).
  cbn zeta in *. unfold result_of, calls_of in *.
  destruct (run h (processResults td writeNewFile createDirectory readExistingFile results
                     ∅ []) w2) as [[out w3] tr3]; cbn [fst snd] in *.
  pose proof (runDeferred_calls h w3 out.2) as Hd. unfold calls_of in Hd.
  destruct (run h (runDeferred out.2) w3) as [[u' w4] tr4]; cbn [fst snd] in *.
  assert (omap closed_body (ev_call <$> tr2) = []) as H2.
  { rewrite Hc. apply omap_nil_Forall, Forall_fmap, Forall_true. done. }
  assert (omap closed_body (ev_call <$> tr4) = []) as H4.
  { rewrite Hd. apply omap_nil_Forall, Forall_fmap, Forall_true. done. }
  rewrite !fmap_app, !omap_app, Hl, H2, H4. cbn [app]. rewrite app_nil_r. done.
Qed.


(** ** ziputils.Archive: files, entries and calls *)

(** The run of the callback on one visit, case by case. *)
Lemma run_Archive_visit {W} (h : handler W) (w : W) basePath v :
  run h (Archive_visit basePath v) w =
  if bool_decide (is_Some (v_err v)) || v_isDir v then (v_err v, w, [])
  else
    let rel := h (filepath_Rel basePath (v_path v)) w in
    match rel.1 with
    | Err e => (Some e, rel.2, [Ev (filepath_Rel basePath (v_path v)) (Err e)])
    | Ok relativeFilePath =>
        let archivePath := path_Join (filepath_SplitList relativeFilePath) in
        let opened := h (os_Open (v_path v)) rel.2 in
        match opened.1 with
        | Some e =>
            (Some e, opened.2,
             [Ev (filepath_Rel basePath (v_path v)) (Ok relativeFilePath);
              Ev (os_Open (v_path v)) (Some e)])
        | None =>
            let created := h (zipWriter_Create archivePath) opened.2 in
            match created.1 with
            | Some e =>
                let closed := h (file_Close (v_path v)) created.2 in
                (Some e, closed.2,
                 [Ev (filepath_Rel basePath (v_path v)) (Ok relativeFilePath);
                  Ev (os_Open (v_path v)) None;
                  Ev (zipWriter_Create archivePath) (Some e);
                  Ev (file_Close (v_path v)) closed.1])
            | None =>
                let copied := h (io_Copy_zip archivePath (v_path v)) created.2 in
                let closed := h (file_Close (v_path v)) copied.2 in
                (copied.1, closed.2,
                 [Ev (filepath_Rel basePath (v_path v)) (Ok relativeFilePath);
                  Ev (os_Open (v_path v)) None;
                  Ev (zipWriter_Create archivePath) None;
                  Ev (io_Copy_zip archivePath (v_path v)) copied.1;
                  Ev (file_Close (v_path v)) closed.1])
            end
        end
    end.
Proof.
  unfold Archive_visit.
  destruct (bool_decide (is_Some (v_err v)) || v_isDir v); [done|]. simpl.
  destruct (h (filepath_Rel basePath (v_path v)) w) as [[rel|e] w1]; simpl; [|done].
  destruct (h (os_Open (v_path v)) w1) as [[e|] w2]; simpl; [done|].
  destruct (h (zipWriter_Create _) w2) as [[e|] w3]; simpl.
  - by destruct (h (file_Close (v_path v)) w3) as [r w4].
  - destruct (h (io_Copy_zip _ _) w3) as [r w4]; simpl.
    by destruct (h (file_Close (v_path v)) w4) as [r' w5].
Qed.

(** What one visit shows: every file opened is closed, and a visit that
    returns nil copied the file when it is a regular one. *)
Lemma Archive_visit_files {W} (h : handler W) (w : W) root basePath v :
  let r := run h (Archive_visit basePath v) w in
  omap opened_file (trace_of r) = omap closed_file (calls_of r) ∧
  Forall (archives root basePath) (calls_of r) ∧
  (result_of r = None →
   omap copied_file (calls_of r) = if v_isDir v then [] else [v_path v]).
Proof.
  cbn zeta. rewrite run_Archive_visit.
  destruct (bool_decide (is_Some (v_err v)) || v_isDir v) eqn:Hskip.
  { unfold result_of, calls_of, trace_of. cbn [fst snd]. split_and!; [done..|].
    intros Herr. rewrite Herr in Hskip. cbn in Hskip. by rewrite Hskip. }
  apply orb_false_iff in Hskip as [_ ->]. cbn zeta.
  destruct (h (filepath_Rel basePath (v_path v)) w) as [[rel|e] w1]; cbn [fst snd].
  2: { unfold result_of, calls_of, trace_of. cbn. split_and!; [done|by repeat constructor|done]. }
  destruct (h (os_Open (v_path v)) w1) as [[e|] w2]; cbn [fst snd].
  { unfold result_of, calls_of, trace_of. cbn. split_and!; [done|by repeat constructor|done]. }
  destruct (h (zipWriter_Create _) w2) as [[e|] w3]; cbn [fst snd].
  { unfold result_of, calls_of, trace_of. cbn. split_and!; [done|by repeat constructor|done]. }
  unfold result_of, calls_of, trace_of. cbn. split_and!; [done|by repeat constructor|done].
Qed.

Lemma walk_files {W} (h : handler W) root basePath visits (w : W) :
  let r := run h (walk (Archive_visit basePath) visits) w in
  omap opened_file (trace_of r) = omap closed_file (calls_of r) ∧
  Forall (archives root basePath) (calls_of r) ∧
  (result_of r = None →
   omap copied_file (calls_of r) = v_path <$> filter (λ v, v_isDir v = false) visits).
Proof.
  cbn zeta. revert w. induction visits as [|v visits IH]; intros w.
  { cbn. done. }
  cbn [walk]. rewrite run_bind. cbn zeta.
  pose proof (Archive_visit_files h w root basePath v) as (Ho & Ha & Hc). cbn zeta in *.
  unfold result_of, calls_of, trace_of in *.
  destruct (run h (Archive_visit basePath v) w) as [[[e|] w1] tr1]; cbn [fst snd] in *.
  - rewrite run_ret. cbn [fst snd]. rewrite app_nil_r. done.
  - destruct (IH w1) as (IHo & IHa & IHc).
    destruct (run h (walk (Archive_visit basePath) visits) w1) as [[res w2] tr2];
      cbn [fst snd] in *.
    rewrite !fmap_app, !omap_app. split_and!.
    + by rewrite Ho, IHo.
    + by apply Forall_app.
    + intros Hres. rewrite Hc, IHc by done. rewrite filter_cons.
      destruct (v_isDir v); [by rewrite decide_False|by rewrite decide_True].
Qed.

Lemma Archive_files {W} (h : handler W) inFilePath (w : W) :
  let r := run h (Archive inFilePath) w in
  omap opened_file (trace_of r) = omap closed_file (calls_of r) ∧
  Forall (archives inFilePath (filepath_Dir inFilePath)) (calls_of r) ∧
  (result_of r = None →
   omap copied_file (calls_of r)
   = v_path <$> filter (λ v, v_isDir v = false) (h (filepath_Walk inFilePath) w).1).
Proof.
  cbn zeta. unfold Archive, filepath_Walk_with. rewrite !run_bind. cbn zeta.
  rewrite (run_perform h (filepath_Walk inFilePath)). cbn [fst snd].
  pose proof (walk_files h inFilePath (filepath_Dir inFilePath)
                (h (filepath_Walk inFilePath) w).1 (h (filepath_Walk inFilePath) w).2)
    as (Ho & Ha & Hc). cbn zeta in *.
  unfold result_of, calls_of, trace_of in *.
  destruct (run h (walk _ _) _) as [[[e|] w1] tr1]; cbn [fst snd] in *.
  - rewrite run_ret. cbn [fst snd app]. rewrite app_nil_r. cbn [fmap list_fmap omap list_omap].
    split_and!; [done|by constructor|done].
  - rewrite (run_perform h zipWriter_Close). cbn [fst snd app].
    cbn [fmap list_fmap omap list_omap]. rewrite !fmap_app, !omap_app.
    cbn [fmap list_fmap omap list_omap]. rewrite !app_nil_r.
    split_and!; [done| |by auto].
    constructor; [done|]. apply Forall_app. split; [done|by repeat constructor].
Qed.

(** X18. [Archive] leaves no file open: in every environment, the files
    that [os.Open] returned are closed, each once and in the same
    order, also when creating the entry or copying into it failed and
    when the walk ended with an error. *)
Theorem Archive_closes_every_file_it_opened :
  ∀ (W : Type) (h : handler W) (w : W) (inFilePath : string),
    let r := run h (Archive inFilePath) w in
    omap opened_file (trace_of r) = omap closed_file (calls_of r).
Proof. intros W h w inFilePath r. by destruct (Archive_files h inFilePath w) as (? & _). Qed.

(** X19. [Archive] only reads the tree that it archives. Its calls are
    the walk of the path it was given, relative paths taken from
    [filepath.Dir] of that path, files opened for reading and closed,
    entries created and filled, and the closing of the writer. It never
    creates, writes or removes a file or a directory. *)
Theorem Archive_only_reads_the_tree :
  ∀ (W : Type) (h : handler W) (w : W) (inFilePath : string),
    let r := run h (Archive inFilePath) w in
    Forall (archives inFilePath (filepath_Dir inFilePath)) (calls_of r) ∧
    (∀ path mode, (os_OpenFile path mode ∉ calls_of r) ∧ (os_MkdirAll path mode ∉ calls_of r)) ∧
    (∀ path, (os_Remove path ∉ calls_of r) ∧ (os_RemoveAll path ∉ calls_of r)).
Proof.
  intros W h w inFilePath r.
  destruct (Archive_files h inFilePath w) as (_ & Hall & _). fold r in Hall.
  split; [done|]. rewrite Forall_forall in Hall.
  split_and!; intros; split; intros Hin; by apply Hall in Hin.
Qed.

(** X20. When [Archive] returns nil, the content of every regular file
    of the walk was copied into the archive, once and in the order of
    the walk, and nothing else was. *)
Theorem Archive_copies_every_regular_file :
  ∀ (W : Type) (h : handler W) (w : W) (inFilePath : string),
    let r := run h (Archive inFilePath) w in
    result_of r = None →
    omap copied_file (calls_of r)
    = v_path <$> filter (λ v, v_isDir v = false) (h (filepath_Walk inFilePath) w).1.
Proof. intros W h w inFilePath r. by destruct (Archive_files h inFilePath w) as (_ & _ & ?). Qed.

Lemma Archive_copies_every_regular_file_witness :
  omap copied_file (calls_of (run mem_handler (Archive "site") fs_site))
  = ["site/a.json"; "site/b.json"].
Proof.
  exact (Archive_copies_every_regular_file MemFS mem_handler fs_site "site" eq_refl).
Defined.

(** ** ziputils.Archive: the base path and the names of the entries *)

Lemma plain_not_rooted e : plain e → rooted e = false.
Proof. intros (_ & _ & _ & Hs). by apply single_element_not_rooted. Qed.

Lemma strings_Join_plain_rooted es :
  Forall plain es → rooted (strings_Join es SeparatorS) = false.
Proof.
  destruct es as [|e es]; [done|]. intros Hall. apply Forall_cons in Hall as [He _].
  destruct es as [|e' es]; [by apply plain_not_rooted|].
  rewrite strings_Join_cons, rooted_append; [by apply plain_not_rooted|].
  by destruct He.
Qed.

Lemma strings_Split_Join_plain es :
  es ≠ [] → Forall plain es → strings_Split (strings_Join es SeparatorS) Separator = es.
Proof.
  intros Hne Hall. apply (strings_Split_Join es Separator Hne).
  eapply Forall_impl; [exact Hall|]. by intros e (_ & _ & _ & ?).
Qed.

(** A path made of names is clean already. *)
Lemma filepath_Clean_plain es :
  es ≠ [] → Forall plain es → filepath_Clean (strings_Join es SeparatorS) = strings_Join es SeparatorS.
Proof.
  intros Hne Hall. unfold filepath_Clean.
  rewrite strings_Join_plain_rooted by done.
  rewrite strings_Split_Join_plain by done.
  rewrite foldl_clean_step_no_dotdot.
  2: { intros Hin. rewrite Forall_forall in Hall. apply Hall in Hin. by destruct Hin as (_ & _ & ? & _). }
  rewrite app_nil_r, rev_involutive.
  assert (filter (λ e, e ≠ "" ∧ e ≠ ".") es = es) as ->.
  { clear Hne. induction Hall as [|e es He _ IH]; [done|].
    rewrite filter_cons, decide_True by (by destruct He as (? & ? & _)). by rewrite IH. }
  destruct (String.eqb_spec (strings_Join es SeparatorS) "") as [E|E]; [|done].
  apply strings_Join_empty_iff in E; [done|].
  eapply Forall_impl; [exact Hall|]. by intros e (? & _).
Qed.

(** X21. Where the names of the entries start (line 460 and the comment
    of [Archive]) and what they are (line 472), for a path made of
    names. When the path ends with a separator, the base of the
    relative paths is the path itself, so the content of the folder
    lies at the top of the archive; without it the base is the parent
    ([.] for a single name), so the folder is the one item at the top.
    A relative path made of names that hold no colon is the name of its
    entry, as it stands. *)
Theorem Archive_base_and_entry_names :
  ∀ es : list string,
    es ≠ [] → Forall plain es →
    let p := strings_Join es SeparatorS in
    filepath_Dir (p +:+ SeparatorS) = p ∧
    filepath_Dir p
      = (if bool_decide (List.length es = 1%nat) then "."
         else strings_Join (take (List.length es - 1) es) SeparatorS) ∧
    (strings_Split p ListSeparator = [p] → path_Join (filepath_SplitList p) = p).
Proof.
  intros es Hne Hall p.
  assert (strings_Split p Separator = es) as Hsplit
    by (by apply strings_Split_Join_plain).
  assert (p ≠ "") as Hp.
  { intros E. apply strings_Join_empty_iff in E; [done|].
    eapply Forall_impl; [exact Hall|]. by intros e (? & _). }
  split_and!.
  - rewrite filepath_Dir_elements.
    change (p +:+ SeparatorS) with (p +:+ String Separator "").
    rewrite strings_Split_app, Hsplit. cbn [strings_Split].
    rewrite length_app. cbn [List.length].
    replace (List.length es + 1 - 1)%nat with (List.length es) by lia.
    rewrite take_app_length.
    destruct es as [|e es]; [done|].
    fold p. rewrite filepath_Clean_trailing_separator by done.
    by apply filepath_Clean_plain.
  - rewrite filepath_Dir_elements, Hsplit.
    destruct es as [|e [|e' es]]; [done|done|].
    rewrite bool_decide_eq_false_2 by done.
    cbn [List.length Nat.sub take].
    set (before := e :: take _ _).
    assert (Forall plain before) as Hb.
    { subst before. apply Forall_cons in Hall as [He Hall]. constructor; [done|].
      by apply Forall_take. }
    rewrite filepath_Clean_trailing_separator.
    + by apply filepath_Clean_plain.
    + intros E. apply strings_Join_empty_iff in E; [done|].
      eapply Forall_impl; [exact Hb|]. by intros x (? & _).
  - intros Hcolon. unfold path_Join, filepath_SplitList.
    destruct (String.eqb_spec p ""); [done|]. rewrite Hcolon.
    cbn [filepath_Join strings_Join].
    destruct (String.eqb_spec p ""); [done|].
    by apply filepath_Clean_plain.
Qed.

Lemma Archive_base_and_entry_names_witness :
  filepath_Dir "site/pages/" = "site/pages" ∧
  filepath_Dir "site/pages" = "site" ∧
  path_Join (filepath_SplitList "site/pages") = "site/pages".
Proof.
  destruct (Archive_base_and_entry_names ["site"; "pages"]) as (H1 & H2 & H3);
    [done|repeat constructor; done|].
  split_and!; [exact H1|exact H2|exact (H3 eq_refl)].
Defined.

(** ** unzip: entries below a target directory made of names *)

(** [filepath.Dir] of a path made of two names or more. *)
Lemma filepath_Dir_plain es e :
  es ≠ [] → Forall plain (es ++ [e]) →
  filepath_Dir (strings_Join (es ++ [e]) SeparatorS) = strings_Join es SeparatorS.
Proof.
  intros Hne Hall. rewrite filepath_Dir_elements.
  rewrite strings_Split_Join_plain by (done || by destruct es).
  rewrite length_app. cbn [List.length].
  replace (List.length es + 1 - 1)%nat with (List.length es) by lia.
  rewrite take_app_length.
  apply Forall_app in Hall as [Hes _].
  destruct es as [|e0 es]; [done|].
  rewrite filepath_Clean_trailing_separator.
  - by apply filepath_Clean_plain.
  - intros E. apply strings_Join_empty_iff in E; [done|].
    eapply Forall_impl; [exact Hes|]. by intros x (? & _).
Qed.

Lemma kept_plain name :
  ".." ∉ strings_Split name Separator → Forall plain (kept name).
Proof.
  intros Hno. unfold kept. apply Forall_forall. intros e He.
  apply list_elem_of_filter in He as [[H1 H2] Hin].
  split_and!; [done..| |].
  - intros ->. done.
  - clear Hno H1 H2. revert e Hin. induction name as [|a name IH]; intros e Hin.
    + apply list_elem_of_singleton in Hin as ->. done.
    + destruct (Ascii.eqb a Separator) eqn:Ha.
      * cbn [strings_Split] in Hin. rewrite Ha in Hin.
        apply elem_of_cons in Hin as [->|Hin]; [done|by apply IH].
      * destruct (strings_Split_cons_other a name Separator Ha) as (h & t & E & E').
        rewrite E' in Hin. apply elem_of_cons in Hin as [->|Hin].
        -- assert (strings_Split h Separator = [h]) as Hh
             by (apply IH; rewrite E; apply list_elem_of_here).
           cbn [strings_Split]. by rewrite Ha, Hh.
        -- apply IH. rewrite E. by apply list_elem_of_further.
Qed.

(** The destination of an entry below a target directory made of
    names, with its directory. *)
Lemma entry_path_below_names (ts : list string) (file : File) (before : list string)
    (leaf : string) :
  ts ≠ [] → Forall plain ts →
  ".." ∉ strings_Split (Name file) Separator →
  kept (Name file) = before ++ [leaf] →
  let fullPath := entry_path (strings_Join ts SeparatorS) file in
  fullPath = strings_Join (ts ++ before ++ [leaf]) SeparatorS ∧
  no_directory_part fullPath = false ∧
  filepath_Dir fullPath = strings_Join (ts ++ before) SeparatorS.
Proof.
  intros Hne Hts Hno Hkept p. set (tl := strings_Join ts SeparatorS) in *.
  pose proof (kept_plain (Name file) Hno) as Hk. rewrite Hkept in Hk.
  assert (Forall plain ((ts ++ before) ++ [leaf])) as Hall.
  { rewrite <-app_assoc. by apply Forall_app. }
  assert (ts ++ before ≠ []) as Hne' by (by destruct ts).
  assert (tl ≠ "") as Htl.
  { intros E. apply strings_Join_empty_iff in E; [done|].
    eapply Forall_impl; [exact Hts|]. by intros x (? & _). }
  assert (p = strings_Join ((ts ++ before) ++ [leaf]) SeparatorS) as Hp.
  { subst p. unfold entry_path, filepath_FromSlash. cbn [filepath_Join].
    destruct (String.eqb_spec tl ""); [done|].
    rewrite strings_Join_cons. cbn [strings_Join].
    change (SeparatorS +:+ Name file) with (String Separator (Name file)).
    unfold filepath_Clean.
    rewrite rooted_append by done. subst tl.
    rewrite strings_Join_plain_rooted by done.
    rewrite strings_Split_app, strings_Split_Join_plain by done.
    rewrite foldl_clean_step_no_dotdot.
    2: { intros Hin. apply elem_of_app in Hin as [Hin|Hin]; [|done].
         rewrite Forall_forall in Hts. apply Hts in Hin. by destruct Hin as (_ & _ & ? & _). }
    rewrite app_nil_r, rev_involutive, filter_app. fold (kept (Name file)). rewrite Hkept.
    assert (filter (λ e, e ≠ "" ∧ e ≠ ".") ts = ts) as ->.
    { clear -Hts. induction Hts as [|e es He _ IH]; [done|].
      rewrite filter_cons, decide_True by (by destruct He as (? & ? & _)). by rewrite IH. }
    rewrite app_assoc.
    destruct (String.eqb_spec (strings_Join ((ts ++ before) ++ [leaf]) SeparatorS) "") as [E|E];
      [|done].
    apply strings_Join_empty_iff in E; [by destruct (ts ++ before)|].
    eapply Forall_impl; [exact Hall|]. by intros x (? & _). }
  split_and!.
  - by rewrite Hp, <-app_assoc.
  - rewrite Hp. unfold no_directory_part.
    rewrite strings_Split_Join_plain by (done || by destruct (ts ++ before)).
    destruct ts as [|t ts]; [done|]. apply Forall_cons in Hts as [(Ht & _) _].
    cbn [app]. destruct (ts ++ before) as [|x [|y l]]; cbn [app]; [|done..].
    by apply String.eqb_neq.
  - rewrite Hp. by apply filepath_Dir_plain.
Qed.

(** X23. Entries below a target directory made of names (lines 171 and
    186-202). For an entry whose name has no [..] element and keeps at
    least one element, the destination is the target directory followed
    by the elements that the name keeps. The extractor does not skip
    such an entry: it calls the directory creator, with mode 0755, on
    the target directory followed by all those elements but the last,
    which is the target directory or a directory below it; an error of
    that call ends the work on the entry, and otherwise the entry
    itself is handled at its destination. *)
Theorem entry_and_its_directory_below_target :
  ∀ (targetElems : list string) (file : File) (before : list string) (leaf : string)
    (fileAlreadyWritten : bool) (fileCreator : FileCreator)
    (directoryCreator : DirectoryCreator) (existingFileReader : FileReader),
    targetElems ≠ [] → Forall plain targetElems →
    ".." ∉ strings_Split (Name file) Separator →
    kept (Name file) = before ++ [leaf] →
    let targetLocation := strings_Join targetElems SeparatorS in
    let fullPath := entry_path targetLocation file in
    fullPath = strings_Join (targetElems ++ before ++ [leaf]) SeparatorS ∧
    readFileFromZipAndWriteToFilesystem file fullPath fileAlreadyWritten fileCreator
      directoryCreator existingFileReader
    = (err ← directoryCreator (strings_Join (targetElems ++ before) SeparatorS) mode_0755;
       match err with
       | Some e => mret (Some e)
       | None =>
           writeEntry file fullPath fileAlreadyWritten fileCreator directoryCreator
             existingFileReader
       end).
Proof.
  intros ts file before leaf flag fc dc fr Hne Hts Hno Hkept tl p.
  destruct (entry_path_below_names ts file before leaf Hne Hts Hno Hkept) as (Hp & Hn & Hd).
  split; [exact Hp|].
  subst p tl. rewrite readFileFromZipAndWriteToFilesystem_steps, Hn, Hd. reflexivity.
Qed.

Lemma entry_and_its_directory_below_target_witness :
  entry_path "out/site" page_a = "out/site/pages/A.json" ∧
  run mem_handler
    (readFileFromZipAndWriteToFilesystem page_a (entry_path "out/site" page_a) false
       writeNewFile createDirectory readExistingFile) empty_fs
  = run mem_handler
      (err ← createDirectory "out/site/pages" mode_0755;
       match err with
       | Some e => mret (Some e)
       | None =>
           writeEntry page_a "out/site/pages/A.json" false writeNewFile createDirectory
             readExistingFile
       end) empty_fs.
Proof.
  destruct (entry_and_its_directory_below_target ["out"; "site"] page_a ["pages"] "A.json"
              false writeNewFile createDirectory readExistingFile) as [H1 H2].
  - done.
  - repeat constructor; done.
  - vm_compute. intros H.
    repeat (apply elem_of_cons in H as [H|H]; [discriminate|]). by apply not_elem_of_nil in H.
  - reflexivity.
  - split; [exact H1|]. exact (f_equal (λ p, run mem_handler p empty_fs) H2).
Defined.

(** ** readFileFromZipAndWriteToFilesystem: entries at the top of an archive *)

Lemma kept_plain_name name : plain name → kept name = [name].
Proof.
  intros (H1 & H2 & _ & Hs). unfold kept. rewrite Hs.
  by rewrite filter_cons, decide_True.
Qed.

Lemma entry_path_empty_target file :
  plain (Name file) → entry_path "" file = Name file.
Proof.
  intros Hn. unfold entry_path, filepath_FromSlash. cbn [filepath_Join String.eqb].
  destruct (String.eqb_spec (Name file) "") as [E|_]; [by destruct Hn as (? & _)|].
  cbn [strings_Join]. apply (filepath_Clean_plain [Name file]); [done|by constructor].
Qed.

(** C6. What the extractor does with an entry at the top level of an
    archive. The failing input: the target directory is [out] and the
    only entry of the only archive is [root.txt]. The entry is not
    skipped: [out/root.txt] is opened for writing, the run ends without
    error and the file is there with the content of the entry. The same
    holds for every target directory made of names and every entry
    whose name is a name without separator: the destination is the
    target directory followed by the name, so the guard of lines
    186-202, which looks at the destination, finds the target directory
    as its directory, has it made, and the entry is handled. An entry
    is skipped, as the comments on lines 185 and 198-199 say, exactly
    when the destination itself has no directory part, as it is for an
    entry at the top level with the empty path as target directory. *)
Theorem top_level_entry_written_at_target_root :
  (∀ dirNames : list string,
     let r := run mem_handler
                (writeResultsToDisk "out" dirNames writeNewFile createDirectory
                   readExistingFile [archive [root_txt]]) empty_fs in
     result_of r = None ∧
     files (world_of r) !! "out/root.txt" = Some [LStr "hello"] ∧
     os_OpenFile "out/root.txt" mode_0644 ∈ calls_of r) ∧
  (∀ (targetElems : list string) (file : File) (fileAlreadyWritten : bool)
     (fileCreator : FileCreator) (directoryCreator : DirectoryCreator)
     (existingFileReader : FileReader),
     targetElems ≠ [] → Forall plain targetElems → plain (Name file) →
     let targetLocation := strings_Join targetElems SeparatorS in
     let fullPath := entry_path targetLocation file in
     fullPath = targetLocation +:+ SeparatorS +:+ Name file ∧
     readFileFromZipAndWriteToFilesystem file fullPath fileAlreadyWritten fileCreator
       directoryCreator existingFileReader
     = (err ← directoryCreator targetLocation mode_0755;
        match err with
        | Some e => mret (Some e)
        | None =>
            writeEntry file fullPath fileAlreadyWritten fileCreator directoryCreator
              existingFileReader
        end)) ∧
  (∀ (file : File) (fullPath : string) (fileAlreadyWritten : bool)
     (fileCreator : FileCreator) (directoryCreator : DirectoryCreator)
     (existingFileReader : FileReader),
     readFileFromZipAndWriteToFilesystem file fullPath fileAlreadyWritten fileCreator
       directoryCreator existingFileReader
     = if no_directory_part fullPath then mret None
       else
         err ← directoryCreator (filepath_Dir fullPath) mode_0755;
         match err with
         | Some e => mret (Some e)
         | None =>
             writeEntry file fullPath fileAlreadyWritten fileCreator directoryCreator
               existingFileReader
         end) ∧
  (∀ file : File,
     plain (Name file) →
     entry_path "" file = Name file ∧ no_directory_part (entry_path "" file) = true).
Proof.
  split_and!.
  - intros dirNames r. subst r. unfold writeResultsToDisk.
    change (getFriendlyURL "out") with (mret (M := Prog) (Ok "out")).
    rewrite run_bind, run_ret. cbn [fst snd]. cbn zeta.
    unfold result_of, world_of, calls_of. rewrite run_bind. cbn zeta. cbn [fst snd].
    pose proof (removeMetadataDirs_empty_fs "out" dirNames) as Hw.
    unfold world_of in Hw. rewrite Hw. cbn [app]. rewrite fmap_app.
    split_and!.
    + vm_compute. reflexivity.
    + vm_compute. reflexivity.
    + apply elem_of_app. right. vm_compute.
      do 7 apply list_elem_of_further. apply list_elem_of_here.
  - intros ts file flag fc dc fr Hne Hts Hn tl p.
    destruct (entry_path_below_names ts file [] (Name file) Hne Hts) as (Hp & Hnd & Hd).
    { destruct Hn as (_ & _ & Hdd & Hs). rewrite Hs. intros Hin.
      apply list_elem_of_singleton in Hin. done. }
    { by apply kept_plain_name. }
    cbn zeta in *. rewrite app_nil_r in Hd. fold tl in Hp, Hnd, Hd. fold p in Hp, Hnd, Hd.
    split.
    + rewrite Hp. cbn [app]. rewrite strings_Join_app by done. done.
    + by rewrite readFileFromZipAndWriteToFilesystem_steps, Hnd, Hd.
  - intros file p flag fc dc fr. apply readFileFromZipAndWriteToFilesystem_steps.
  - intros file Hn. rewrite entry_path_empty_target by done. split; [done|].
    unfold no_directory_part. by destruct Hn as (_ & _ & _ & ->).
Qed.

(** ** ziputils.Archive: nothing to archive *)

Lemma run_walk_directories {W} (h : handler W) basePath visits (w : W) :
  Forall (λ v, v_isDir v = true ∧ v_err v = None) visits →
  run h (walk (Archive_visit basePath) visits) w = (None, w, []).
Proof.
  induction 1 as [|v visits [Hdir Herr] _ IH]; [done|].
  cbn [walk]. rewrite run_bind. cbn zeta. rewrite run_Archive_visit.
  rewrite Hdir, Herr, orb_true_r. cbn [fst snd]. by rewrite IH.
Qed.

(** X25. [Archive] where there is nothing for it to add. When the walk
    meets directories only, the archive gets no entry: the writer is
    closed right after the walk and what closing returns is returned.
    When the first visit of the walk carries an error, as for a path
    that does not exist, that error is returned right after the walk:
    no entry is created and the writer is not closed. *)
Theorem Archive_of_no_file :
  ∀ (W : Type) (h : handler W) (w : W) (inFilePath : string),
    let visits := (h (filepath_Walk inFilePath) w).1 in
    let w1 := (h (filepath_Walk inFilePath) w).2 in
    (Forall (λ v, v_isDir v = true ∧ v_err v = None) visits →
     run h (Archive inFilePath) w
     = ((h zipWriter_Close w1).1, (h zipWriter_Close w1).2,
        [Ev (filepath_Walk inFilePath) visits; Ev zipWriter_Close (h zipWriter_Close w1).1])) ∧
    (∀ v rest e,
       visits = v :: rest → v_err v = Some e →
       run h (Archive inFilePath) w = (Some e, w1, [Ev (filepath_Walk inFilePath) visits])).
Proof.
  intros W h w p visits w1. subst visits w1. split.
  - intros Hdirs. unfold Archive, filepath_Walk_with. rewrite !run_bind. cbn zeta.
    rewrite (run_perform h (filepath_Walk p)). cbn [fst snd].
    rewrite (run_walk_directories h _ _ _ Hdirs). cbn [fst snd app].
    by rewrite (run_perform h zipWriter_Close).
  - intros v rest e Hvisits Herr. unfold Archive, filepath_Walk_with.
    rewrite !run_bind. cbn zeta.
    rewrite (run_perform h (filepath_Walk p)). cbn [fst snd].
    rewrite Hvisits. cbn [walk]. rewrite run_bind. cbn zeta. rewrite run_Archive_visit.
    rewrite Herr. rewrite bool_decide_eq_true_2 by eauto. cbn [orb fst snd].
    by rewrite !run_ret.
Qed.

Lemma Archive_of_no_file_witness :
  (let r := run mem_handler (Archive "site") fs_empty_site in
   result_of r = None ∧ zw_entries (world_of r) = [] ∧ zw_closed (world_of r) = true) ∧
  (let r := run mem_handler (Archive "missing") fs_empty_site in
   result_of r = Some (ErrOS "lstat" "missing") ∧ zw_closed (world_of r) = false ∧
   calls_of r = [filepath_Walk "missing"]).
Proof.
  split; cbn zeta.
  - destruct (Archive_of_no_file MemFS mem_handler fs_empty_site "site") as [H1 _].
    rewrite H1.
    + clear H1. vm_compute. split_and!; reflexivity.
    + clear H1. apply (bool_decide_unpack _). vm_compute. exact I.
  - destruct (Archive_of_no_file MemFS mem_handler fs_empty_site "missing") as [_ H2].
    rewrite (H2 {| v_path := "missing"; v_isDir := false;
                   v_err := Some (ErrOS "lstat" "missing") |} [] (ErrOS "lstat" "missing")
               eq_refl eq_refl).
    clear H2. vm_compute. split_and!; reflexivity.
Defined.


(** ** ziputils.CreateTestZip *)

Lemma zip_run_bind {Z A B} (h : zip_handler Z) (p : ZipProg A) (f : A → ZipProg B) (z : Z) :
  zip_run h (p ≫= f) z =
  let r1 := zip_run h p z in
  let r2 := zip_run h (f r1.1.1) r1.1.2 in
  (r2.1.1, r2.1.2, r1.2 ++ r2.2).
Proof.
  unfold mbind, ZipProg_bind. revert z.
  induction p as [a|c k IH]; intros z; simpl.
  - by destruct (zip_run h (f a) z) as [[??]?].
  - destruct (h c z) as [r z1]. rewrite IH. simpl.
    by destruct (zip_run h (k r) z1) as [[??]?].
Qed.

Lemma zip_run_perform {Z} (h : zip_handler Z) (c : zip_call) (z : Z) :
  zip_run h (zip_perform c) z = ((h c z).1, (h c z).2, [(c, (h c z).1)]).
Proof. unfold zip_perform. simpl. by destruct (h c z). Qed.

Lemma succeeded_calls (calls : list zip_call) : (succeeded calls).*1 = calls.
Proof.
  induction calls as [|c calls IH]; [done|].
  unfold succeeded in *. cbn [fmap list_fmap fst]. by rewrite IH.
Qed.

(** The loop over the files goes on as long as every step returns nil. *)
Lemma run_CreateTestZip_files {Z} (h : zip_handler Z) (files : list TestFile.t) (z : Z) :
  let r := zip_run h (CreateTestZip_files files) z in
  match r.1.1 with
  | None => r.2 = succeeded (zip_steps files)
  | Some e =>
      ∃ before c after,
        zip_steps files = before ++ c :: after ∧ r.2 = succeeded before ++ [(c, Some e)]
  end.
Proof.
  cbn zeta. revert z. induction files as [|file files IH]; intros z; [done|].
  cbn [CreateTestZip_files]. rewrite zip_run_bind. cbn zeta.
  rewrite zip_run_perform. cbn [fst snd].
  destruct (h (zw_Create (TestFile.Name file)) z) as [[e|] z1]; cbn [fst snd].
  { exists [], (zw_Create (TestFile.Name file)). eexists. split; [reflexivity|done]. }
  rewrite zip_run_bind. cbn zeta. rewrite zip_run_perform. cbn [fst snd].
  destruct (h (zw_Write _ _) z1) as [[e|] z2]; cbn [fst snd].
  { exists [zw_Create (TestFile.Name file)], (zw_Write (TestFile.Name file) (TestFile.Body file)).
    eexists. split; [reflexivity|done]. }
  specialize (IH z2).
  destruct (zip_run h (CreateTestZip_files files) z2) as [[[e|] z3] tr]; cbn [fst snd] in *.
  - destruct IH as (before & c & after & Hsteps & ->).
    exists (zw_Create (TestFile.Name file)
              :: zw_Write (TestFile.Name file) (TestFile.Body file) :: before), c, after.
    split; [|done]. cbn [zip_steps flat_map app]. fold (zip_steps files). by rewrite Hsteps.
  - by rewrite IH.
Qed.

(** X22. What a run of [CreateTestZip] is, for every writer. When it
    returns nil, every file got its entry and its body, in the order of
    the list, every step returned nil, and the writer was closed last.
    When it returns an error, that error came from the last call made:
    either a step for one of the files, after which nothing more is
    created or written and the writer is not closed, or the closing of
    the writer after all files were added. *)
Theorem CreateTestZip_closes_after_all_files :
  ∀ (Z : Type) (h : zip_handler Z) (z : Z) (files : list TestFile.t),
    let r := zip_run h (CreateTestZip files) z in
    match r.1.1 with
    | None => r.2 = succeeded (zip_steps files ++ [zw_Close])
    | Some e =>
        (∃ before c after,
           zip_steps files = before ++ c :: after ∧
           r.2 = succeeded before ++ [(c, Some e)] ∧
           zw_Close ∉ r.2.*1) ∨
        r.2 = succeeded (zip_steps files) ++ [(zw_Close, Some e)]
    end.
Proof.
  intros Z h z files r. subst r. unfold CreateTestZip. rewrite zip_run_bind. cbn zeta.
  pose proof (run_CreateTestZip_files h files z) as Hfiles. cbn zeta in Hfiles.
  destruct (zip_run h (CreateTestZip_files files) z) as [[[e|] z1] tr]; cbn [fst snd] in *.
  - left. destruct Hfiles as (before & c & after & Hsteps & ->).
    exists before, c, after. cbn [zip_run]. rewrite app_nil_r. split_and!; [done..|].
    assert (zw_Close ∉ zip_steps files) as Hno.
    { clear. induction files as [|file files IH]; [apply not_elem_of_nil|].
      cbn [zip_steps flat_map app]. intros Hin.
      repeat (apply elem_of_cons in Hin as [Hin|Hin]; [discriminate|]). exact (IH Hin). }
    rewrite Hsteps in Hno. rewrite fmap_app, succeeded_calls.
    cbn [fmap list_fmap fst]. intros Hin. apply Hno.
    apply elem_of_app in Hin as [Hin|Hin]; [set_solver|].
    apply list_elem_of_singleton in Hin as <-. set_solver.
  - rewrite zip_run_perform. cbn [fst snd]. subst tr.
    destruct (h zw_Close z1) as [[e|] z2]; cbn [fst snd].
    + by right.
    + unfold succeeded. by rewrite fmap_app.
Qed.

(** Two runs with the writer in memory: all files are added and the
    archive is finalized; the second file is refused, the third is not
    looked at and the archive is left as it is, not finalized. *)
Example CreateTestZip_all_added :
  zip_run (mem_zip_handler ∅)
    (CreateTestZip [TestFile.mk "pages/A.json" [LBrace; RBrace]; TestFile.mk "readme" [LStr "x"]])
    empty_zip
  = (None,
     {| mz_entries := [("pages/A.json", [LBrace; RBrace]); ("readme", [LStr "x"])];
        mz_closed := true |},
     succeeded [zw_Create "pages/A.json"; zw_Write "pages/A.json" [LBrace; RBrace];
                zw_Create "readme"; zw_Write "readme" [LStr "x"]; zw_Close]).
Proof. vm_compute. reflexivity. Qed.

Example CreateTestZip_second_refused :
  zip_run (mem_zip_handler {["bad"]})
    (CreateTestZip [TestFile.mk "a" [LNull]; TestFile.mk "bad" [LNull]; TestFile.mk "c" [LNull]])
    empty_zip
  = (Some (ErrIO "zip: entry refused"),
     {| mz_entries := [("a", [LNull])]; mz_closed := false |},
     succeeded [zw_Create "a"; zw_Write "a" [LNull]]
       ++ [(zw_Create "bad", Some (ErrIO "zip: entry refused"))]).
Proof. vm_compute. reflexivity. Qed.


(** ** The path registry in a run *)

(** The loop of [unzip] at any of its entries: the entries before it
    were handled, the entry is handled with the answer that the
    registry gives for its destination at that moment, and the entries
    after it are handled from the registry with that destination in
    it, whatever the work on the entry returned. *)
Lemma run_unzip_entries_at {W} (h : handler W) (w : W) before file after tl pm fc dc fr :
  run h (unzip_entries (before ++ file :: after) tl pm fc dc fr) w =
  let path := entry_path tl file in
  let seen := registry_after before tl pm in
  let r1 := run h (unzip_entries before tl pm fc dc fr) w in
  let r2 := run h (readFileFromZipAndWriteToFilesystem file path
                     (bool_decide (path ∈ dom seen)) fc dc fr) (world_of r1) in
  let r3 := run h (unzip_entries after tl (registry_after (before ++ [file]) tl pm)
                     fc dc fr) (world_of r2) in
  (registry_after (before ++ file :: after) tl pm, world_of r3,
   trace_of r1 ++ trace_of r2 ++ trace_of r3).
Proof.
  cbn zeta. revert pm w. induction before as [|b before IH]; intros pm w.
  - cbn [app unzip_entries registry_after]. rewrite run_bind. cbn zeta.
    rewrite registerPath_answer. rewrite run_ret.
    unfold world_of, trace_of. cbn [fst snd app].
    by rewrite run_unzip_entries.
  - cbn [app unzip_entries registry_after]. rewrite !run_bind. cbn zeta.
    rewrite IH. unfold world_of, trace_of. cbn [fst snd].
    by rewrite !app_assoc.
Qed.

(** The first entry of a list that goes to a given destination. *)
Lemma first_occurrence {A} `{EqDecision A} (x : A) (l : list A) :
  x ∈ l → ∃ i, l !! i = Some x ∧ x ∉ take i l.
Proof.
  induction l as [|y l IH]; intros Hin; [by apply not_elem_of_nil in Hin|].
  destruct (decide (x = y)) as [->|Hne].
  - exists 0%nat. split; [done|]. cbn. apply not_elem_of_nil.
  - apply elem_of_cons in Hin as [?|Hin]; [done|].
    destruct (IH Hin) as (i & Hi & Hno). exists (S i). split; [done|].
    cbn [take]. by apply not_elem_of_cons.
Qed.

(** What the answer of the registry decides for a regular entry whose
    destination has a directory part: without it the content of the
    entry goes to the file creator and the file reader is not used;
    with it the file reader is run on the destination and what goes to
    the file creator is the merge of what it returned with the content
    of the entry. *)
Lemma run_fresh_entry {W} (h : handler W) (w : W) file rd path fc dc fr :
  File_IsDir file = false → Open file = Ok rd → no_directory_part path = false →
  run h (readFileFromZipAndWriteToFilesystem file path false fc dc fr) w =
  let made := run h (dc (filepath_Dir path) mode_0755) w in
  match result_of made with
  | Some e => (Some e, world_of made, trace_of made)
  | None =>
      let written := run h (fc rd path) (world_of made) in
      let closed := h (reader_Close rd) (world_of written) in
      (result_of written, closed.2,
       trace_of made ++ trace_of written ++ [Ev (reader_Close rd) closed.1])
  end.
Proof.
  intros Hdir Hopen Hpart. rewrite readFileFromZipAndWriteToFilesystem_steps, Hpart.
  rewrite run_bind. cbn zeta. unfold result_of, world_of, trace_of.
  destruct (run h (dc (filepath_Dir path) mode_0755) w) as [[[e|] w1] tr1]; cbn [fst snd].
  { by rewrite run_ret, app_nil_r. }
  rewrite (writeEntry_fresh file rd path fc dc fr Hdir Hopen).
  rewrite run_bind. cbn zeta.
  destruct (run h (fc rd path) w1) as [[res w2] tr2]; cbn [fst snd].
  rewrite run_bind. cbn zeta. rewrite (run_perform h (reader_Close rd)). cbn [fst snd].
  by destruct res; rewrite run_ret; cbn [fst snd]; rewrite app_nil_r.
Qed.

Lemma run_merged_entry {W} (h : handler W) (w : W) file rd path fc dc fr :
  File_IsDir file = false → Open file = Ok rd → no_directory_part path = false →
  run h (readFileFromZipAndWriteToFilesystem file path true fc dc fr) w =
  let made := run h (dc (filepath_Dir path) mode_0755) w in
  match result_of made with
  | Some e => (Some e, world_of made, trace_of made)
  | None =>
      let read := run h (fr path) (world_of made) in
      let merged :=
        match result_of read with
        | Err e => Err e
        | Ok existingBytes =>
            match ioutil_ReadAll rd with
            | Err e => Err e
            | Ok newBytes => combineJSON existingBytes newBytes
            end
        end in
      match merged with
      | Err e =>
          let closed := h (reader_Close rd) (world_of read) in
          (Some e, closed.2,
           trace_of made ++ trace_of read ++ [Ev (reader_Close rd) closed.1])
      | Ok indented =>
          let written := run h (fc (NopCloser_NewReader indented) path) (world_of read) in
          let closed := h (reader_Close rd) (world_of written) in
          (result_of written, closed.2,
           trace_of made ++ trace_of read ++ trace_of written
             ++ [Ev (reader_Close rd) closed.1])
      end
  end.
Proof.
  intros Hdir Hopen Hpart. rewrite readFileFromZipAndWriteToFilesystem_steps, Hpart.
  rewrite run_bind. cbn zeta. unfold result_of, world_of, trace_of.
  destruct (run h (dc (filepath_Dir path) mode_0755) w) as [[[e|] w1] tr1]; cbn [fst snd].
  { by rewrite run_ret, app_nil_r. }
  rewrite (writeEntry_merge file rd path fc dc fr Hdir Hopen).
  rewrite !run_bind. cbn zeta. rewrite run_combineJSONFile. cbn zeta.
  unfold result_of, world_of, trace_of. cbn [fst snd].
  destruct (run h (fr path) w1) as [[[existing|e] w2] tr2]; cbn [fst snd].
  2: { rewrite run_ret. cbn [fst snd]. rewrite run_bind. cbn zeta.
       rewrite (run_perform h (reader_Close rd)). cbn [fst snd].
       rewrite run_ret. cbn [fst snd]. by rewrite !app_nil_r. }
  destruct (ioutil_ReadAll rd) as [newBytes|e].
  2: { rewrite run_ret. cbn [fst snd]. rewrite run_bind. cbn zeta.
       rewrite (run_perform h (reader_Close rd)). cbn [fst snd].
       rewrite run_ret. cbn [fst snd]. by rewrite !app_nil_r. }
  destruct (combineJSON existing newBytes) as [indented|e].
  2: { rewrite run_ret. cbn [fst snd]. rewrite run_bind. cbn zeta.
       rewrite (run_perform h (reader_Close rd)). cbn [fst snd].
       rewrite run_ret. cbn [fst snd]. by rewrite !app_nil_r. }
  destruct (run h (fc (NopCloser_NewReader indented) path) w2) as [[res w3] tr3];
    cbn [fst snd].
  rewrite run_bind. cbn zeta. rewrite (run_perform h (reader_Close rd)). cbn [fst snd].
  destruct res; rewrite run_ret; cbn [fst snd]; by rewrite !app_nil_r, <-?app_assoc.
Qed.

(** From one archive to the next: once a payload is spooled, its
    archive opened and the target directory there, the entries are
    handled and the payloads that follow are processed from the
    registry that these entries left. *)
Lemma run_processResults_next {W} (h : handler W) (w : W) td fc dc fr d rest pm deferred
    tmp entries :
  let spooled := run h (createTemporaryZipFile d) w in
  let opened := h (zip_OpenReader tmp) (world_of spooled) in
  let target := run h (if negb (String.eqb td "") then dc td mode_0755 else mret None)
                  opened.2 in
  let handled := run h (unzip_entries entries td pm fc dc fr) (world_of target) in
  let later := run h (processResults td fc dc fr rest (registry_after entries td pm)
                        (tmp :: deferred)) (world_of handled) in
  result_of spooled = Ok tmp → opened.1 = Ok entries → result_of target = None →
  run h (processResults td fc dc fr (d :: rest) pm deferred) w
  = (result_of later, world_of later,
     trace_of spooled ++ Ev (zip_OpenReader tmp) opened.1 :: trace_of target
       ++ trace_of handled ++ trace_of later).
Proof.
  cbn zeta. unfold result_of, world_of, trace_of. intros Hs Ho Ht.
  cbn [processResults]. rewrite run_bind. cbn zeta.
  destruct (run h (createTemporaryZipFile d) w) as [[res w1] tr1]; cbn [fst snd] in *.
  subst res. rewrite run_bind. cbn zeta.
  unfold unzip. rewrite run_bind. cbn zeta.
  rewrite (run_perform h (zip_OpenReader tmp)). cbn [fst snd].
  destruct (h (zip_OpenReader tmp) w1) as [o w2]; cbn [fst snd] in *. subst o.
  rewrite run_bind. cbn zeta.
  destruct (run h (if negb (String.eqb td "") then dc td mode_0755 else mret None) w2)
    as [[res w3] tr3]; cbn [fst snd] in *. subst res.
  rewrite run_bind. cbn zeta. rewrite run_unzip_entries. cbn zeta. cbn [fst snd].
  rewrite run_ret. cbn [fst snd].
  destruct (run h (perform_schedule (schedule entries td pm) fc dc fr) w3)
    as [[u w4] tr4]; cbn [fst snd].
  destruct (run h (processResults td fc dc fr rest (registry_after entries td pm)
                     (tmp :: deferred)) w4) as [[out w5] tr5]; cbn [fst snd].
  by rewrite !app_nil_r, <-!app_assoc.
Qed.

(** The registry only grows: through an archive, and through all the
    payloads of a run. *)
Lemma unzip_registry_grows {W} (h : handler W) (w : W) tmp td pm fc dc fr :
  dom pm ⊆ dom (result_of (run h (unzip tmp td pm fc dc fr) w)).1.
Proof.
  unfold unzip, result_of. rewrite run_bind. cbn zeta.
  rewrite (run_perform h (zip_OpenReader tmp)). cbn [fst snd].
  destruct (h (zip_OpenReader tmp) w) as [[entries|e] w1]; cbn [fst snd];
    [|by rewrite run_ret].
  rewrite run_bind. cbn zeta.
  destruct (run h (if negb (String.eqb td "") then dc td mode_0755 else mret None) w1)
    as [[[e|] w2] tr2]; cbn [fst snd]; [by rewrite run_ret|].
  rewrite run_bind. cbn zeta. rewrite run_unzip_entries. cbn zeta. cbn [fst snd].
  rewrite run_ret. cbn [fst snd]. rewrite registry_after_dom. set_solver.
Qed.

Lemma processResults_registry_grows {W} (h : handler W) (w : W) td fc dc fr results pm
    deferred :
  dom pm ⊆ dom (result_of (run h (processResults td fc dc fr results pm deferred) w)).1.2.
Proof.
  revert pm deferred w. induction results as [|d results IH]; intros pm deferred w; [done|].
  cbn [processResults]. rewrite run_bind. cbn zeta. unfold result_of in *.
  destruct (run h (createTemporaryZipFile d) w) as [[[tmp|e0] w1] tr1]; cbn [fst snd];
    [|by rewrite run_ret].
  rewrite run_bind. cbn zeta.
  pose proof (unzip_registry_grows h w1 tmp td pm fc dc fr) as Hu. unfold result_of in Hu.
  destruct (run h (unzip tmp td pm fc dc fr) w1) as [[[pm1 [e1|]] w2] tr2];
    cbn [fst snd] in *; [by rewrite run_ret|].
  etrans; [exact Hu|apply IH].
Qed.

(** C5. The path registry in a run, for every environment, target
    directory and capabilities.

    I. The loop of [unzip] (lines 170-178) at any of its entries: the
    entry is handled by [readFileFromZipAndWriteToFilesystem] with the
    answer "already written" exactly when its destination is in the
    registry at that moment, that is, was in it when the archive was
    opened or is the destination of an entry handled before in this
    archive. The entries after it are handled from the registry with
    that destination in it, whatever the work on the entry returned:
    the destination is registered before the write completes.

    II. A destination that is in the registry stays in it. For a
    destination that is not, the answer is "not yet written" for
    exactly one of the entries that go to it, the first, however many
    entries name it.

    III. What the answer decides, for a regular entry whose destination
    has a directory part: with "not yet written" the content of the
    entry goes to the file creator as it is and the file reader is not
    run; with "already written" the file reader is run on the
    destination and what goes to the file creator is the merge of the
    bytes it returned with the content of the entry.

    IV. From archive to archive (lines 117-133): once a payload is
    spooled, its archive opened and the target directory there, the
    payloads that follow are processed from the registry that the
    entries of this archive left.

    V. [writeResultsToDisk] (lines 90-138) starts this processing from
    the empty registry, once for the whole run.

    VI. However many payloads are processed, and whether or not the
    processing ends with an error, every destination that was in the
    registry is in the registry at the end. *)
Theorem path_enters_registry_once :
  ∀ (W : Type) (h : handler W) (targetLocation : string) (fileCreator : FileCreator)
    (directoryCreator : DirectoryCreator) (existingFileReader : FileReader),
    (∀ (w : W) (pathMap : gmap string bool) (before : list File) (file : File)
       (after : list File),
       let path := entry_path targetLocation file in
       let seen := registry_after before targetLocation pathMap in
       let r1 := run h (unzip_entries before targetLocation pathMap fileCreator
                          directoryCreator existingFileReader) w in
       let r2 := run h (readFileFromZipAndWriteToFilesystem file path
                          (bool_decide (path ∈ dom seen)) fileCreator directoryCreator
                          existingFileReader) (world_of r1) in
       let r3 := run h (unzip_entries after targetLocation
                          (registry_after (before ++ [file]) targetLocation pathMap)
                          fileCreator directoryCreator existingFileReader) (world_of r2) in
       run h (unzip_entries (before ++ file :: after) targetLocation pathMap fileCreator
                directoryCreator existingFileReader) w
       = (registry_after (before ++ file :: after) targetLocation pathMap, world_of r3,
          trace_of r1 ++ trace_of r2 ++ trace_of r3) ∧
       result_of r1 = seen ∧
       dom seen = dom pathMap ∪ list_to_set (entry_path targetLocation <$> before) ∧
       dom (registry_after (before ++ [file]) targetLocation pathMap) = dom seen ∪ {[path]}) ∧
    (∀ (pathMap : gmap string bool) (files : list File) (p : string),
       (p ∈ dom pathMap →
        ∀ i, p ∈ dom (registry_after (take i files) targetLocation pathMap)) ∧
       (p ∉ dom pathMap → p ∈ entry_path targetLocation <$> files →
        ∃ i, ∀ j file,
          files !! j = Some file → entry_path targetLocation file = p →
          (p ∉ dom (registry_after (take j files) targetLocation pathMap) ↔ j = i))) ∧
    (∀ (w : W) (file : File) (fileReader : Reader) (path : string),
       File_IsDir file = false → Open file = Ok fileReader →
       no_directory_part path = false →
       let made := run h (directoryCreator (filepath_Dir path) mode_0755) w in
       run h (readFileFromZipAndWriteToFilesystem file path false fileCreator
                directoryCreator existingFileReader) w
       = match result_of made with
         | Some e => (Some e, world_of made, trace_of made)
         | None =>
             let written := run h (fileCreator fileReader path) (world_of made) in
             let closed := h (reader_Close fileReader) (world_of written) in
             (result_of written, closed.2,
              trace_of made ++ trace_of written ++ [Ev (reader_Close fileReader) closed.1])
         end ∧
       run h (readFileFromZipAndWriteToFilesystem file path true fileCreator
                directoryCreator existingFileReader) w
       = match result_of made with
         | Some e => (Some e, world_of made, trace_of made)
         | None =>
             let read := run h (existingFileReader path) (world_of made) in
             let merged :=
               match result_of read with
               | Err e => Err e
               | Ok existingBytes =>
                   match ioutil_ReadAll fileReader with
                   | Err e => Err e
                   | Ok newBytes => combineJSON existingBytes newBytes
                   end
               end in
             match merged with
             | Err e =>
                 let closed := h (reader_Close fileReader) (world_of read) in
                 (Some e, closed.2,
                  trace_of made ++ trace_of read ++ [Ev (reader_Close fileReader) closed.1])
             | Ok indented =>
                 let written := run h (fileCreator (NopCloser_NewReader indented) path)
                                  (world_of read) in
                 let closed := h (reader_Close fileReader) (world_of written) in
                 (result_of written, closed.2,
                  trace_of made ++ trace_of read ++ trace_of written
                    ++ [Ev (reader_Close fileReader) closed.1])
             end
         end) ∧
    (∀ (w : W) (data : ReadCloser) (rest : list ReadCloser) (pathMap : gmap string bool)
       (deferred : list string) (tmpFileName : string) (entries : list File),
       let spooled := run h (createTemporaryZipFile data) w in
       let opened := h (zip_OpenReader tmpFileName) (world_of spooled) in
       let target := run h (if negb (String.eqb targetLocation "")
                            then directoryCreator targetLocation mode_0755
                            else mret None) opened.2 in
       let handled := run h (unzip_entries entries targetLocation pathMap fileCreator
                               directoryCreator existingFileReader) (world_of target) in
       let later := run h (processResults targetLocation fileCreator directoryCreator
                             existingFileReader rest
                             (registry_after entries targetLocation pathMap)
                             (tmpFileName :: deferred)) (world_of handled) in
       result_of spooled = Ok tmpFileName → opened.1 = Ok entries →
       result_of target = None →
       run h (processResults targetLocation fileCreator directoryCreator existingFileReader
                (data :: rest) pathMap deferred) w
       = (result_of later, world_of later,
          trace_of spooled ++ Ev (zip_OpenReader tmpFileName) opened.1 :: trace_of target
            ++ trace_of handled ++ trace_of later)) ∧
    (∀ (w : W) (dirNames : list string) (results : list ReadCloser),
       run h (writeResultsToDisk targetLocation dirNames fileCreator directoryCreator
                existingFileReader results) w
       = let located := run h (getFriendlyURL targetLocation) w in
         match result_of located with
         | Err e => (Some e, world_of located, trace_of located)
         | Ok _ =>
             let cleared := run h (removeMetadataDirs targetLocation dirNames)
                              (world_of located) in
             let processed := run h (processResults targetLocation fileCreator
                                       directoryCreator existingFileReader results ∅ [])
                                (world_of cleared) in
             let removed := run h (runDeferred (result_of processed).2)
                              (world_of processed) in
             ((result_of processed).1.1, world_of removed,
              trace_of located ++ trace_of cleared ++ trace_of processed
                ++ trace_of removed)
         end) ∧
    (∀ (w : W) (results : list ReadCloser) (pathMap : gmap string bool)
       (deferred : list string),
       dom pathMap ⊆
       dom (result_of (run h (processResults targetLocation fileCreator directoryCreator
                                existingFileReader results pathMap deferred) w)).1.2).
Proof.
  intros W h tl fc dc fr. split_and!.
  - intros w pm before file after path seen r1 r2 r3. split_and!.
    + apply run_unzip_entries_at.
    + subst r1. by rewrite run_unzip_entries.
    + apply registry_after_dom.
    + rewrite registry_after_app. cbn [registry_after]. apply registerPath_dom.
  - intros pm files p. split.
    + intros Hin i. rewrite registry_after_dom. set_solver.
    + intros Hout Hin.
      destruct (first_occurrence p (entry_path tl <$> files) Hin) as (i & Hi & Hfirst).
      exists i. intros j file Hj Hp.
      assert ((entry_path tl <$> files) !! j = Some p) as Hj'
        by (by rewrite list_lookup_fmap, Hj; cbn; rewrite Hp).
      rewrite registry_after_dom, fmap_take. split.
      * intros Hfresh.
        destruct (Nat.lt_trichotomy j i) as [Hlt|[->|Hgt]]; [|done|].
        -- exfalso. apply Hfirst. apply list_elem_of_lookup. exists j.
           by rewrite lookup_take_lt.
        -- exfalso. apply Hfresh. apply elem_of_union. right.
           apply elem_of_list_to_set, list_elem_of_lookup. exists i.
           by rewrite lookup_take_lt.
      * intros ->. set_solver.
  - intros w file rd path Hdir Hopen Hpart made. split.
    + by apply run_fresh_entry.
    + by apply run_merged_entry.
  - intros w d rest pm deferred tmp entries spooled opened target handled later Hs Ho Ht.
    by apply run_processResults_next.
  - intros w dirNames results. apply run_writeResultsToDisk.
  - intros w results pm deferred. apply processResults_registry_grows.
Qed.

(** Two payloads with one page each, at the same path, in the in-memory
    file system: the second archive is unpacked from the registry that
    the first one left, and the registry at the end holds the one
    destination. *)
Lemma path_enters_registry_once_witness :
  dom (result_of
         (run mem_handler
            (processResults "out" writeNewFile createDirectory readExistingFile
               [archive [page_a]; archive [page_a]] ∅ []) empty_fs)).1.2
  = {["out/pages/A.json"]}.
Proof.
  destruct (path_enters_registry_once MemFS mem_handler "out" writeNewFile createDirectory
              readExistingFile) as (_ & _ & _ & Hnext & _ & _).
  rewrite (Hnext empty_fs (archive [page_a]) [archive [page_a]] ∅ [] "/tmp/skuid0" [page_a]
             eq_refl eq_refl eq_refl).
  clear Hnext. vm_compute. reflexivity.
Defined.


(** ** The capabilities of retrieve.go in the in-memory file system *)








(** ** Directories above a path made of names *)





(** ** One entry in the in-memory file system *)



(** ** One archive with one entry in the in-memory file system *)



(** ** Two archives with the same path in the in-memory file system *)








(** ** Two archives with the same path *)



